(** * token-eater-backend: the game server and its settlement calls

    A shallow embedding of the socket.io game server (connection handlers
    [join], [move], [disconnect] with their helpers [dist], [playerRadius],
    [foodRadius], [randScore], [broadcastState]) and of the settlement
    functions of [lib.ts] ([handleUserEat], [handleFoodEat]).

    Conventions of the embedding.
    - A JavaScript object used as a dictionary is an association list of
      its own properties, in the order in which [Object.keys] enumerates
      it.  A read of [games] under a session id, which the client
      chooses, also finds the properties inherited from
      [Object.prototype] ([inherited], [reads_inherited]).  Player and
      food ids are results of [genId], at most eight characters among
      [0-9] and [a-z], which is never the name of an inherited property.
    - A handler that throws ends there; [on_join] returns the state at
      that point and [on_join_throws] and [handler_throws] say when that
      happens.
    - Player objects are shared and mutated through several references
      (the local [player], the entries of [g.players], the snapshot taken
      by [Object.entries]); they live in an explicit heap and the
      dictionaries hold heap locations.  Food objects are never mutated and
      are stored by value.
    - Scores are integers.  In the handlers, coordinates are exact
      rationals and [Math.hypot] is read as the exact Euclidean norm; an
      absent coordinate is [undefined] and makes the distance [NaN].  The
      program computes on binary64 numbers, where the distance is
      rounded: module [Binary64] has the collision test as the engine
      evaluates it, and the two readings can differ within rounding of
      the boundary.  In the same way [randScore] and [randPos] multiply
      exactly.
    - [Math.random] is an oracle.
    - The number arithmetic of [handleFoodEat] is IEEE binary64, because
      the integrality test of [BigInt(_)] depends on its rounding; BigInt
      arithmetic is arithmetic on [Z].
    - Every handler runs to completion before the next one starts; the
      asynchronous settlement functions are modelled as atomic calls on the
      ledger, emitted by the game handlers as effects.
    - A message payload is an object; a field it lacks reads as
      [undefined].
    - Of the raw-WebSocket variant of the server that the sources also
      contain, the session life cycle ([connection], [join], [close],
      [broadcastState]) is embedded in module [Ws]; its [move] branch is
      not. *)

From Stdlib Require Import ZArith QArith Qround Qreals Reals String Ascii List Lia Lra.
From Stdlib Require PrimFloat SpecFloat FloatOps FloatAxioms Lqa.
From stdpp Require Import base list gmap strings.

Local Open Scope Z_scope.

(* ===================================================================== *)
(** * Part I: definitions *)
(* ===================================================================== *)

(** ** JavaScript objects used as dictionaries *)

Section JsObject.
Context {V : Type}.

(** The own enumerable string-keyed properties, in enumeration order. *)
Definition obj := list (string * V).

Definition is_digit (c : ascii) : bool :=
  ((48 <=? nat_of_ascii c) && (nat_of_ascii c <=? 57))%nat.

Fixpoint digits_value (s : string) (acc : N) : option N :=
  match s with
  | EmptyString => Some acc
  | String c s' =>
      if is_digit c
      then digits_value s' (acc * 10 + (N_of_ascii c - 48))%N
      else None
  end.

(** A key is an array index when it is the canonical decimal form of an
    integer in [0, 2^32 - 2]; such keys are enumerated first, in
    ascending numeric order. *)
Definition array_index (k : string) : option N :=
  match k with
  | EmptyString => None
  | String c rest =>
      if Ascii.eqb c "0" && negb (String.eqb rest EmptyString) then None
      else match digits_value k 0 with
           | Some n => if (n <? 2 ^ 32 - 1)%N then Some n else None
           | None => None
           end
  end.

(** [o[k]] *)
Fixpoint obj_get (k : string) (o : obj) : option V :=
  match o with
  | [] => None
  | (k', v) :: o' => if String.eqb k' k then Some v else obj_get k o'
  end.

Definition obj_has (k : string) (o : obj) : bool :=
  match obj_get k o with Some _ => true | None => false end.

(** [delete o[k]] *)
Fixpoint obj_delete (k : string) (o : obj) : obj :=
  match o with
  | [] => []
  | (k', v) :: o' =>
      if String.eqb k' k then obj_delete k o' else (k', v) :: obj_delete k o'
  end.

(** [o[k] = v] for a key that exists: the position is kept. *)
Fixpoint obj_replace (k : string) (v : V) (o : obj) : obj :=
  match o with
  | [] => []
  | (k', v') :: o' =>
      if String.eqb k' k then (k', v) :: o' else (k', v') :: obj_replace k v o'
  end.

(** [o[k] = v] for a new array-index key [k] of value [n]. *)
Fixpoint obj_insert_index (n : N) (k : string) (v : V) (o : obj) : obj :=
  match o with
  | [] => [(k, v)]
  | (k', v') :: o' =>
      match array_index k' with
      | Some m =>
          if (m <? n)%N then (k', v') :: obj_insert_index n k v o'
          else (k, v) :: o
      | None => (k, v) :: o
      end
  end.

(** [o[k] = v] *)
Definition obj_set (k : string) (v : V) (o : obj) : obj :=
  if obj_has k o then obj_replace k v o
  else match array_index k with
       | Some n => obj_insert_index n k v o
       | None => o ++ [(k, v)]
       end.

(** [Object.keys(o)], [Object.values(o)], [Object.entries(o)]: fresh
    arrays, which later deletions from [o] do not change. *)
Definition obj_keys (o : obj) : list string := map fst o.
Definition obj_values (o : obj) : list V := map snd o.
Definition obj_entries (o : obj) : list (string * V) := o.
End JsObject.

Arguments obj : clear implicits.

(** [!s] is false exactly for a non-empty string. *)
Definition truthy (s : string) : bool := negb (String.eqb s EmptyString).

(** The dictionaries of the program are ordinary objects ([{}]), so a
    read [o[k]] of a key that is not an own property finds what
    [Object.prototype] has under [k].  These are its property names; each
    of the inherited values is truthy (a function, or the prototype itself
    for [__proto__]) and has no property [players]. *)
Definition inherited (k : string) : bool :=
  existsb (String.eqb k)
    ["constructor"; "__defineGetter__"; "__defineSetter__"; "hasOwnProperty";
     "__lookupGetter__"; "__lookupSetter__"; "isPrototypeOf";
     "propertyIsEnumerable"; "toString"; "valueOf"; "__proto__";
     "toLocaleString"]%string.

(** ** Numbers of the game *)

(** The value of a coordinate field: a number, or [undefined] when the
    payload that was assigned to it lacked the field.  Values of other
    types, which a client can send against the declared type of the
    payload and which the subtraction of [dist] would convert to numbers,
    are not represented. *)
Inductive coord :=
| CNum (q : Q)
| CUndefined.

Definition point : Type := coord * coord.

(** The result of [Math.hypot]: [NaN], or the non-negative real number
    whose square is [q]. *)
Inductive hypot_result :=
| NaN
| Root (q : Q).

(** [a - b] on coordinates; [undefined] converts to [NaN]. *)
Definition coord_sub (a b : coord) : option Q :=
  match a, b with
  | CNum p, CNum q => Some (p - q)%Q
  | _, _ => None
  end.

Definition hypot (dx dy : option Q) : hypot_result :=
  match dx, dy with
  | Some a, Some b => Root (a * a + b * b)%Q
  | _, _ => NaN
  end.

(** [const dist = (a, b) => Math.hypot(a.x - b.x, a.y - b.y)] *)
Definition dist (a b : point) : hypot_result :=
  hypot (coord_sub (fst a) (fst b)) (coord_sub (snd a) (snd b)).

Definition Qltb (a b : Q) : bool :=
  (Qnum a * QDen b <? Qnum b * QDen a)%Z.

(** [d < r] for a distance [d] and an integer [r]; every comparison with
    [NaN] is false.  A root is below [r] when [r] is positive and the
    radicand is below [r * r]. *)
Definition hypot_lt (d : hypot_result) (r : Z) : bool :=
  match d with
  | NaN => false
  | Root q => (0 <? r) && Qltb q (inject_Z (r * r))
  end.

(** [const playerRadius = (score) => 10 + score] *)
Definition playerRadius (score : Z) : Z := 10 + score.

(** [const foodRadius = (score) => 10 + score] *)
Definition foodRadius (score : Z) : Z := 10 + score.

(** [const randScore = () => Math.floor(Math.random() * 10) + 1], on the
    value [r] returned by [Math.random()]. *)
Definition randScore (r : Q) : Z := Qfloor (r * inject_Z 10) + 1.

(** [const randPos = () => ({ x: Math.random() * 1920, y: Math.random() * 1080 })] *)
Definition randPos (r1 r2 : Q) : Q * Q :=
  ((r1 * inject_Z 1920)%Q, (r2 * inject_Z 1080)%Q).

(** ** Entities *)

Module Player.
Record t := mk {
  name : string;
  x : coord;
  y : coord;
  score : Z;
  walletAddress : string;
  socketId : string
}.

Definition pos (p : t) : point := (x p, y p).

(** [Object.assign(p, { x: nx, y: ny })] *)
Definition assign_xy (nx ny : coord) (p : t) : t :=
  mk (name p) nx ny (score p) (walletAddress p) (socketId p).

(** [p.score += n] *)
Definition add_score (n : Z) (p : t) : t :=
  mk (name p) (x p) (y p) (score p + n) (walletAddress p) (socketId p).
End Player.

Module Food.
Record t := mk {
  id : string;
  x : Q;
  y : Q;
  score : Z
}.

Definition pos (f : t) : point := (CNum (x f), CNum (y f)).
End Food.

(** A location of the heap of player objects. *)
Definition loc := nat.

(** One entry of [games]: [{ players, food }]. *)
Record game := mkGame {
  players : obj loc;
  food : obj Food.t
}.

(** The module-level [games] dictionary and the heap of player objects. *)
Record world := mkWorld {
  games : obj game;
  heap : list Player.t
}.

(** The closure variables of one connection
    ([let gameId: string | null], [let playerId: string | null]) and its
    [socket.id]. *)
Record conn := mkConn {
  conn_gameId : option string;
  conn_playerId : option string;
  conn_socketId : string
}.

(** ** Messages and effects *)

Record join_msg := mkJoin {
  join_gameId : string;
  join_name : string;
  join_walletAddress : option string
}.

Record move_msg := mkMove {
  move_x : coord;
  move_y : coord
}.

(** One element of the [players] array of a [state] message. *)
Record player_view := mkView {
  view_id : string;
  view_name : string;
  view_x : coord;
  view_y : coord;
  view_score : Z;
  view_walletAddress : string
}.

Inductive log_line :=
| LogJoin | LogMove | LogPlayerEat | LogLeave.

(** What a handler does to the outside, in program order. *)
Inductive effect :=
| JoinRoom (gameId : string)
| EmitState (gameId : string) (ps : list player_view) (fs : list Food.t)
| CallHandleUserEat (a b gameId : string)
| CallHandleFoodEat (absoluteVal : Z) (eater : string)
| PostWebhook (player : string) (f : Food.t) (gameId : string)
| ConsoleLog (l : log_line).

(** ** The game handlers *)

(** The [state] message built by [broadcastState] from a game object. *)
Definition view_of (h : list Player.t) (e : string * loc) : option player_view :=
  p ← h !! e.2;
  Some (mkView e.1 (Player.name p) (Player.x p) (Player.y p)
               (Player.score p) (Player.walletAddress p)).

Definition state_msg (gameId : string) (g : game) (h : list Player.t) : effect :=
  EmitState gameId (omap (view_of h) (obj_entries (players g)))
            (obj_values (food g)).

(** [const broadcastState = (gameId) => { const g = games[gameId]; if (!g) return; ... }] *)
Definition broadcastState (gameId : string) (w : world) : list effect :=
  match obj_get gameId (games w) with
  | None => []
  | Some g => [state_msg gameId g (heap w)]
  end.

(** The state a [move] handler works on: the heap, the game object [g]
    (which stays [games[gameId]] for the whole call) and the effects
    issued so far. *)
Record mstate := mkM {
  m_heap : list Player.t;
  m_game : game;
  m_out : list effect
}.

(** The callback of [Object.values(g.food).forEach(food => ...)];
    [player] is the location of the mover's object. *)
Definition food_step (gameId : string) (player : loc)
    (st : mstate) (f : Food.t) : mstate :=
  match m_heap st !! player with
  | None => st
  | Some p =>
      if hypot_lt (dist (Player.pos p) (Food.pos f))
                  (playerRadius (Player.score p) + foodRadius (Food.score f))
      then
        mkM (<[player := Player.add_score (Food.score f) p]> (m_heap st))
            (mkGame (players (m_game st))
                    (obj_delete (Food.id f) (food (m_game st))))
            (m_out st ++
               [CallHandleFoodEat (Food.score f) (Player.walletAddress p);
                PostWebhook (Player.name p) f gameId])
      else st
  end.

(** The callback of
    [Object.entries(g.players).forEach(([otherId, other]) => ...)].
    The [return] of the second branch ends this call of the callback only;
    [forEach] goes on with the next entry. *)
Definition player_step (gameId playerId : string) (player : loc)
    (st : mstate) (e : string * loc) : mstate :=
  let '(otherId, other) := e in
  if String.eqb otherId playerId then st
  else
    match m_heap st !! player, m_heap st !! other with
    | Some p, Some o =>
        let r1 := playerRadius (Player.score p) in
        let r2 := playerRadius (Player.score o) in
        if hypot_lt (dist (Player.pos p) (Player.pos o)) (r1 + r2) then
          if Player.score o <? Player.score p then
            mkM (<[player := Player.add_score (Player.score o) p]> (m_heap st))
                (mkGame (obj_delete otherId (players (m_game st)))
                        (food (m_game st)))
                (m_out st ++
                   [CallHandleUserEat (Player.walletAddress o)
                                      (Player.walletAddress p) gameId;
                    ConsoleLog LogPlayerEat])
          else if Player.score p <? Player.score o then
            let h' := <[other := Player.add_score (Player.score p) o]> (m_heap st) in
            let g' := mkGame (obj_delete playerId (players (m_game st)))
                             (food (m_game st)) in
            mkM h' g'
                (m_out st ++
                   [CallHandleUserEat (Player.walletAddress p)
                                      (Player.walletAddress o) gameId;
                    state_msg gameId g' h';
                    ConsoleLog LogPlayerEat])
          else st
        else st
    | _, _ => st
    end.

Definition food_pass (gameId : string) (player : loc) (st : mstate) : mstate :=
  fold_left (food_step gameId player) (obj_values (food (m_game st))) st.

Definition player_pass (gameId playerId : string) (player : loc)
    (st : mstate) : mstate :=
  fold_left (player_step gameId playerId player)
            (obj_entries (players (m_game st))) st.

(** [socket.on('move', (msg) => { ... })] *)
Definition on_move (c : conn) (msg : move_msg) (w : world)
    : world * list effect :=
  match conn_gameId c, conn_playerId c with
  | Some gameId, Some playerId =>
      if truthy gameId && truthy playerId then
        match obj_get gameId (games w) with
        | None => (w, [])
        | Some g =>
            match obj_get playerId (players g) with
            | None => (w, [])
            | Some player =>
                let h1 := alter (Player.assign_xy (move_x msg) (move_y msg))
                                player (heap w) in
                let st1 := food_pass gameId player (mkM h1 g []) in
                let st2 := player_pass gameId playerId player st1 in
                (mkWorld (obj_set gameId (m_game st2) (games w)) (m_heap st2),
                 m_out st2 ++
                   [state_msg gameId (m_game st2) (m_heap st2);
                    ConsoleLog LogMove])
            end
        end
      else (w, [])
  | _, _ => (w, [])
  end.

(** The draws of one [join]: the results of the successive calls of
    [genId] and of the other calls of [Math.random]. *)
Record oracle := mkOracle {
  genId : nat -> string;
  random : nat -> Q
}.

(** The object [{ id, ...randPos(), score: randScore() }] built by the
    [i]-th callback of [Array.from({ length: 20 }, () => ...)]. *)
Definition new_food (o : oracle) (i : nat) : Food.t :=
  let id := genId o (S i) in
  let xy := randPos (random o (3 * i)) (random o (3 * i + 1)) in
  let sc := randScore (random o (3 * i + 2)) in
  Food.mk id (fst xy) (snd xy) sc.

(** The callback itself: [const id = genId(); g.food[id] = { id, ... }] *)
Definition spawn_food (o : oracle) (fd : obj Food.t) (i : nat) : obj Food.t :=
  let f := new_food o i in
  obj_set (Food.id f) f fd.

Definition empty_game : game := mkGame [] [].

(** [games[gameId]] is not an own property and reads an inherited value
    instead of a game object or [undefined]. *)
Definition reads_inherited (gameId : string) (w : world) : bool :=
  inherited gameId && negb (obj_has gameId (games w)).

(** [socket.on('join', (msg) => { ... })].  When [games[gameId]] reads an
    inherited value, [games[gameId] || {...}] is that value, [g.players]
    is [undefined] and [g.players[playerId] = ...] (l.60) throws a
    [TypeError]: the handler ends there, after the assignments to the
    closure variables, with nothing stored and nothing sent
    ([on_join_throws]). *)
Definition on_join (o : oracle) (c : conn) (msg : join_msg) (w : world)
    : conn * world * list effect :=
  match join_walletAddress msg with
  | None => (c, w, [])
  | Some wallet =>
      if truthy wallet then
        let gameId := join_gameId msg in
        let playerId := genId o 0 in
        if reads_inherited gameId w then
          (mkConn (Some gameId) (Some playerId) (conn_socketId c), w, [])
        else
        let g := default empty_game (obj_get gameId (games w)) in
        let l := length (heap w) in
        let h' := heap w ++
                    [Player.mk (join_name msg) (CNum (inject_Z 500))
                               (CNum (inject_Z 500)) 0 wallet (conn_socketId c)] in
        let ps := obj_set playerId l (players g) in
        let fd := if (length (obj_keys (food g)) =? 0)%nat
                  then fold_left (spawn_food o) (seq 0 20) (food g)
                  else food g in
        let w' := mkWorld (obj_set gameId (mkGame ps fd) (games w)) h' in
        (mkConn (Some gameId) (Some playerId) (conn_socketId c),
         w',
         JoinRoom gameId :: broadcastState gameId w' ++ [ConsoleLog LogJoin])
      else (c, w, [])
  end.


(** The [move] and the [disconnect] handler end by an uncaught
    [TypeError]: the guard on the closure variables is passed and
    [games[gameId]] reads an inherited value [g], so that
    [g?.players[playerId]] (l.73), respectively [g.players[playerId]]
    (l.122), indexes [undefined].  Nothing has been changed or sent at
    that point, which is what [on_move] and [on_disconnect] return. *)
Definition handler_throws (c : conn) (w : world) : bool :=
  match conn_gameId c, conn_playerId c with
  | Some gameId, Some playerId =>
      truthy gameId && truthy playerId && reads_inherited gameId w
  | _, _ => false
  end.

(** [socket.on('disconnect', () => { ... })] *)
Definition on_disconnect (c : conn) (w : world) : world * list effect :=
  match conn_gameId c, conn_playerId c with
  | Some gameId, Some playerId =>
      if truthy gameId && truthy playerId then
        match obj_get gameId (games w) with
        | None => (w, [])
        | Some g =>
            if obj_has playerId (players g) then
              let g' := mkGame (obj_delete playerId (players g)) (food g) in
              let w1 := mkWorld (obj_set gameId g' (games w)) (heap w) in
              let w2 := if (length (obj_keys (players g')) =? 0)%nat
                        then mkWorld (obj_delete gameId (games w1)) (heap w1)
                        else w1 in
              (w2, ConsoleLog LogLeave :: broadcastState gameId w1)
            else (w, [])
        end
      else (w, [])
  | _, _ => (w, [])
  end.

(** ** The settlement functions of [lib.ts] *)

Module Ledger.

(** [s.toLowerCase()], on the ASCII letters (addresses are hexadecimal). *)
Definition lower_ascii (c : ascii) : ascii :=
  let n := nat_of_ascii c in
  if ((65 <=? n) && (n <=? 90))%nat then ascii_of_nat (n + 32) else c.

Fixpoint toLowerCase (s : string) : string :=
  match s with
  | EmptyString => EmptyString
  | String c s' => String (lower_ascii c) (toLowerCase s')
  end.

(** A value that is a Number or a BigInt at run time. *)
Inductive numeric :=
| Number (f : PrimFloat.float)
| BigInt (z : Z).

(** Modelled from the spec: the TokenPool contract is not part of the
    sources; the ledger is a persistent share-accounting service keyed by
    wallet address.  Its state is the share of every address (zero for an
    unknown one), the list of depositors and the total of the deposits.
    Addresses that differ in letter case only are the same account, so
    the shares are keyed by the lower-case form.  The total is typed
    [number] by [handleFoodEat]; whether the client library decodes it to
    a Number or to a BigInt depends on the contract interface, so both
    are kept. *)
Record pool := mkPool {
  totalDeposits : numeric;
  getAllDepositors : list string;
  shares : gmap string Z
}.

(** [getUserInfo(a)], second component. *)
Definition getUserInfo (a : string) (p : pool) : Z :=
  default 0 (shares p !! toLowerCase a).

(** [updateUserShare(a, v)] *)
Definition updateUserShare (a : string) (v : Z) (p : pool) : pool :=
  mkPool (totalDeposits p) (getAllDepositors p)
         (<[toLowerCase a := v]> (shares p)).

(** [updateSharesBatch(users, newShares)] *)
Definition updateSharesBatch (users : list string) (newShares : list Z)
    (p : pool) : pool :=
  fold_left (fun q us => updateUserShare us.1 us.2 q) (zip users newShares) p.

Inductive js_error :=
| TypeError
| RangeError
| NoShares.

(** How a settlement call ends: the ledger was written, an exception was
    caught and logged, or the call logged an error and returned. *)
Inductive outcome :=
| Written
| Caught (e : js_error)
| NotEnoughShare.

(** The Number denoted by the decimal string [z.toString()]. *)
Definition Z2float (z : Z) : PrimFloat.float :=
  FloatOps.SF2Prim (SpecFloat.binary_normalize 53 1024 z 0 false).

(** [BigInt(f)]: the integer [f] when [f] is integral; a [RangeError]
    otherwise (fractions, infinities and [NaN]). *)
Definition number_to_bigint (f : PrimFloat.float) : option Z :=
  match FloatOps.Prim2SF f with
  | SpecFloat.S754_zero _ => Some 0
  | SpecFloat.S754_finite s m e =>
      let v := if s then Z.neg m else Z.pos m in
      if 0 <=? e then Some (v * 2 ^ e)
      else if v mod 2 ^ (- e) =? 0 then Some (v / 2 ^ (- e))
      else None
  | _ => None
  end.

(** [(absoluteVal / foodAbs) * 100]; dividing a string by a BigInt throws
    a [TypeError]. *)
Definition food_percent (absoluteVal : Z) (foodAbs : numeric)
    : option PrimFloat.float :=
  match foodAbs with
  | Number t =>
      Some (PrimFloat.mul (PrimFloat.div (Z2float absoluteVal) t) (Z2float 100))
  | BigInt _ => None
  end.

(** [handleUserEat(a, b, gameId)] *)
Definition handleUserEat (a b gameId : string) (p : pool) : pool * outcome :=
  let share := getUserInfo a p in
  if share =? 0 then (p, Caught NoShares)
  else
    let p1 := updateUserShare a 0 p in
    let p2 := updateUserShare b share p1 in
    (p2, Written).

(** The [shares] array of [handleFoodEat] after the eater was pushed. *)
Definition share_table (eaterLower : string) (p : pool) : list (string * Z) :=
  let shares := map (fun addr => (toLowerCase addr, getUserInfo addr p))
                    (getAllDepositors p) in
  if existsb (fun s => String.eqb s.1 eaterLower) shares then shares
  else shares ++ [(eaterLower, 0)].

Definition others_total (eaterLower : string) (tbl : list (string * Z)) : Z :=
  fold_left (fun sum s => sum + s.2)
            (filter (fun s => negb (String.eqb s.1 eaterLower)) tbl) 0.

(** The callback of [shares.map(s => ...)]; BigInt division truncates
    and throws a [RangeError] on a zero divisor. *)
Definition updated_share (eaterLower : string) (x othersTotal : Z)
    (s : string * Z) : option (string * Z) :=
  if String.eqb s.1 eaterLower then Some (s.1, s.2 + x)
  else if othersTotal =? 0 then None
  else Some (s.1, Z.quot (s.2 * (othersTotal - x)) othersTotal).

(** [handleFoodEat(absoluteVal, eater)] *)
Definition handleFoodEat (absoluteVal : Z) (eater : string) (p : pool)
    : pool * outcome :=
  match food_percent absoluteVal (totalDeposits p) with
  | None => (p, Caught TypeError)
  | Some food =>
      let eaterLower := toLowerCase eater in
      let tbl := share_table eaterLower p in
      match number_to_bigint food with
      | None => (p, Caught RangeError)
      | Some x =>
          let othersTotal := others_total eaterLower tbl in
          if othersTotal <? x then (p, NotEnoughShare)
          else
            match mapM (updated_share eaterLower x othersTotal) tbl with
            | None => (p, Caught RangeError)
            | Some updatedShares =>
                (updateSharesBatch (map fst updatedShares)
                                   (map snd updatedShares) p,
                 Written)
            end
      end
  end.

End Ledger.

(** ** Vocabulary of the statements *)

(** The Euclidean distance between two points with rational coordinates,
    as a real number. *)
Definition euclid (ax ay bx by_ : Q) : R :=
  sqrt (Q2R ((ax - bx) * (ax - bx) + (ay - by_) * (ay - by_))%Q).

(** The player object a connection moves: [games[gameId].players[playerId]]
    when both closure variables are set and the lookups succeed. *)
Definition find_mover (c : conn) (w : world) : option (string * string * game * loc) :=
  match conn_gameId c, conn_playerId c with
  | Some gameId, Some playerId =>
      if truthy gameId && truthy playerId then
        g ← obj_get gameId (games w);
        l ← obj_get playerId (players g);
        Some (gameId, playerId, g, l)
      else None
  | _, _ => None
  end.

(** No two entries of the [players] dictionaries share a player object,
    and every entry refers to an allocated object. *)
Definition wf_world (w : world) : Prop :=
  (forall gid g k l,
      obj_get gid (games w) = Some g -> obj_get k (players g) = Some l ->
      (l < length (heap w))%nat) /\
  (forall gid1 g1 k1 gid2 g2 k2 l,
      obj_get gid1 (games w) = Some g1 -> obj_get k1 (players g1) = Some l ->
      obj_get gid2 (games w) = Some g2 -> obj_get k2 (players g2) = Some l ->
      gid1 = gid2 /\ k1 = k2).

(** The sum of the scores of the live players and of the live food of a
    game. *)
Definition score_at (h : list Player.t) (l : loc) : Z :=
  match h !! l with Some p => Player.score p | None => 0 end.

Definition total_of {V : Type} (weight : V -> Z) (l : list V) : Z :=
  fold_right Z.add 0 (map weight l).

Definition live_total (g : game) (h : list Player.t) : Z :=
  total_of (score_at h) (obj_values (players g))
  + total_of Food.score (obj_values (food g)).

(** The dictionaries of a game as a JavaScript object has them: no key
    twice, no player object under two keys. *)
Definition game_ok (g : game) : Prop :=
  NoDup (obj_keys (players g)) /\
  NoDup (obj_values (players g)) /\
  NoDup (obj_keys (food g)).

Definition is_user_eat (e : effect) : bool :=
  match e with CallHandleUserEat _ _ _ => true | _ => false end.

(** What a [move] may do to the heap: an object keeps its name, wallet
    address and socket id, and every object except the mover's keeps its
    coordinates. *)
Definition heap_frame (player : loc) (h h' : list Player.t) : Prop :=
  length h' = length h /\
  forall l p', h' !! l = Some p' ->
    exists p, h !! l = Some p /\
      Player.name p' = Player.name p /\
      Player.walletAddress p' = Player.walletAddress p /\
      Player.socketId p' = Player.socketId p /\
      (l <> player -> Player.x p' = Player.x p /\ Player.y p' = Player.y p).

(** What a [move] may do to the game object: entries are only deleted. *)
Definition game_shrinks (g g' : game) : Prop :=
  (forall k l, obj_get k (players g') = Some l -> obj_get k (players g) = Some l) /\
  (forall k f, obj_get k (food g') = Some f -> obj_get k (food g) = Some f).

Definition move_frame (player : loc) (st st' : mstate) : Prop :=
  heap_frame player (m_heap st) (m_heap st') /\
  game_shrinks (m_game st) (m_game st').

(** The worlds the server can be in: no session at start, then any
    sequence of [join], [move] and [disconnect] events on any connections,
    where [Math.random] returns values in [0, 1). *)
Inductive reachable : world -> Prop :=
| reach_start : reachable (mkWorld [] [])
| reach_join (o : oracle) (c : conn) (msg : join_msg) (w : world) :
    (forall n, (0 <= random o n)%Q /\ (random o n < 1)%Q) ->
    reachable w -> reachable (on_join o c msg w).1.2
| reach_move (c : conn) (msg : move_msg) (w : world) :
    reachable w -> reachable (on_move c msg w).1
| reach_disconnect (c : conn) (w : world) :
    reachable w -> reachable (on_disconnect c w).1.

(** Every player object has a non-negative score and every food object a
    score between 1 and 10. *)
Definition scores_ok (h : list Player.t) (gs : obj game) : Prop :=
  Forall (fun p => 0 <= Player.score p) h /\
  forall gid g k f, In (gid, g) gs -> In (k, f) (food g) ->
                    1 <= Food.score f <= 10.

(** The same for the state of a running [move]. *)
Definition mstate_scores_ok (st : mstate) : Prop :=
  Forall (fun p => 0 <= Player.score p) (m_heap st) /\
  forall k f, In (k, f) (food (m_game st)) -> 1 <= Food.score f <= 10.

(** Every entry of a [players] dictionary of [w'] is an entry of the same
    dictionary of [w]. *)
Definition players_sub (w w' : world) : Prop :=
  forall gid g' k l,
    obj_get gid (games w') = Some g' -> obj_get k (players g') = Some l ->
    exists g, obj_get gid (games w) = Some g /\ obj_get k (players g) = Some l.

(** A decidable sufficient condition for [wf_world]: all entries of all
    [players] dictionaries, with the session they belong to. *)
Definition all_players (w : world) : list (string * string * loc) :=
  flat_map (fun e => map (fun kl => (e.1, kl.1, kl.2)) (players e.2)) (games w).

Definition wf_worldb (w : world) : bool :=
  forallb (fun t => (t.2 <? length (heap w))%nat) (all_players w)
  && bool_decide (NoDup (map snd (all_players w))).

(** ** A concrete session

    Session [g1] after the following events.  Pat joins; the 20 food
    objects are spawned on the line [y = 0], 96 apart, the second and the
    third with score 5 and the others with score 1.  Ann and Bob join.  Ann
    moves onto the second food and Bob onto the third, Pat onto the first.
    Ann and Bob move back to the spawn point (500, 500), where they overlap
    with equal scores.  Cat joins.  So two tied players of score 5 and a
    player of score 0 are at the spawn point, and Pat, of score 1, is
    elsewhere. *)
Definition spawn_xy : coord := CNum (inject_Z 500).

Definition first_oracle : oracle :=
  mkOracle
    (fun n => match n with
              | O => "p"%string
              | S i => String "f" (String (ascii_of_nat (97 + i)) EmptyString)
              end)
    (fun n => match (n mod 3)%nat with
              | 0%nat => (Z.of_nat ((n / 3) mod 20) # 20)%Q
              | 1%nat => 0%Q
              | _ => if ((n / 3 =? 1) || (n / 3 =? 2))%nat then (2 # 5)%Q else 0%Q
              end).

Definition later_oracle (playerId : string) : oracle :=
  mkOracle (fun _ => playerId) (fun _ => 0%Q).

Definition arena : world :=
  mkWorld
    [("g1"%string,
      mkGame [("p"%string, 0%nat); ("a"%string, 1%nat);
              ("b"%string, 2%nat); ("c"%string, 3%nat)]
             (map (fun i => (genId first_oracle (S i), new_food first_oracle i))
                  (seq 3 17)))]
    [Player.mk "pat" (CNum (inject_Z 0)) (CNum (inject_Z 0)) 1 "0xP" "s0";
     Player.mk "ann" spawn_xy spawn_xy 5 "0xA" "s1";
     Player.mk "bob" spawn_xy spawn_xy 5 "0xB" "s2";
     Player.mk "cat" spawn_xy spawn_xy 0 "0xC" "s3"].

(** The connection of Pat and the move onto the spawn point. *)
Definition arena_conn : conn := mkConn (Some "g1"%string) (Some "p"%string) "s0".

Definition to_spawn : move_msg := mkMove spawn_xy spawn_xy.

(** The events that lead to [arena], as world transformers. *)
Definition arena_events : list (world -> world) :=
  [ (fun w => (on_join first_oracle (mkConn None None "s0")
                       (mkJoin "g1" "pat" (Some "0xP"%string)) w).1.2);
    (fun w => (on_join (later_oracle "a") (mkConn None None "s1")
                       (mkJoin "g1" "ann" (Some "0xA"%string)) w).1.2);
    (fun w => (on_join (later_oracle "b") (mkConn None None "s2")
                       (mkJoin "g1" "bob" (Some "0xB"%string)) w).1.2);
    (fun w => (on_move (mkConn (Some "g1"%string) (Some "a"%string) "s1")
                       (mkMove (CNum (inject_Z 96)) (CNum (inject_Z 0))) w).1);
    (fun w => (on_move (mkConn (Some "g1"%string) (Some "b"%string) "s2")
                       (mkMove (CNum (inject_Z 192)) (CNum (inject_Z 0))) w).1);
    (fun w => (on_move arena_conn
                       (mkMove (CNum (inject_Z 0)) (CNum (inject_Z 0))) w).1);
    (fun w => (on_move (mkConn (Some "g1"%string) (Some "a"%string) "s1")
                       to_spawn w).1);
    (fun w => (on_move (mkConn (Some "g1"%string) (Some "b"%string) "s2")
                       to_spawn w).1);
    (fun w => (on_join (later_oracle "c") (mkConn None None "s3")
                       (mkJoin "g1" "cat" (Some "0xC"%string)) w).1.2) ].

(** The game object of session [g1], or an empty one. *)
Definition session_g1 (w : world) : game :=
  default empty_game (obj_get "g1" (games w)).

(** The state of the player pass of [arena] when the mover (entry [p],
    object 0) has been moved onto the spawn point. *)
Definition arena_moved : mstate :=
  mkM (alter (Player.assign_xy spawn_xy spawn_xy) 0%nat (heap arena))
      (session_g1 arena) [].

(** ** A concrete ledger

    Two depositors; the total of the deposits is the Number 8. *)
Definition pool0 : Ledger.pool :=
  Ledger.mkPool (Ledger.Number (Ledger.Z2float 8))
                ["0xA"; "0xB"]%string
                (<["0xa"%string := 10]> (<["0xb"%string := 100]> ∅)).

(** The share [handleFoodEat] takes as the eater's current one: the share
    on the ledger when the eater is among the depositors, 0 otherwise. *)
Definition eater_share (eater : string) (p : Ledger.pool) : Z :=
  if existsb (fun a => String.eqb (Ledger.toLowerCase a) (Ledger.toLowerCase eater))
             (Ledger.getAllDepositors p)
  then Ledger.getUserInfo eater p else 0.

(** ** Start-up of [lib.ts] and further vocabulary *)

(** The module-level constant [PRIVATE_KEY] of [lib.ts], as a function of
    the environment variable of that name; [None] when the module throws
    [PRIVATE_KEY environment variable is required]:
    [if (!process.env.PRIVATE_KEY) throw ...;
     PRIVATE_KEY = key.startsWith("0x") ? key : `0x${key}`] *)
Definition PRIVATE_KEY (env : option string) : option string :=
  match env with
  | None => None
  | Some key =>
      if truthy key
      then Some (if String.prefix "0x" key then key else ("0x" ++ key)%string)
      else None
  end.

Definition is_food_eat (e : effect) : bool :=
  match e with CallHandleFoodEat _ _ => true | _ => false end.

(** The number of calls of [handleFoodEat] among some effects. *)
Definition count_food_eat (out : list effect) : nat :=
  length (List.filter is_food_eat out).

(** An effect of a [move] concerns the player [p] of session [gameId]:
    a settlement call has the wallet address of [p] as eater, loser or
    winner, a webhook names [p], a broadcast goes to the session. *)
Definition concerns (gameId : string) (p : Player.t) (e : effect) : Prop :=
  match e with
  | CallHandleUserEat a b gid =>
      gid = gameId /\
      (a = Player.walletAddress p \/ b = Player.walletAddress p)
  | CallHandleFoodEat _ eater => eater = Player.walletAddress p
  | PostWebhook n _ gid => gid = gameId /\ n = Player.name p
  | EmitState gid _ _ => gid = gameId
  | JoinRoom _ => False
  | ConsoleLog _ => True
  end.

(** A session as the handlers keep it: no player id twice, at least one
    player. *)
Definition session_ok (g : game) : Prop :=
  NoDup (obj_keys (players g)) /\ players g <> [].

(** The food dictionary as the handlers keep it: no id twice, every food
    object under its own id, at most 20 objects, all inside the rectangle
    of [randPos]. *)
Definition food_ok (g : game) : Prop :=
  NoDup (obj_keys (food g)) /\
  (length (food g) <= 20)%nat /\
  forall k f, In (k, f) (food g) ->
    k = Food.id f /\
    (0 <= Food.x f)%Q /\ (Food.x f < inject_Z 1920)%Q /\
    (0 <= Food.y f)%Q /\ (Food.y f < inject_Z 1080)%Q.

(** The parts of the [shares] array of [handleFoodEat]: the sum of the
    eater's entries, their number, and the sum of the other entries. *)
Definition eater_sum (eaterLower : string) (tbl : list (string * Z)) : Z :=
  total_of (fun s => if String.eqb s.1 eaterLower then s.2 else 0) tbl.

Definition eater_count (eaterLower : string) (tbl : list (string * Z)) : Z :=
  total_of (fun s => if String.eqb s.1 eaterLower then 1 else 0) tbl.

Definition others_sum (eaterLower : string) (tbl : list (string * Z)) : Z :=
  total_of (fun s => if String.eqb s.1 eaterLower then 0 else s.2) tbl.

(** ** The collision test on binary64 numbers

    The numbers of the program are IEEE binary64 values, and the handlers
    above read the comparison [dist(a, b) < r1 + r2] exactly.  This module
    has the same comparison (l.24-28, l.78, l.96-98) as the engine
    evaluates it.  The language leaves the precision of [Math.hypot] to
    the implementation; it is given as V8, the engine of Node.js, computes
    it: the magnitudes are scaled by the largest one and added up with a
    compensated summation. *)

Module Binary64.

(** The Number with the integer value [z]. *)
Definition num (z : Z) : PrimFloat.float := Ledger.Z2float z.

(** The entry of [absValues] for an argument: left at zero for [NaN]. *)
Definition magnitude (v : PrimFloat.float) : PrimFloat.float :=
  if PrimFloat.is_nan v then num 0 else PrimFloat.abs v.

(** [if (absValue > max) max = absValue] *)
Definition larger (max v : PrimFloat.float) : PrimFloat.float :=
  if PrimFloat.ltb max v then v else max.

(** One round of the summation, on the pair of [sum] and [compensation]. *)
Definition kahan (max : PrimFloat.float)
    (acc : PrimFloat.float * PrimFloat.float) (v : PrimFloat.float)
    : PrimFloat.float * PrimFloat.float :=
  let n := PrimFloat.div v max in
  let summand := PrimFloat.sub (PrimFloat.mul n n) acc.2 in
  let preliminary := PrimFloat.add acc.1 summand in
  (preliminary, PrimFloat.sub (PrimFloat.sub preliminary acc.1) summand).

(** [Math.hypot(x, y)] *)
Definition Math_hypot (x y : PrimFloat.float) : PrimFloat.float :=
  let vs := [magnitude x; magnitude y] in
  let max := fold_left larger vs (num 0) in
  if PrimFloat.eqb max PrimFloat.infinity then PrimFloat.infinity
  else if PrimFloat.is_nan x || PrimFloat.is_nan y then PrimFloat.nan
  else if PrimFloat.eqb max (num 0) then num 0
  else PrimFloat.mul
         (PrimFloat.sqrt (fold_left (kahan max) vs (num 0, num 0)).1) max.

(** [const dist = (a, b) => Math.hypot(a.x - b.x, a.y - b.y)] *)
Definition dist (ax ay bx by_ : PrimFloat.float) : PrimFloat.float :=
  Math_hypot (PrimFloat.sub ax bx) (PrimFloat.sub ay by_).

(** [const playerRadius = (score) => 10 + score] *)
Definition playerRadius (score : PrimFloat.float) : PrimFloat.float :=
  PrimFloat.add (num 10) score.

(** [const foodRadius = (score) => 10 + score] *)
Definition foodRadius (score : PrimFloat.float) : PrimFloat.float :=
  PrimFloat.add (num 10) score.



End Binary64.

(** ** Consumption events among the effects of a [move]

    A consumption shows in the effects: the webhook of a food callback
    carries the food object that was eaten, and a [handleUserEat] call
    names the wallet addresses of the loser and of the winner. *)





(** ** The raw-WebSocket variant of the server

    The second server of the sources keeps a [games] dictionary of the
    same shape, but binds a connection to its session when the socket
    opens: the [connection] handler reads, or creates, the game object
    once, and its closures keep that reference [g] for the life of the
    connection.  Game objects therefore live in a store, and [games]
    holds references to them.  Embedded are the [connection] handler, the
    [join] branch of the message handler, the [close] handler and
    [broadcastState].  Player objects are mutated by the [move] branch
    only, which is not embedded; they are stored by value. *)

Module Ws.

(** [const randPos = () => ({ x: Math.random() * 1000, y: Math.random() * 1000 })] *)
Definition randPos (r1 r2 : Q) : Q * Q :=
  ((r1 * inject_Z 1000)%Q, (r2 * inject_Z 1000)%Q).

(** A player object [{ name, x, y, ws, score }]; [ws] names the socket. *)
Record player := mkPlayer {
  name : string;
  x : coord;
  y : coord;
  ws : string;
  score : Z
}.

Record game := mkGame {
  players : obj player;
  food : obj Food.t
}.

(** The module-level [games] dictionary and the store of game objects. *)
Record world := mkWorld {
  games : obj loc;
  store : list game
}.

(** What the closures of one connection hold: the socket [ws], and the
    constants [gameId], [g] and [playerId] of the [connection] handler. *)
Record conn := mkConn {
  conn_ws : string;
  conn_gameId : string;
  conn_g : loc;
  conn_playerId : string
}.

(** One element of the [players] array of a [state] message. *)
Record player_view := mkView {
  view_id : string;
  view_name : string;
  view_x : coord;
  view_y : coord;
  view_score : Z
}.

Inductive effect :=
| Send (to : string) (ps : list player_view) (fs : list Food.t)
| ConsoleLog (l : log_line).

Definition view_of (e : string * player) : player_view :=
  mkView e.1 (name e.2) (x e.2) (y e.2) (score e.2).

(** [broadcastState]: the message goes to every player of the session
    whose socket is open; [ready s] is [ws.readyState === 1] for the
    socket [s]. *)
Definition broadcastState (ready : string -> bool) (gameId : string)
    (w : world) : list effect :=
  match obj_get gameId (games w) with
  | None => []
  | Some l =>
      match store w !! l with
      | None => []
      | Some g =>
          let ps := map view_of (obj_entries (players g)) in
          let fs := obj_values (food g) in
          map (fun p => Send (ws p) ps fs)
              (List.filter (fun p => ready (ws p)) (obj_values (players g)))
      end
  end.

Definition empty_game : game := mkGame [] [].

(** [wss.on('connection', (ws, req) => { ... })] up to the registration
    of the two handlers: [games[gameId] = games[gameId] || {...}],
    [const g = games[gameId]], [let playerId = genId()].  The result is
    the connection with its game object.  When [gameId] is not an own
    property of [games] and names an inherited one, [g] is the inherited
    value, not a game object: no game object is created, the [join]
    branch and the [close] handler of that connection throw a [TypeError]
    at [g.players[playerId]], and there is no connection to speak of
    ([None]). *)
Definition on_connection (o : oracle) (sock gameId : string) (w : world)
    : option conn * world :=
  match obj_get gameId (games w) with
  | Some l =>
      (Some (mkConn sock gameId l (genId o 0)),
       mkWorld (obj_set gameId l (games w)) (store w))
  | None =>
      if inherited gameId then (None, w)
      else
        let l := length (store w) in
        (Some (mkConn sock gameId l (genId o 0)),
         mkWorld (obj_set gameId l (games w)) (store w ++ [empty_game]))
  end.

(** The object built by the [i]-th callback of the food batch. *)
Definition new_food (o : oracle) (i : nat) : Food.t :=
  let id := genId o i in
  let xy := randPos (random o (3 * i)) (random o (3 * i + 1)) in
  let sc := randScore (random o (3 * i + 2)) in
  Food.mk id (fst xy) (snd xy) sc.

Definition spawn_food (o : oracle) (fd : obj Food.t) (i : nat) : obj Food.t :=
  let f := new_food o i in
  obj_set (Food.id f) f fd.

(** The branch [if (msg.type === 'join') { ... }] of the message handler,
    for a message with name [msg_name]. *)
Definition on_join (ready : string -> bool) (o : oracle) (c : conn)
    (msg_name : string) (w : world) : world * list effect :=
  match store w !! conn_g c with
  | None => (w, [])
  | Some g =>
      let ps := obj_set (conn_playerId c)
                        (mkPlayer msg_name (CNum (inject_Z 500))
                                  (CNum (inject_Z 500)) (conn_ws c) 0)
                        (players g) in
      let fd := if (length (obj_keys (food g)) =? 0)%nat
                then fold_left (spawn_food o) (seq 0 20) (food g)
                else food g in
      let w' := mkWorld (games w) (<[conn_g c := mkGame ps fd]> (store w)) in
      (w', ConsoleLog LogJoin :: broadcastState ready (conn_gameId c) w')
  end.

(** [ws.on('close', () => { ... })] *)
Definition on_close (ready : string -> bool) (c : conn) (w : world)
    : world * list effect :=
  match store w !! conn_g c with
  | None => (w, [])
  | Some g =>
      let g' := mkGame (obj_delete (conn_playerId c) (players g)) (food g) in
      let w1 := mkWorld (games w) (<[conn_g c := g']> (store w)) in
      let w2 := if (length (obj_keys (players g')) =? 0)%nat
                then mkWorld (obj_delete (conn_gameId c) (games w1)) (store w1)
                else w1 in
      (w2, ConsoleLog LogLeave :: broadcastState ready (conn_gameId c) w1)
  end.

End Ws.

(** A lobby of the raw-WebSocket server: two sockets are opened on the
    path of session [g1], and the second one is closed again before
    anybody has joined. *)
Definition all_open (s : string) : bool := true.

Definition lobby_first : Ws.conn * Ws.world :=
  let r := Ws.on_connection (later_oracle "a") "sA" "g1" (Ws.mkWorld [] []) in
  (default (Ws.mkConn "sA" "g1" 0%nat "a") r.1, r.2).

Definition lobby_second : Ws.conn * Ws.world :=
  let r := Ws.on_connection (later_oracle "b") "sB" "g1" lobby_first.2 in
  (default (Ws.mkConn "sB" "g1" 0%nat "b") r.1, r.2).

Definition lobby : Ws.world :=
  (Ws.on_close all_open lobby_second.1 lobby_second.2).1.

(** The same two connections when the first one has joined instead. *)
Definition lobby_joined : Ws.world :=
  (Ws.on_join all_open (later_oracle "f") lobby_first.1 "ann" lobby_second.2).1.

Definition lobby_game : Ws.game :=
  default Ws.empty_game (Ws.store lobby_joined !! 0%nat).

(* ===================================================================== *)
(** * Part II: properties *)
(* ===================================================================== *)

(** ** Dictionaries *)

Section ObjFacts.
Context {V : Type}.
Implicit Type o : obj V.
Implicit Type k : string.
Implicit Type v : V.

Lemma obj_get_delete k k' o :
  obj_get k (obj_delete k' o) = if String.eqb k' k then None else obj_get k o.
Proof.
  induction o as [|[k0 v0] o IH]; simpl.
  - by destruct (String.eqb k' k).
  - destruct (String.eqb_spec k0 k') as [->|Hne]; simpl.
    + rewrite IH. by destruct (String.eqb k' k).
    + rewrite IH. destruct (String.eqb_spec k0 k) as [->|Hne'];
        [|done]. destruct (String.eqb_spec k' k); congruence.
Qed.

Lemma obj_get_delete_Some k k' o v :
  obj_get k (obj_delete k' o) = Some v -> k' <> k /\ obj_get k o = Some v.
Proof.
  rewrite obj_get_delete. destruct (String.eqb_spec k' k); [done|]. auto.
Qed.

Lemma obj_get_replace k k' v o :
  obj_get k (obj_replace k' v o) =
    if String.eqb k' k && obj_has k' o then Some v else obj_get k o.
Proof.
  unfold obj_has. induction o as [|[k0 v0] o IH]; simpl.
  - by rewrite andb_false_r.
  - destruct (String.eqb_spec k0 k') as [->|Hne]; simpl.
    + rewrite andb_true_r. by destruct (String.eqb k' k).
    + rewrite IH. destruct (String.eqb_spec k0 k) as [->|Hne'];
        [|done]. destruct (String.eqb_spec k' k); simpl; congruence.
Qed.

Lemma obj_get_insert_index_ne n k k' v o :
  k' <> k -> obj_get k (obj_insert_index n k' v o) = obj_get k o.
Proof.
  intros Hne. induction o as [|[k0 v0] o IH]; simpl.
  - by destruct (String.eqb_spec k' k).
  - destruct (array_index k0) as [m|]; simpl.
    + destruct (m <? n)%N; simpl.
      * by rewrite IH.
      * by destruct (String.eqb_spec k' k).
    + by destruct (String.eqb_spec k' k).
Qed.

Lemma obj_get_insert_index_eq n k v o :
  obj_get k o = None -> obj_get k (obj_insert_index n k v o) = Some v.
Proof.
  induction o as [|[k0 v0] o IH]; simpl; intros Hk.
  - by rewrite String.eqb_refl.
  - destruct (String.eqb_spec k0 k) as [->|Hne]; [done|].
    destruct (array_index k0) as [m|]; simpl.
    + destruct (m <? n)%N; simpl.
      * destruct (String.eqb_spec k0 k); [done|]. by apply IH.
      * by rewrite String.eqb_refl.
    + by rewrite String.eqb_refl.
Qed.

Lemma obj_get_app k o1 o2 :
  obj_get k (o1 ++ o2) =
    match obj_get k o1 with Some v => Some v | None => obj_get k o2 end.
Proof.
  induction o1 as [|[k0 v0] o1 IH]; simpl; [done|].
  by destruct (String.eqb k0 k).
Qed.

Lemma obj_get_set_eq k v o : obj_get k (obj_set k v o) = Some v.
Proof.
  unfold obj_set, obj_has. destruct (obj_get k o) as [v0|] eqn:Hk.
  - rewrite obj_get_replace. unfold obj_has. rewrite Hk.
    by rewrite String.eqb_refl.
  - destruct (array_index k) as [n|].
    + by apply obj_get_insert_index_eq.
    + rewrite obj_get_app, Hk. simpl. by rewrite String.eqb_refl.
Qed.

Lemma obj_get_set_ne k k' v o :
  k' <> k -> obj_get k (obj_set k' v o) = obj_get k o.
Proof.
  intros Hne. unfold obj_set. destruct (obj_has k' o) eqn:Hh.
  - rewrite obj_get_replace. by destruct (String.eqb_spec k' k).
  - destruct (array_index k') as [n|].
    + by apply obj_get_insert_index_ne.
    + rewrite obj_get_app. simpl.
      destruct (String.eqb_spec k' k); [done|]. by destruct (obj_get k o).
Qed.

Lemma obj_replace_same k v o :
  obj_get k o = Some v -> obj_replace k v o = o.
Proof.
  induction o as [|[k0 v0] o IH]; simpl; [done|].
  destruct (String.eqb_spec k0 k) as [->|Hne].
  - by intros [= ->].
  - intros Hk. by rewrite IH.
Qed.

Lemma obj_set_same k v o : obj_get k o = Some v -> obj_set k v o = o.
Proof.
  intros Hk. unfold obj_set, obj_has. rewrite Hk. by apply obj_replace_same.
Qed.

Lemma obj_insert_index_perm n k v o : obj_insert_index n k v o ≡ₚ (k, v) :: o.
Proof.
  induction o as [|[k0 v0] o IH]; simpl; [done|].
  destruct (array_index k0) as [m|]; [|done].
  destruct (m <? n)%N; [|done].
  rewrite IH. apply Permutation_swap.
Qed.

Lemma obj_set_fresh_perm k v o :
  obj_get k o = None -> obj_set k v o ≡ₚ (k, v) :: o.
Proof.
  intros Hk. unfold obj_set, obj_has. rewrite Hk.
  destruct (array_index k) as [n|].
  - apply obj_insert_index_perm.
  - by rewrite Permutation_app_comm.
Qed.

Lemma obj_get_None_keys k o : obj_get k o = None <-> k ∉ obj_keys o.
Proof.
  unfold obj_keys. induction o as [|[k0 v0] o IH]; simpl.
  - split; [intros _; apply not_elem_of_nil|done].
  - rewrite not_elem_of_cons. destruct (String.eqb_spec k0 k) as [->|Hne].
    + split; [done|]. intros [? _]. done.
    + rewrite IH. split; [intros ?; split; congruence|tauto].
Qed.
Lemma obj_keys_replace k v o : obj_keys (obj_replace k v o) = obj_keys o.
Proof.
  unfold obj_keys. induction o as [|[k0 v0] o IH]; simpl; [done|].
  destruct (String.eqb k0 k); simpl; [done|]. by rewrite IH.
Qed.

Lemma obj_keys_set_present k v v0 o :
  obj_get k o = Some v0 -> obj_keys (obj_set k v o) = obj_keys o.
Proof.
  intros Hk. unfold obj_set, obj_has. rewrite Hk. apply obj_keys_replace.
Qed.
End ObjFacts.

(** ** The [join] guard *)

(** C7: a [join] whose [walletAddress] is absent or the empty string is
    ignored: the connection and the whole world (sessions, players, food)
    are unchanged and the handler performs no effect at all, so nothing is
    broadcast and nothing is sent back to the sender. *)
Theorem join_without_wallet_is_ignored (o : oracle) (c : conn) (msg : join_msg) (w : world) :
  join_walletAddress msg = None \/ join_walletAddress msg = Some EmptyString ->
  on_join o c msg w = (c, w, []).
Proof.
  unfold on_join. by intros [-> | ->].
Qed.

Lemma join_without_wallet_is_ignored_witness :
  on_join (mkOracle (fun _ => "k7"%string) (fun _ => 0%Q))
          (mkConn None None "s1")
          (mkJoin "g1" "ann" (Some EmptyString))
          (mkWorld [] [])
  = (mkConn None None "s1", mkWorld [] [], []).
Proof.
  apply join_without_wallet_is_ignored. right. reflexivity.
Defined.

(** ** The tie rule *)

Lemma fold_left_fixed_In {A B : Type} (f : A -> B -> A) (l : list B) (a : A) :
  (forall b, In b l -> f a b = a) -> fold_left f l a = a.
Proof.
  induction l as [|b l IH]; simpl; intros Hf; [done|].
  rewrite Hf by (by left). apply IH. intros b' Hb'. apply Hf. by right.
Qed.

(** C4: when the callback of the player pass meets another player who
    overlaps the mover and whose score equals the mover's, it leaves the
    state as it is: both entries stay in [g.players], no object of the heap
    changes (so both scores are unchanged) and no effect is issued, in
    particular no call of [handleUserEat].  Hence a player pass in which
    every player overlapping the mover has the mover's score changes
    nothing at all. *)
Theorem tie_changes_nothing (gameId playerId : string) (player : loc)
    (st : mstate) (p : Player.t) :
  m_heap st !! player = Some p ->
  (forall otherId other o,
      otherId <> playerId ->
      m_heap st !! other = Some o ->
      hypot_lt (dist (Player.pos p) (Player.pos o))
               (playerRadius (Player.score p) + playerRadius (Player.score o)) = true ->
      Player.score p = Player.score o ->
      player_step gameId playerId player st (otherId, other) = st) /\
  ((forall otherId other o,
       In (otherId, other) (obj_entries (players (m_game st))) ->
       otherId <> playerId ->
       m_heap st !! other = Some o ->
       hypot_lt (dist (Player.pos p) (Player.pos o))
                (playerRadius (Player.score p) + playerRadius (Player.score o)) = true ->
       Player.score p = Player.score o) ->
   player_pass gameId playerId player st = st).
Proof.
  intros Hp.
  assert (forall otherId other o,
             otherId <> playerId ->
             m_heap st !! other = Some o ->
             (hypot_lt (dist (Player.pos p) (Player.pos o))
                       (playerRadius (Player.score p) + playerRadius (Player.score o)) = true ->
              Player.score p = Player.score o) ->
             player_step gameId playerId player st (otherId, other) = st) as Hstep.
  { intros otherId other o Hid Ho Htie. unfold player_step.
    destruct (String.eqb_spec otherId playerId) as [?|_]; [done|].
    rewrite Hp, Ho. cbv zeta. destruct (hypot_lt _ _); [|done].
    rewrite Htie by done. by rewrite Z.ltb_irrefl. }
  split.
  - intros otherId other o Hid Ho Hov Heq. by apply (Hstep otherId other o).
  - intros Hall. unfold player_pass. apply fold_left_fixed_In.
    intros [otherId other] Hin.
    destruct (String.eqb_spec otherId playerId) as [Heq|Hid].
    { unfold player_step. by rewrite Heq, String.eqb_refl. }
    destruct (m_heap st !! other) as [o|] eqn:Ho.
    + apply (Hstep otherId other o Hid Ho). by apply (Hall otherId other o).
    + unfold player_step.
      destruct (String.eqb_spec otherId playerId) as [?|_]; [done|].
      by rewrite Hp, Ho.
Qed.

Lemma tie_changes_nothing_witness :
  let p := Player.mk "ann" (CNum (inject_Z 500)) (CNum (inject_Z 500)) 3 "0xA" "s1" in
  let o := Player.mk "bob" (CNum (inject_Z 505)) (CNum (inject_Z 500)) 3 "0xB" "s2" in
  let st := mkM [p; o] (mkGame [("a"%string, 0%nat); ("b"%string, 1%nat)] []) [] in
  player_step "g1" "a" 0%nat st ("b"%string, 1%nat) = st /\
  player_pass "g1" "a" 0%nat st = st.
Proof.
  intros p o st.
  destruct (tie_changes_nothing "g1" "a" 0%nat st p eq_refl) as [Hstep Hpass].
  split.
  - apply (Hstep "b"%string 1%nat o);
      [discriminate | reflexivity | reflexivity | reflexivity].
  - apply Hpass. intros otherId other o' Hin Hid Ho _.
    destruct Hin as [[= <- <-]|[[= <- <-]|[]]].
    + by destruct Hid.
    + injection Ho as <-. reflexivity.
Defined.

(** ** Radii and the collision test *)

Lemma Qltb_lt (a b : Q) : Qltb a b = true <-> (a < b)%Q.
Proof. unfold Qltb, Qlt. apply Z.ltb_lt. Qed.

Lemma Q2R_inject_Z (z : Z) : Q2R (inject_Z z) = IZR z.
Proof. unfold Q2R, inject_Z. simpl. lra. Qed.

Lemma Q2R_sum_squares_nonneg (a b : Q) : (0 <= Q2R (a * a + b * b))%R.
Proof. rewrite Q2R_plus, !Q2R_mult. nra. Qed.

(** The test on squares decides the comparison of the root. *)
Lemma hypot_lt_root (q : Q) (r : Z) :
  (0 <= Q2R q)%R ->
  hypot_lt (Root q) r = true <-> (sqrt (Q2R q) < IZR r)%R.
Proof.
  intros Hq. simpl. rewrite andb_true_iff, Z.ltb_lt, Qltb_lt. split.
  - intros [Hr Hlt]. apply Qlt_Rlt in Hlt.
    rewrite Q2R_inject_Z, mult_IZR in Hlt.
    apply IZR_lt in Hr.
    rewrite <- (sqrt_square (IZR r)) by lra.
    apply sqrt_lt_1_alt. lra.
  - intros Hlt. pose proof (sqrt_pos (Q2R q)) as Hs.
    assert (0 < IZR r)%R as Hr by lra. split.
    + by apply lt_IZR.
    + apply Rlt_Qlt. rewrite Q2R_inject_Z, mult_IZR.
      rewrite <- (sqrt_sqrt (Q2R q)) by done. nra.
Qed.

Lemma dist_numeric (ax ay bx by_ : Q) :
  dist (CNum ax, CNum ay) (CNum bx, CNum by_)
  = Root ((ax - bx) * (ax - bx) + (ay - by_) * (ay - by_))%Q.
Proof. reflexivity. Qed.

Lemma overlap_iff (ax ay bx by_ : Q) (r : Z) :
  hypot_lt (dist (CNum ax, CNum ay) (CNum bx, CNum by_)) r = true
  <-> (euclid ax ay bx by_ < IZR r)%R.
Proof.
  rewrite dist_numeric. apply hypot_lt_root, Q2R_sum_squares_nonneg.
Qed.




(** ** Food spawned by [join] *)

Lemma randScore_range (r : Q) :
  (0 <= r)%Q -> (r < 1)%Q -> 1 <= randScore r <= 10.
Proof.
  intros H0 H1. unfold randScore.
  set (x := (r * inject_Z 10)%Q).
  assert (0 <= x)%Q as Hx0.
  { unfold x. change (inject_Z 10) with (10 # 1)%Q. Lqa.lra. }
  assert (x < inject_Z 10)%Q as Hx1.
  { unfold x. change (inject_Z 10) with (10 # 1)%Q. Lqa.lra. }
  pose proof (Qfloor_le x) as Hle.
  pose proof (Qlt_floor x) as Hlt.
  assert (0 < Qfloor x + 1) as A.
  { rewrite Zlt_Qlt. eapply Qle_lt_trans; [exact Hx0|exact Hlt]. }
  assert (Qfloor x < 10) as B.
  { rewrite Zlt_Qlt. eapply Qle_lt_trans; [exact Hle|exact Hx1]. }
  lia.
Qed.

(** With pairwise distinct fresh ids, the spawning loop adds one entry per
    iteration. *)
Lemma spawn_food_perm (o : oracle) (l : list nat) (fd : obj Food.t) :
  NoDup (map (fun i => genId o (S i)) l) ->
  (forall i, i ∈ l -> obj_get (genId o (S i)) fd = None) ->
  fold_left (spawn_food o) l fd
  ≡ₚ map (fun i => (genId o (S i), new_food o i)) l ++ fd.
Proof.
  revert fd. induction l as [|i l IH]; intros fd Hnd Hfresh; simpl; [done|].
  apply NoDup_cons in Hnd as [Hi Hnd].
  rewrite IH; [| done |].
  - unfold spawn_food. simpl.
    rewrite (obj_set_fresh_perm _ _ fd) by (apply Hfresh; left).
    by rewrite Permutation_middle.
  - intros j Hj. unfold spawn_food. simpl.
    rewrite obj_get_set_ne; [apply Hfresh; by right|].
    intros Heq. apply Hi. rewrite Heq.
    apply (list_elem_of_fmap_2 (fun i => genId o (S i))). done.
Qed.



(** ** The [move] guard and payloads without numeric coordinates *)

Lemma fold_left_fixed {A B : Type} (f : A -> B -> A) (l : list B) (a : A) :
  (forall b, f a b = a) -> fold_left f l a = a.
Proof.
  intros Hf. induction l as [|b l IH]; simpl; [done|]. by rewrite Hf.
Qed.

Lemma dist_undefined (a b : point) :
  a.1 = CUndefined \/ a.2 = CUndefined -> dist a b = NaN.
Proof.
  destruct a as [ax ay], b as [bx by_]. unfold dist. simpl.
  intros [-> | ->]; simpl; [done|].
  by destruct (coord_sub ax bx).
Qed.

Lemma food_step_undefined (gameId : string) (player : loc) (st : mstate) (f : Food.t) :
  (forall p, m_heap st !! player = Some p ->
             Player.x p = CUndefined \/ Player.y p = CUndefined) ->
  food_step gameId player st f = st.
Proof.
  intros Hbad. unfold food_step.
  destruct (m_heap st !! player) as [p|]; [|done].
  by rewrite dist_undefined by (by apply Hbad).
Qed.

Lemma player_step_undefined (gameId playerId : string) (player : loc)
    (st : mstate) (e : string * loc) :
  (forall p, m_heap st !! player = Some p ->
             Player.x p = CUndefined \/ Player.y p = CUndefined) ->
  player_step gameId playerId player st e = st.
Proof.
  intros Hbad. unfold player_step. destruct e as [otherId other].
  destruct (String.eqb otherId playerId); [done|].
  destruct (m_heap st !! player) as [p|]; [|done].
  destruct (m_heap st !! other) as [o|]; [|done].
  cbv zeta. by rewrite dist_undefined by (by apply Hbad).
Qed.

(** C9, as the code has it: a [move] on a connection whose player object
    cannot be found (never joined, session gone, player eaten or left) is
    ignored, with no state change and no effect; it returns at one of the
    two guards unless the session id of the connection reads an inherited
    property, where the lookup of the player throws.  A payload whose [x]
    or [y] is absent is not ignored: the absent values are assigned to the
    mover's coordinates; the distance to everything is then [NaN], so no
    collision happens, nothing else changes, the state is broadcast, and
    nothing throws. *)
Theorem move_guard_and_malformed_payload (c : conn) (msg : move_msg) (w : world) :
  (handler_throws c w = false ->
   find_mover c w = None -> on_move c msg w = (w, [])) /\
  (forall gameId playerId g player,
      find_mover c w = Some (gameId, playerId, g, player) ->
      move_x msg = CUndefined \/ move_y msg = CUndefined ->
      let h' := alter (Player.assign_xy (move_x msg) (move_y msg)) player (heap w) in
      handler_throws c w = false /\
      on_move c msg w =
        (mkWorld (games w) h', [state_msg gameId g h'; ConsoleLog LogMove])).
Proof.
  unfold find_mover, on_move, handler_throws.
  destruct (conn_gameId c) as [gid|]; [|by split].
  destruct (conn_playerId c) as [pid|]; [|by split].
  destruct (truthy gid && truthy pid); [|by split].
  destruct (obj_get gid (games w)) as [g0|] eqn:Hg; [|by split].
  simpl. destruct (obj_get pid (players g0)) as [l|] eqn:Hl; [|by split].
  simpl. split; [done|].
  intros gameId playerId g player [= <- <- <- <-] Hbad.
  split; [unfold reads_inherited, obj_has; rewrite Hg; apply andb_false_r|].
  set (h' := alter _ l (heap w)).
  assert (forall p, h' !! l = Some p ->
                    Player.x p = CUndefined \/ Player.y p = CUndefined) as Hp.
  { intros p. unfold h'. rewrite list_lookup_alter_eq.
    intros Hs. apply fmap_Some in Hs as (p0 & _ & ->). exact Hbad. }
  unfold food_pass. cbn [m_game m_heap m_out].
  rewrite fold_left_fixed by (intros f; by apply food_step_undefined).
  unfold player_pass. cbn [m_game m_heap m_out].
  rewrite fold_left_fixed by (intros e; by apply player_step_undefined).
  cbn [m_game m_heap m_out]. by rewrite (obj_set_same _ _ _ Hg).
Qed.

Lemma move_guard_and_malformed_payload_witness :
  let p := Player.mk "ann" (CNum (inject_Z 500)) (CNum (inject_Z 500)) 0 "0xA" "s1" in
  let g := mkGame [("a"%string, 0%nat)] [("f"%string, Food.mk "f" (inject_Z 500) (inject_Z 500) 4)] in
  let w := mkWorld [("g1"%string, g)] [p] in
  on_move (mkConn (Some "g1"%string) (Some "zz"%string) "s1")
          (mkMove (CNum (inject_Z 1)) (CNum (inject_Z 2))) w = (w, []) /\
  on_move (mkConn (Some "g1"%string) (Some "a"%string) "s1")
          (mkMove CUndefined (CNum (inject_Z 2))) w
  = (mkWorld [("g1"%string, g)]
             [Player.mk "ann" CUndefined (CNum (inject_Z 2)) 0 "0xA" "s1"],
     [state_msg "g1" g [Player.mk "ann" CUndefined (CNum (inject_Z 2)) 0 "0xA" "s1"];
      ConsoleLog LogMove]).
Proof.
  intros p g w. split.
  - apply (move_guard_and_malformed_payload
             (mkConn (Some "g1"%string) (Some "zz"%string) "s1")
             (mkMove (CNum (inject_Z 1)) (CNum (inject_Z 2))) w);
      reflexivity.
  - apply (proj2 (move_guard_and_malformed_payload
             (mkConn (Some "g1"%string) (Some "a"%string) "s1")
             (mkMove CUndefined (CNum (inject_Z 2))) w) "g1"%string "a"%string g 0%nat).
    + reflexivity.
    + left. reflexivity.
Defined.

(** C9 as stated fails: a payload without [x] is not ignored, it
    overwrites the stored position of the mover. *)
Lemma malformed_move_mutates_state :
  let p := Player.mk "ann" (CNum (inject_Z 500)) (CNum (inject_Z 500)) 0 "0xA" "s1" in
  let w := mkWorld [("g1"%string, mkGame [("a"%string, 0%nat)] [])] [p] in
  let r := on_move (mkConn (Some "g1"%string) (Some "a"%string) "s1")
                   (mkMove CUndefined (CNum (inject_Z 7))) w in
  r.1 <> w /\
  heap r.1 = [Player.mk "ann" CUndefined (CNum (inject_Z 7)) 0 "0xA" "s1"].
Proof.
  intros p w r. split; [|reflexivity].
  intros Heq. apply (f_equal (fun v => Player.x <$> heap v !! 0%nat)) in Heq.
  vm_compute in Heq. discriminate Heq.
Qed.


(** ** What a [move] leaves alone *)

Lemma heap_frame_refl (player : loc) (h : list Player.t) : heap_frame player h h.
Proof. split; [done|]. intros l p' Hl. exists p'. by repeat split. Qed.

Lemma heap_frame_trans (player : loc) (h1 h2 h3 : list Player.t) :
  heap_frame player h1 h2 -> heap_frame player h2 h3 -> heap_frame player h1 h3.
Proof.
  intros [Hlen12 H12] [Hlen23 H23]. split; [congruence|]. intros l p3 Hl.
  destruct (H23 l p3 Hl) as (p2 & Hl2 & Hn & Hw & Hs & Hxy).
  destruct (H12 l p2 Hl2) as (p1 & Hl1 & Hn' & Hw' & Hs' & Hxy').
  exists p1. repeat split; try congruence.
  - destruct (Hxy H), (Hxy' H). congruence.
  - destruct (Hxy H), (Hxy' H). congruence.
Qed.

Lemma heap_frame_add_score (player l0 : loc) (h : list Player.t)
    (p0 : Player.t) (n : Z) :
  h !! l0 = Some p0 ->
  heap_frame player h (<[l0 := Player.add_score n p0]> h).
Proof.
  intros H0. split; [apply length_insert|].
  intros l p' Hl. apply list_lookup_insert_Some in Hl
    as [(<- & <- & _) | (Hne & Hl)].
  - exists p0. by repeat split.
  - exists p'. by repeat split.
Qed.

Lemma heap_frame_assign (player : loc) (h : list Player.t) (nx ny : coord) :
  heap_frame player h (alter (Player.assign_xy nx ny) player h).
Proof.
  split; [apply length_alter|].
  intros l p' Hl. destruct (decide (player = l)) as [<-|Hne].
  - rewrite list_lookup_alter_eq in Hl.
    apply fmap_Some in Hl as (p & Hp & ->). exists p. by repeat split.
  - rewrite list_lookup_alter_ne in Hl by done. exists p'. by repeat split.
Qed.

Lemma game_shrinks_refl (g : game) : game_shrinks g g.
Proof. by split. Qed.

Lemma game_shrinks_trans (g1 g2 g3 : game) :
  game_shrinks g1 g2 -> game_shrinks g2 g3 -> game_shrinks g1 g3.
Proof. intros [Hp Hf] [Hp' Hf']. split; eauto. Qed.

Lemma move_frame_refl (player : loc) (st : mstate) : move_frame player st st.
Proof. split; [apply heap_frame_refl|apply game_shrinks_refl]. Qed.

Lemma move_frame_trans (player : loc) (s1 s2 s3 : mstate) :
  move_frame player s1 s2 -> move_frame player s2 s3 -> move_frame player s1 s3.
Proof.
  intros [Hh Hg] [Hh' Hg']. split.
  - by eapply heap_frame_trans.
  - by eapply game_shrinks_trans.
Qed.

Lemma fold_left_preorder {A B : Type} (rel : A -> A -> Prop) (f : A -> B -> A) :
  (forall a, rel a a) ->
  (forall a b c, rel a b -> rel b c -> rel a c) ->
  (forall a b, rel a (f a b)) ->
  forall l a, rel a (fold_left f l a).
Proof.
  intros Hrefl Htrans Hstep l. induction l as [|b l IH]; intros a; simpl.
  - apply Hrefl.
  - eapply Htrans; [apply Hstep|apply IH].
Qed.

Lemma food_step_frame (gameId : string) (player : loc) (st : mstate) (f : Food.t) :
  move_frame player st (food_step gameId player st f).
Proof.
  unfold food_step. destruct (m_heap st !! player) as [p|] eqn:Hp;
    [|apply move_frame_refl].
  destruct (hypot_lt _ _); [|apply move_frame_refl].
  split; simpl.
  - by apply heap_frame_add_score.
  - split; [done|]. intros k f0 Hk. by apply obj_get_delete_Some in Hk as [_ ?].
Qed.

Lemma player_step_frame (gameId playerId : string) (player : loc)
    (st : mstate) (e : string * loc) :
  move_frame player st (player_step gameId playerId player st e).
Proof.
  unfold player_step. destruct e as [otherId other].
  destruct (String.eqb otherId playerId); [apply move_frame_refl|].
  destruct (m_heap st !! player) as [p|] eqn:Hp; [|apply move_frame_refl].
  destruct (m_heap st !! other) as [o|] eqn:Ho; [|apply move_frame_refl].
  cbv zeta. destruct (hypot_lt _ _); [|apply move_frame_refl].
  destruct (Player.score o <? Player.score p).
  - split; simpl.
    + by apply heap_frame_add_score.
    + split; [|done]. intros k l Hk. by apply obj_get_delete_Some in Hk as [_ ?].
  - destruct (Player.score p <? Player.score o); [|apply move_frame_refl].
    split; simpl.
    + by apply heap_frame_add_score.
    + split; [|done]. intros k l Hk. by apply obj_get_delete_Some in Hk as [_ ?].
Qed.

Lemma passes_frame (gameId playerId : string) (player : loc) (st : mstate) :
  move_frame player st
    (player_pass gameId playerId player (food_pass gameId player st)).
Proof.
  eapply move_frame_trans.
  - unfold food_pass.
    apply (fold_left_preorder (move_frame player) (food_step gameId player)).
    + apply move_frame_refl.
    + apply move_frame_trans.
    + apply food_step_frame.
  - unfold player_pass.
    apply (fold_left_preorder (move_frame player)
             (player_step gameId playerId player)).
    + apply move_frame_refl.
    + apply move_frame_trans.
    + apply player_step_frame.
Qed.

Lemma obj_get_Some_In {V : Type} (k : string) (v : V) (o : obj V) :
  obj_get k o = Some v -> In (k, v) o.
Proof.
  induction o as [|[k0 v0] o IH]; simpl; [done|].
  destruct (String.eqb_spec k0 k) as [->|Hne].
  - intros [= ->]. by left.
  - intros Hk. right. by apply IH.
Qed.

Lemma NoDup_map_injective {A B : Type} (f : A -> B) (l : list A) (a b : A) :
  NoDup (map f l) -> In a l -> In b l -> f a = f b -> a = b.
Proof.
  induction l as [|c l IH]; simpl; [done|].
  intros Hnd Ha Hb Hf. apply NoDup_cons in Hnd as [Hc Hnd].
  destruct Ha as [->|Ha], Hb as [->|Hb]; [done| | |by apply IH].
  - exfalso. apply Hc. rewrite Hf. apply list_elem_of_In. by apply in_map.
  - exfalso. apply Hc. rewrite <- Hf. apply list_elem_of_In. by apply in_map.
Qed.

Lemma all_players_In (w : world) (gid k : string) (g : game) (l : loc) :
  obj_get gid (games w) = Some g -> obj_get k (players g) = Some l ->
  In (gid, k, l) (all_players w).
Proof.
  intros Hg Hk. unfold all_players. apply in_flat_map.
  exists (gid, g). split; [by apply obj_get_Some_In|].
  apply (in_map (fun kl => (gid, kl.1, kl.2)) _ (k, l)).
  by apply obj_get_Some_In.
Qed.

Lemma wf_worldb_sound (w : world) : wf_worldb w = true -> wf_world w.
Proof.
  unfold wf_worldb. rewrite andb_true_iff, forallb_forall.
  intros [Hrange Hnd]. apply bool_decide_eq_true in Hnd. split.
  - intros gid g k l Hg Hk.
    specialize (Hrange _ (all_players_In w gid k g l Hg Hk)).
    by apply Nat.ltb_lt in Hrange.
  - intros gid1 g1 k1 gid2 g2 k2 l Hg1 Hk1 Hg2 Hk2.
    pose proof (NoDup_map_injective snd _ _ _ Hnd
                  (all_players_In w _ _ _ _ Hg1 Hk1)
                  (all_players_In w _ _ _ _ Hg2 Hk2) eq_refl) as Heq.
    by injection Heq.
Qed.



(** ** The player pass after the mover was eaten *)

(** The concrete session is reachable from the empty server. *)
Lemma first_oracle_range (n : nat) :
  (0 <= random first_oracle n)%Q /\ (random first_oracle n < 1)%Q.
Proof.
  unfold first_oracle. cbn [random].
  destruct (n mod 3)%nat as [|[|k]].
  - pose proof (Nat.mod_upper_bound (n / 3) 20). unfold Qle, Qlt. simpl. lia.
  - by split.
  - by destruct (_ || _).
Qed.

Lemma later_oracle_range (playerId : string) (n : nat) :
  (0 <= random (later_oracle playerId) n)%Q /\
  (random (later_oracle playerId) n < 1)%Q.
Proof. by split. Qed.

Lemma arena_reachable : reachable arena.
Proof.
  assert (arena = fold_left (fun w f => f w) arena_events (mkWorld [] [])) as ->.
  { vm_compute. reflexivity. }
  unfold arena_events. cbn [fold_left].
  repeat first
    [ apply reach_start
    | apply reach_move
    | apply reach_join; [first [apply first_oracle_range
                               | apply later_oracle_range]|] ].
Qed.

(** C2, evaluated on the code: the mover [p] (score 1) moves onto two
    players of score 5 and one of score 0.  The first one eats the mover
    and the mover is deleted, yet the callback still runs for the other
    entries with the deleted mover: the second player gains the mover's
    score as well, and the mover then eats the third player.  Three calls
    of [handleUserEat] are issued instead of one. *)
Theorem removed_mover_keeps_colliding :
  let r := on_move arena_conn to_spawn arena in
  let st1 := player_step "g1" "p" 0%nat arena_moved ("a"%string, 1%nat) in
  let st2 := player_step "g1" "p" 0%nat st1 ("b"%string, 2%nat) in
  obj_get "p" (players (m_game st1)) = None /\
  score_at (m_heap st1) 2%nat = 5 /\
  score_at (m_heap st2) 2%nat = 6 /\
  obj_keys (players (session_g1 r.1)) = ["a"; "b"]%string /\
  score_at (heap r.1) 1%nat = 6 /\
  score_at (heap r.1) 2%nat = 6 /\
  List.filter is_user_eat r.2
  = [CallHandleUserEat "0xP" "0xA" "g1";
     CallHandleUserEat "0xP" "0xB" "g1";
     CallHandleUserEat "0xC" "0xP" "g1"].
Proof.
  vm_compute. repeat split; reflexivity.
Qed.

(** C8, evaluated on the code: in the same move, the callback that runs
    for the second player after the mover was deleted adds the mover's
    score to that player and removes nobody, so the sum of the live scores
    of the session (11 for the players, 17 for the food) grows from 28 to
    29. *)
Theorem removed_mover_breaks_conservation :
  let r := on_move arena_conn to_spawn arena in
  let st1 := player_step "g1" "p" 0%nat arena_moved ("a"%string, 1%nat) in
  let st2 := player_step "g1" "p" 0%nat st1 ("b"%string, 2%nat) in
  live_total (session_g1 arena) (heap arena) = 28 /\
  live_total (m_game st1) (m_heap st1) = 28 /\
  players (m_game st2) = players (m_game st1) /\
  food (m_game st2) = food (m_game st1) /\
  live_total (m_game st2) (m_heap st2) = 29 /\
  live_total (session_g1 r.1) (heap r.1) = 29.
Proof.
  vm_compute. repeat split; reflexivity.
Qed.


(** ** Settlement of a player eaten by another: [handleUserEat] *)

Import Ledger.

Lemma getUserInfo_update_eq (a b : string) (v : Z) (p : pool) :
  toLowerCase a = toLowerCase b ->
  getUserInfo b (updateUserShare a v p) = v.
Proof.
  intros Hab. unfold getUserInfo, updateUserShare. simpl.
  by rewrite Hab, lookup_insert_eq.
Qed.

Lemma getUserInfo_update_ne (a b : string) (v : Z) (p : pool) :
  toLowerCase a <> toLowerCase b ->
  getUserInfo b (updateUserShare a v p) = getUserInfo b p.
Proof.
  intros Hab. unfold getUserInfo, updateUserShare. simpl.
  by rewrite lookup_insert_ne.
Qed.

(** A loser without share is refused: the exception is caught, nothing is
    written. *)
Lemma handleUserEat_no_share (a b gameId : string) (p : pool) :
  getUserInfo a p = 0 -> handleUserEat a b gameId p = (p, Caught NoShares).
Proof. intros H0. unfold handleUserEat. by rewrite H0. Qed.

(** Otherwise the loser's share is set to 0 and the winner's share is set
    to the loser's former share. *)
Lemma handleUserEat_written (a b gameId : string) (p : pool) :
  getUserInfo a p <> 0 ->
  let r := handleUserEat a b gameId p in
  r.2 = Written /\
  getUserInfo b r.1 = getUserInfo a p /\
  (toLowerCase a <> toLowerCase b -> getUserInfo a r.1 = 0).
Proof.
  intros Hne. unfold handleUserEat.
  destruct (Z.eqb_spec (getUserInfo a p) 0) as [?|_]; [done|]. simpl.
  split; [done|]. split.
  - by apply getUserInfo_update_eq.
  - intros Hab. rewrite getUserInfo_update_ne by done.
    by apply getUserInfo_update_eq.
Qed.

(** C1, evaluated on the code: the loser [0xA] holds 10 and the winner
    [0xB] holds 100.  After the settlement the loser holds 0, but the
    winner holds 10, the loser's former share, and not 110: the winner's own
    share is overwritten. *)
Theorem handleUserEat_overwrites_winner :
  let r := handleUserEat "0xA" "0xB" "g1" pool0 in
  getUserInfo "0xA" pool0 = 10 /\
  getUserInfo "0xB" pool0 = 100 /\
  r.2 = Written /\
  getUserInfo "0xA" r.1 = 0 /\
  getUserInfo "0xB" r.1 = 10.
Proof.
  vm_compute. repeat split; reflexivity.
Qed.


(** ** Settlement of eaten food: [handleFoodEat] *)

Lemma lower_ascii_idem (c : ascii) : lower_ascii (lower_ascii c) = lower_ascii c.
Proof. destruct c as [[] [] [] [] [] [] [] []]; reflexivity. Qed.

Lemma toLowerCase_idem (s : string) : toLowerCase (toLowerCase s) = toLowerCase s.
Proof.
  induction s as [|c s IH]; simpl; [done|]. by rewrite lower_ascii_idem, IH.
Qed.

Lemma getUserInfo_case (a b : string) (p : pool) :
  toLowerCase a = toLowerCase b -> getUserInfo a p = getUserInfo b p.
Proof. intros Hab. unfold getUserInfo. by rewrite Hab. Qed.

Lemma zip_map_fst_snd {A B : Type} (l : list (A * B)) :
  zip (map fst l) (map snd l) = l.
Proof. induction l as [|[a b] l IH]; simpl; [done|]. by rewrite IH. Qed.

Lemma Forall2_In_l {A B : Type} (R : A -> B -> Prop) (l : list A) (k : list B) (x : A) :
  Forall2 R l k -> In x l -> exists y, In y k /\ R x y.
Proof.
  induction 1 as [|a b l k Hab _ IH]; simpl; [done|].
  intros [<-|Hx]; [by exists b; auto|].
  destruct (IH Hx) as (y & Hy & Hxy). exists y. auto.
Qed.

Lemma Forall2_In_r {A B : Type} (R : A -> B -> Prop) (l : list A) (k : list B) (y : B) :
  Forall2 R l k -> In y k -> exists x, In x l /\ R x y.
Proof.
  induction 1 as [|a b l k Hab _ IH]; simpl; [done|].
  intros [<-|Hy]; [by exists a; auto|].
  destruct (IH Hy) as (x & Hx & Hxy). exists x. auto.
Qed.

(** Reading a share after a batch of writes. *)
Lemma batch_lookup_other (upd : list (string * Z)) (p : pool) (a : string) :
  (forall k v, In (k, v) upd -> toLowerCase k <> toLowerCase a) ->
  getUserInfo a (fold_left (fun q us => updateUserShare us.1 us.2 q) upd p)
  = getUserInfo a p.
Proof.
  induction upd as [|[k v] upd IH] using rev_ind; intros Hno; simpl; [done|].
  rewrite fold_left_app. simpl.
  rewrite getUserInfo_update_ne.
  - apply IH. intros k' v' Hin. apply (Hno k' v'), in_or_app. by left.
  - apply (Hno k v), in_or_app. right. by left.
Qed.

Lemma batch_lookup (upd : list (string * Z)) (p : pool) (a : string) (v : Z) :
  (exists k, In (k, v) upd /\ toLowerCase k = toLowerCase a) ->
  (forall k v', In (k, v') upd -> toLowerCase k = toLowerCase a -> v' = v) ->
  getUserInfo a (fold_left (fun q us => updateUserShare us.1 us.2 q) upd p) = v.
Proof.
  induction upd as [|[k0 v0] upd IH] using rev_ind; intros (k & Hin & Hk) Hall.
  - destruct Hin.
  - rewrite fold_left_app. simpl.
    destruct (decide (toLowerCase k0 = toLowerCase a)) as [Heq|Hne].
    + rewrite getUserInfo_update_eq by done.
      apply (Hall k0 v0); [|done]. apply in_or_app. right. by left.
    + rewrite getUserInfo_update_ne by done. apply IH.
      * exists k. split; [|done].
        apply in_app_or in Hin as [Hin|[[= <- <-]|[]]]; [done|].
        by destruct Hne.
      * intros k' v' Hin'. apply Hall, in_or_app. by left.
Qed.

Lemma existsb_map {A B : Type} (f : B -> bool) (g : A -> B) (l : list A) :
  existsb f (map g l) = existsb (fun a => f (g a)) l.
Proof. induction l as [|a l IH]; simpl; [done|]. by rewrite IH. Qed.

(** The [shares] array: its keys are lower-case, the eater has an entry
    holding [eater_share], every depositor has an entry holding the share
    on the ledger, and there is nothing else. *)
Lemma share_table_In (eater : string) (p : pool) (s : string * Z) :
  In s (share_table (toLowerCase eater) p) ->
  (exists a, In a (getAllDepositors p) /\ s = (toLowerCase a, getUserInfo a p)) \/
  (s = (toLowerCase eater, 0) /\
   existsb (fun a => String.eqb (toLowerCase a) (toLowerCase eater))
           (getAllDepositors p) = false).
Proof.
  unfold share_table. rewrite existsb_map. simpl.
  destruct (existsb _ (getAllDepositors p)) eqn:Hex.
  - intros Hin. apply in_map_iff in Hin as (a & <- & Ha). left. by exists a.
  - intros Hin. apply in_app_or in Hin as [Hin|[<-|[]]].
    + apply in_map_iff in Hin as (a & <- & Ha). left. by exists a.
    + by right.
Qed.

Lemma share_table_depositor (eater : string) (p : pool) (a : string) :
  In a (getAllDepositors p) ->
  In (toLowerCase a, getUserInfo a p) (share_table (toLowerCase eater) p).
Proof.
  intros Ha. unfold share_table.
  assert (In (toLowerCase a, getUserInfo a p)
             (map (fun addr => (toLowerCase addr, getUserInfo addr p))
                  (getAllDepositors p))) as Hin.
  { by apply (in_map (fun addr => (toLowerCase addr, getUserInfo addr p))). }
  destruct (existsb _ _); [done|]. apply in_or_app. by left.
Qed.

Lemma share_table_eater (eater : string) (p : pool) :
  In (toLowerCase eater, eater_share eater p) (share_table (toLowerCase eater) p).
Proof.
  unfold share_table, eater_share. rewrite existsb_map. simpl.
  destruct (existsb _ (getAllDepositors p)) eqn:Hex.
  - apply existsb_exists in Hex as (a & Ha & Heq).
    apply String.eqb_eq in Heq. apply in_map_iff. exists a. split; [|done].
    by rewrite Heq, (getUserInfo_case a eater).
  - apply in_or_app. right. by left.
Qed.

Lemma share_table_eater_value (eater : string) (p : pool) (v : Z) :
  In (toLowerCase eater, v) (share_table (toLowerCase eater) p) ->
  v = eater_share eater p.
Proof.
  intros Hin. unfold eater_share.
  apply share_table_In in Hin as [(a & Ha & [= Hk ->]) | [[= ->] Hex]].
  - assert (existsb (fun a0 => String.eqb (toLowerCase a0) (toLowerCase eater))
                    (getAllDepositors p) = true) as ->.
    { apply existsb_exists. exists a. split; [done|]. by apply String.eqb_eq. }
    by apply getUserInfo_case.
  - by rewrite Hex.
Qed.

Lemma share_table_lower (eater : string) (p : pool) (s : string * Z) :
  In s (share_table (toLowerCase eater) p) -> toLowerCase s.1 = s.1.
Proof.
  intros Hin. apply share_table_In in Hin as [(a & _ & ->) | [-> _]];
    simpl; apply toLowerCase_idem.
Qed.

(** When the total of the deposits is a BigInt, the division throws and
    nothing is written. *)
Lemma handleFoodEat_bigint_total (absoluteVal : Z) (eater : string) (p : pool) (z : Z) :
  totalDeposits p = BigInt z ->
  handleFoodEat absoluteVal eater p = (p, Caught TypeError).
Proof. intros Ht. unfold handleFoodEat. by rewrite Ht. Qed.

(** C3, as the code has it.  The food callback calls [handleFoodEat] with
    the score of the eaten food and the wallet address of the eater.  The
    redistribution does not use that amount itself but the integer
    [x = BigInt((amount / totalDeposits) * 100)]: when the product is not
    an integer the call fails; when [x] exceeds the total of the other
    shares the call is refused; whenever the call does not write, the
    ledger is unchanged; when it writes, the eater's share becomes the
    eater's share plus [x] and the share [s] of every other depositor
    becomes [s * (othersTotal - x) / othersTotal], truncated toward zero. *)
Theorem food_settlement_by_percentage (absoluteVal : Z) (eater : string) (p : pool) :
  let total := others_total (toLowerCase eater) (share_table (toLowerCase eater) p) in
  let r := handleFoodEat absoluteVal eater p in
  (forall gameId player st f pl,
      m_heap st !! player = Some pl ->
      hypot_lt (dist (Player.pos pl) (Food.pos f))
               (playerRadius (Player.score pl) + foodRadius (Food.score f)) = true ->
      m_out (food_step gameId player st f)
      = m_out st ++ [CallHandleFoodEat (Food.score f) (Player.walletAddress pl);
                     PostWebhook (Player.name pl) f gameId]) /\
  (r.2 <> Written -> r.1 = p) /\
  (forall t,
      totalDeposits p = Number t ->
      number_to_bigint
        (PrimFloat.mul (PrimFloat.div (Z2float absoluteVal) t) (Z2float 100)) = None ->
      r = (p, Caught RangeError)) /\
  (forall t x,
      totalDeposits p = Number t ->
      number_to_bigint
        (PrimFloat.mul (PrimFloat.div (Z2float absoluteVal) t) (Z2float 100)) = Some x ->
      (total < x -> r = (p, NotEnoughShare)) /\
      (r.2 = Written ->
       x <= total /\
       getUserInfo eater r.1 = eater_share eater p + x /\
       forall a, In a (getAllDepositors p) ->
                 toLowerCase a <> toLowerCase eater ->
                 getUserInfo a r.1 = Z.quot (getUserInfo a p * (total - x)) total)).
Proof.
  intros total r. split.
  { intros gameId player st f pl Hpl Hov. unfold food_step. by rewrite Hpl, Hov. }
  split.
  { unfold r, handleFoodEat.
    destruct (food_percent _ _); [|done].
    destruct (number_to_bigint _); [|done].
    destruct (_ <? _); [done|].
    by destruct (mapM _ _). }
  split.
  { intros t Ht Hx. unfold r, handleFoodEat, food_percent. by rewrite Ht, Hx. }
  intros t x Ht Hx.
  unfold r, handleFoodEat, food_percent. rewrite Ht, Hx. fold total.
  destruct (Z.ltb_spec total x) as [Hlt|Hle].
  { split; [done|]. discriminate. }
  split; [lia|].
  destruct (mapM _ _) as [updated|] eqn:Hmap; [|discriminate].
  intros _. split; [done|]. simpl.
  apply mapM_Some_1 in Hmap. unfold updateSharesBatch. rewrite zip_map_fst_snd.
  split.
  - apply batch_lookup.
    + destruct (Forall2_In_l _ _ _ _ Hmap (share_table_eater eater p))
        as ([k v] & Hin & Hupd).
      unfold updated_share in Hupd. simpl in Hupd.
      rewrite String.eqb_refl in Hupd. injection Hupd as <- <-.
      exists (toLowerCase eater). split; [done|apply toLowerCase_idem].
    + intros k v Hin Hk.
      destruct (Forall2_In_r _ _ _ _ Hmap Hin) as ([k0 v0] & Hin0 & Hupd).
      pose proof (share_table_lower _ _ _ Hin0) as Hlow. simpl in Hlow.
      unfold updated_share in Hupd. simpl in Hupd.
      destruct (String.eqb_spec k0 (toLowerCase eater)) as [->|Hne].
      * injection Hupd as <- <-.
        by rewrite (share_table_eater_value _ _ _ Hin0).
      * destruct (total =? 0); [done|]. injection Hupd as <- <-. congruence.
  - intros a Ha Hae. apply batch_lookup.
    + destruct (Forall2_In_l _ _ _ _ Hmap (share_table_depositor eater p a Ha))
        as ([k v] & Hin & Hupd).
      unfold updated_share in Hupd. simpl in Hupd.
      destruct (String.eqb_spec (toLowerCase a) (toLowerCase eater)) as [?|_];
        [done|].
      destruct (total =? 0); [done|]. injection Hupd as <- <-.
      exists (toLowerCase a). split; [done|apply toLowerCase_idem].
    + intros k v Hin Hk.
      destruct (Forall2_In_r _ _ _ _ Hmap Hin) as ([k0 v0] & Hin0 & Hupd).
      pose proof (share_table_lower _ _ _ Hin0) as Hlow. simpl in Hlow.
      unfold updated_share in Hupd. simpl in Hupd.
      destruct (String.eqb_spec k0 (toLowerCase eater)) as [->|Hne].
      * injection Hupd as <- <-. congruence.
      * destruct (total =? 0); [done|]. injection Hupd as <- <-.
        apply share_table_In in Hin0 as [(a0 & _ & [= -> ->]) | [[= -> _] _]];
          [|done].
        rewrite (getUserInfo_case a0 a); [done|]. congruence.
Qed.

Lemma food_settlement_by_percentage_witness :
  let r := handleFoodEat 4 "0xA" pool0 in
  r.2 = Written /\
  getUserInfo "0xA" r.1 = eater_share "0xA" pool0 + 50 /\
  getUserInfo "0xB" r.1 = Z.quot (getUserInfo "0xB" pool0 * (100 - 50)) 100.
Proof.
  intros r.
  assert (r.2 = Written) as Hw by reflexivity.
  split; [exact Hw|].
  destruct (food_settlement_by_percentage 4 "0xA" pool0) as (_ & _ & _ & Hx).
  destruct (Hx (Z2float 8) 50 eq_refl eq_refl) as [_ Hwritten].
  destruct (Hwritten Hw) as (_ & He & Ho). split; [exact He|].
  apply (Ho "0xB"%string); [right; left; reflexivity | discriminate].
Defined.

(** C3 as stated fails: with deposits totalling 8, eating food of score 4
    adds 50 to the eater's share of 10, not 4, and scales the other share
    of 100 to 50, not to 96. *)
Lemma food_settlement_is_not_by_amount :
  let r := handleFoodEat 4 "0xA" pool0 in
  r.2 = Written /\
  getUserInfo "0xA" pool0 = 10 /\
  getUserInfo "0xB" pool0 = 100 /\
  getUserInfo "0xA" r.1 = 60 /\
  getUserInfo "0xA" r.1 <> getUserInfo "0xA" pool0 + 4 /\
  getUserInfo "0xB" r.1 = 50 /\
  getUserInfo "0xB" r.1 <> Z.quot (getUserInfo "0xB" pool0 * (100 - 4)) 100.
Proof.
  vm_compute. repeat split; try reflexivity; discriminate.
Qed.


(** ** Invariants of the reachable worlds *)

Lemma obj_delete_In {V : Type} (k : string) (o : obj V) (e : string * V) :
  In e (obj_delete k o) -> In e o.
Proof.
  induction o as [|[k0 v0] o IH]; simpl; [done|].
  destruct (String.eqb k0 k); simpl; [by auto|]. intros [<-|He]; auto.
Qed.

Lemma obj_replace_In {V : Type} (k : string) (v : V) (o : obj V) (e : string * V) :
  In e (obj_replace k v o) -> e = (k, v) \/ In e o.
Proof.
  induction o as [|[k0 v0] o IH]; simpl; [done|].
  destruct (String.eqb_spec k0 k) as [->|Hne]; simpl.
  - intros [<-|He]; auto.
  - intros [<-|He]; [by auto|]. destruct (IH He); auto.
Qed.

Lemma obj_set_In {V : Type} (k : string) (v : V) (o : obj V) (e : string * V) :
  In e (obj_set k v o) -> e = (k, v) \/ In e o.
Proof.
  unfold obj_set. destruct (obj_has k o).
  - apply obj_replace_In.
  - destruct (array_index k) as [n|].
    + intros He. apply list_elem_of_In in He.
      rewrite obj_insert_index_perm in He. apply list_elem_of_In in He.
      destruct He as [<-|He]; auto.
    + intros He. apply in_app_or in He as [He|[<-|[]]]; auto.
Qed.

Lemma fold_left_invariant {A B : Type} (I : A -> Prop) (f : A -> B -> A) (l : list B) :
  (forall a b, In b l -> I a -> I (f a b)) ->
  forall a, I a -> I (fold_left f l a).
Proof.
  induction l as [|b l IH]; simpl; intros Hstep a Ha; [done|].
  apply IH; [|apply Hstep]; auto.
Qed.

(** *** No shared player objects *)

Lemma wf_world_sub (w w' : world) :
  wf_world w -> players_sub w w' -> length (heap w') = length (heap w) ->
  wf_world w'.
Proof.
  intros [Hrange Hinj] Hsub Hlen. split.
  - intros gid g' k l Hg Hk. destruct (Hsub _ _ _ _ Hg Hk) as (g & Hg0 & Hk0).
    rewrite Hlen. by eapply Hrange.
  - intros gid1 g1 k1 gid2 g2 k2 l Hg1 Hk1 Hg2 Hk2.
    destruct (Hsub _ _ _ _ Hg1 Hk1) as (g1' & ? & ?).
    destruct (Hsub _ _ _ _ Hg2 Hk2) as (g2' & ? & ?).
    by eapply Hinj.
Qed.

Lemma players_sub_set (w : world) (gameId : string) (g g' : game) (h' : list Player.t) :
  obj_get gameId (games w) = Some g ->
  (forall k l, obj_get k (players g') = Some l -> obj_get k (players g) = Some l) ->
  players_sub w (mkWorld (obj_set gameId g' (games w)) h').
Proof.
  intros Hg Hsub gid g0 k l Hg0 Hk. simpl in Hg0.
  destruct (decide (gameId = gid)) as [<-|Hne].
  - rewrite obj_get_set_eq in Hg0. injection Hg0 as <-. exists g. auto.
  - rewrite obj_get_set_ne in Hg0 by done. by exists g0.
Qed.

Lemma on_move_shape (c : conn) (msg : move_msg) (w : world) :
  (on_move c msg w).1 = w \/
  exists gameId playerId g player st,
    conn_gameId c = Some gameId /\ conn_playerId c = Some playerId /\
    obj_get gameId (games w) = Some g /\
    obj_get playerId (players g) = Some player /\
    st = player_pass gameId playerId player
           (food_pass gameId player
              (mkM (alter (Player.assign_xy (move_x msg) (move_y msg)) player (heap w))
                   g [])) /\
    (on_move c msg w).1 = mkWorld (obj_set gameId (m_game st) (games w)) (m_heap st).
Proof.
  unfold on_move.
  destruct (conn_gameId c) as [gameId|]; [|by left].
  destruct (conn_playerId c) as [playerId|]; [|by left].
  destruct (truthy gameId && truthy playerId); [|by left].
  destruct (obj_get gameId (games w)) as [g|] eqn:Hg; [|by left].
  destruct (obj_get playerId (players g)) as [player|] eqn:Hpl; [|by left].
  right. by eexists gameId, playerId, g, player, _.
Qed.

Lemma on_move_frame (msg : move_msg) (gameId playerId : string) (player : loc)
    (g : game) (h : list Player.t) :
  move_frame player (mkM h g [])
    (player_pass gameId playerId player
       (food_pass gameId player
          (mkM (alter (Player.assign_xy (move_x msg) (move_y msg)) player h) g []))).
Proof.
  eapply move_frame_trans; [|apply passes_frame].
  split; [apply heap_frame_assign|apply game_shrinks_refl].
Qed.

Lemma on_move_wf (c : conn) (msg : move_msg) (w : world) :
  wf_world w -> wf_world (on_move c msg w).1.
Proof.
  intros Hwf.
  destruct (on_move_shape c msg w)
    as [-> | (gameId & playerId & g & player & st & _ & _ & Hg & _ & -> & ->)];
    [done|].
  destruct (on_move_frame msg gameId playerId player g (heap w)) as [[Hlen _] [Hsp _]].
  eapply wf_world_sub; [exact Hwf| |exact Hlen].
  by apply players_sub_set with g.
Qed.

Lemma on_disconnect_wf (c : conn) (w : world) :
  wf_world w -> wf_world (on_disconnect c w).1.
Proof.
  intros Hwf. unfold on_disconnect.
  destruct (conn_gameId c) as [gameId|]; [|done].
  destruct (conn_playerId c) as [playerId|]; [|done].
  destruct (truthy gameId && truthy playerId); [|done].
  destruct (obj_get gameId (games w)) as [g|] eqn:Hg; [|done].
  destruct (obj_has playerId (players g)); [|done]. cbv zeta. cbn [fst].
  set (g' := mkGame (obj_delete playerId (players g)) (food g)).
  assert (players_sub w (mkWorld (obj_set gameId g' (games w)) (heap w))) as Hsub.
  { apply players_sub_set with g; [done|]. simpl. intros k l Hk.
    by apply obj_get_delete_Some in Hk as [_ ?]. }
  destruct (_ =? _)%nat.
  - eapply wf_world_sub; [exact Hwf| |reflexivity].
    intros gid g0 k l Hg0 Hk. cbn [games heap] in Hg0.
    apply obj_get_delete_Some in Hg0 as [_ Hg0]. by eapply Hsub.
  - eapply wf_world_sub; [exact Hwf|exact Hsub|reflexivity].
Qed.

Lemma on_join_wf (o : oracle) (c : conn) (msg : join_msg) (w : world) :
  wf_world w -> wf_world (on_join o c msg w).1.2.
Proof.
  intros [Hrange Hinj]. unfold on_join.
  destruct (join_walletAddress msg) as [wallet|]; [|by split].
  destruct (truthy wallet); [|by split].
  destruct (reads_inherited (join_gameId msg) w); [by split|]. cbn [fst snd].
  set (gameId := join_gameId msg). set (playerId := genId o 0).
  set (g := default empty_game (obj_get gameId (games w))).
  set (fd := if (length (obj_keys (food g)) =? 0)%nat then _ else _).
  set (newp := Player.mk _ _ _ _ _ _).
  assert (forall gid g' k l,
            obj_get gid (obj_set gameId (mkGame (obj_set playerId (length (heap w))
                                                  (players g)) fd) (games w)) = Some g' ->
            obj_get k (players g') = Some l ->
            (gid = gameId /\ k = playerId /\ l = length (heap w)) \/
            (exists g0, obj_get gid (games w) = Some g0 /\
                        obj_get k (players g0) = Some l)) as Hcase.
  { intros gid g' k l Hg' Hk.
    destruct (decide (gameId = gid)) as [<-|Hne].
    - rewrite obj_get_set_eq in Hg'. injection Hg' as <-. simpl in Hk.
      destruct (decide (playerId = k)) as [<-|Hnk].
      + rewrite obj_get_set_eq in Hk. injection Hk as <-. by left.
      + rewrite obj_get_set_ne in Hk by done. right. unfold g in Hk.
        destruct (obj_get gameId (games w)) as [g0|] eqn:Hg0; [|done].
        by exists g0.
    - rewrite obj_get_set_ne in Hg' by done. right. by exists g'. }
  split; cbn [games heap].
  - intros gid g' k l Hg' Hk. rewrite length_app. simpl.
    destruct (Hcase _ _ _ _ Hg' Hk) as [(_ & _ & ->) | (g0 & Hg0 & Hk0)]; [lia|].
    specialize (Hrange _ _ _ _ Hg0 Hk0). lia.
  - intros gid1 g1 k1 gid2 g2 k2 l Hg1 Hk1 Hg2 Hk2.
    destruct (Hcase _ _ _ _ Hg1 Hk1) as [(-> & -> & ->) | (g01 & Hg01 & Hk01)];
      destruct (Hcase _ _ _ _ Hg2 Hk2) as [(-> & -> & Hl) | (g02 & Hg02 & Hk02)].
    + done.
    + specialize (Hrange _ _ _ _ Hg02 Hk02). lia.
    + specialize (Hrange _ _ _ _ Hg01 Hk01). lia.
    + by eapply Hinj.
Qed.

(** Every reachable world is well formed: the hypothesis of the frame
    property holds whenever the server runs. *)
Lemma reachable_wf (w : world) : reachable w -> wf_world w.
Proof.
  induction 1 as [|o c msg w _ _ IH|c msg w _ IH|c w _ IH].
  - by split.
  - by apply on_join_wf.
  - by apply on_move_wf.
  - by apply on_disconnect_wf.
Qed.

(** *** Scores *)

Lemma food_step_scores (gameId : string) (player : loc) (st : mstate) (f : Food.t) :
  1 <= Food.score f <= 10 ->
  mstate_scores_ok st -> mstate_scores_ok (food_step gameId player st f).
Proof.
  intros Hf [Hh Hfd]. unfold food_step.
  destruct (m_heap st !! player) as [p|] eqn:Hp; [|by split].
  destruct (hypot_lt _ _); [|by split]. split; simpl.
  - apply Forall_insert; [done|]. simpl.
    pose proof (Forall_lookup_1 _ _ _ _ Hh Hp) as H0. simpl in H0. lia.
  - intros k f0 Hin. apply obj_delete_In in Hin. by eapply Hfd.
Qed.

Lemma player_step_scores (gameId playerId : string) (player : loc)
    (st : mstate) (e : string * loc) :
  mstate_scores_ok st -> mstate_scores_ok (player_step gameId playerId player st e).
Proof.
  intros [Hh Hfd]. unfold player_step. destruct e as [otherId other].
  destruct (String.eqb otherId playerId); [by split|].
  destruct (m_heap st !! player) as [p|] eqn:Hp; [|by split].
  destruct (m_heap st !! other) as [o|] eqn:Ho; [|by split].
  pose proof (Forall_lookup_1 _ _ _ _ Hh Hp) as H0.
  pose proof (Forall_lookup_1 _ _ _ _ Hh Ho) as H1. simpl in H0, H1.
  cbv zeta. destruct (hypot_lt _ _); [|by split].
  destruct (Player.score o <? Player.score p).
  - split; simpl; [|done]. apply Forall_insert; [done|]. simpl. lia.
  - destruct (Player.score p <? Player.score o); [|by split].
    split; simpl; [|done]. apply Forall_insert; [done|]. simpl. lia.
Qed.

Lemma passes_scores (gameId playerId : string) (player : loc) (st : mstate) :
  mstate_scores_ok st ->
  mstate_scores_ok (player_pass gameId playerId player (food_pass gameId player st)).
Proof.
  intros Hst. unfold player_pass.
  apply (fold_left_invariant mstate_scores_ok).
  { intros a b _. apply player_step_scores. }
  unfold food_pass. apply (fold_left_invariant mstate_scores_ok); [|done].
  intros a f Hin. apply food_step_scores.
  apply in_map_iff in Hin as ([k f0] & <- & Hin). destruct Hst as [_ Hfd].
  by eapply Hfd.
Qed.

Lemma on_move_scores (c : conn) (msg : move_msg) (w : world) :
  scores_ok (heap w) (games w) ->
  scores_ok (heap (on_move c msg w).1) (games (on_move c msg w).1).
Proof.
  intros [Hh Hfd].
  destruct (on_move_shape c msg w)
    as [-> | (gameId & playerId & g & player & st & _ & _ & Hg & _ & Hst & ->)];
    [by split|].
  assert (mstate_scores_ok st) as [Hh' Hfd'].
  { rewrite Hst. apply passes_scores. split; simpl.
    - apply Forall_alter; [done|]. intros p _ Hp. exact Hp.
    - intros k f Hin. eapply Hfd; [|exact Hin]. by apply obj_get_Some_In. }
  split; cbn [games heap]; [done|].
  intros gid g0 k f Hg0 Hin. apply obj_set_In in Hg0 as [[= -> ->]|Hg0].
  - by eapply Hfd'.
  - by eapply Hfd.
Qed.

Lemma on_disconnect_scores (c : conn) (w : world) :
  scores_ok (heap w) (games w) ->
  scores_ok (heap (on_disconnect c w).1) (games (on_disconnect c w).1).
Proof.
  intros [Hh Hfd]. unfold on_disconnect.
  destruct (conn_gameId c) as [gameId|]; [|by split].
  destruct (conn_playerId c) as [playerId|]; [|by split].
  destruct (truthy gameId && truthy playerId); [|by split].
  destruct (obj_get gameId (games w)) as [g|] eqn:Hg; [|by split].
  destruct (obj_has playerId (players g)); [|by split]. cbv zeta. cbn [fst].
  assert (forall gid g0 k f,
            In (gid, g0) (obj_set gameId
                            (mkGame (obj_delete playerId (players g)) (food g))
                            (games w)) ->
            In (k, f) (food g0) -> 1 <= Food.score f <= 10) as Hset.
  { intros gid g0 k f Hg0 Hin. apply obj_set_In in Hg0 as [[= -> ->]|Hg0].
    - simpl in Hin. eapply Hfd; [|exact Hin]. by apply obj_get_Some_In.
    - by eapply Hfd. }
  destruct (_ =? _)%nat; split; cbn [games heap]; try done.
  intros gid g0 k f Hg0 Hin. apply obj_delete_In in Hg0. by eapply Hset.
Qed.

Lemma on_join_scores (o : oracle) (c : conn) (msg : join_msg) (w : world) :
  (forall n, (0 <= random o n)%Q /\ (random o n < 1)%Q) ->
  scores_ok (heap w) (games w) ->
  scores_ok (heap (on_join o c msg w).1.2) (games (on_join o c msg w).1.2).
Proof.
  intros Hrnd [Hh Hfd]. unfold on_join.
  destruct (join_walletAddress msg) as [wallet|]; [|by split].
  destruct (truthy wallet); [|by split].
  destruct (reads_inherited (join_gameId msg) w); [by split|].
  cbn [fst snd games heap].
  set (g := default empty_game (obj_get (join_gameId msg) (games w))).
  set (fd := if (length (obj_keys (food g)) =? 0)%nat then _ else _).
  assert (forall k f, In (k, f) (food g) -> 1 <= Food.score f <= 10) as Hg.
  { unfold g. destruct (obj_get (join_gameId msg) (games w)) as [g0|] eqn:Hg0;
      cbn [default]; [|intros k f []].
    intros k f Hin. eapply Hfd; [|exact Hin]. by apply obj_get_Some_In. }
  assert (forall k f, In (k, f) fd -> 1 <= Food.score f <= 10) as Hfd1.
  { unfold fd. destruct (_ =? _)%nat; [|exact Hg].
    apply (fold_left_invariant
             (fun fd => forall k f, In (k, f) fd -> 1 <= Food.score f <= 10)
             (spawn_food o)); [|exact Hg].
    intros fd0 i _ Hfd0 k f Hin. unfold spawn_food in Hin.
    apply obj_set_In in Hin as [Heq|Hin]; [|exact (Hfd0 k f Hin)].
    injection Heq as -> ->. apply randScore_range; apply Hrnd. }
  clearbody fd. split.
  - apply Forall_app. split; [exact Hh|].
    apply List.Forall_cons; [cbn [Player.score]; lia | apply List.Forall_nil].
  - intros gid g0 k f Hg0 Hin. apply obj_set_In in Hg0 as [Heq|Hg0].
    + injection Heq as -> ->. exact (Hfd1 k f Hin).
    + exact (Hfd gid g0 k f Hg0 Hin).
Qed.

(** In every reachable world all player scores are non-negative and all
    food scores lie between 1 and 10. *)
Lemma reachable_scores_ok (w : world) :
  reachable w -> scores_ok (heap w) (games w).
Proof.
  induction 1 as [|o c msg w Hrnd _ IH|c msg w _ IH|c w _ IH].
  - split; [constructor|]. intros gid g k f [].
  - by apply on_join_scores.
  - by apply on_move_scores.
  - by apply on_disconnect_scores.
Qed.


(** ** Conservation while the mover is alive *)

Lemma obj_delete_absent {V : Type} (k : string) (o : obj V) :
  k ∉ obj_keys o -> obj_delete k o = o.
Proof.
  unfold obj_keys. induction o as [|[k0 v0] o IH]; simpl; [done|].
  rewrite not_elem_of_cons. intros [Hne Hk].
  destruct (String.eqb_spec k0 k) as [?|_]; [congruence|]. by rewrite IH.
Qed.

Lemma total_of_delete {V : Type} (weight : V -> Z) (k : string) (v : V) (o : obj V) :
  NoDup (obj_keys o) -> obj_get k o = Some v ->
  total_of weight (obj_values (obj_delete k o))
  = total_of weight (obj_values o) - weight v.
Proof.
  unfold obj_keys, obj_values, total_of.
  induction o as [|[k0 v0] o IH]; simpl; [done|].
  intros Hnd Hk. apply NoDup_cons in Hnd as [Hk0 Hnd].
  destruct (String.eqb_spec k0 k) as [->|Hne].
  - injection Hk as ->. rewrite obj_delete_absent by done. lia.
  - simpl. rewrite IH by done. lia.
Qed.

Lemma score_at_insert (h : list Player.t) (l l' : loc) (p p' : Player.t) :
  h !! l = Some p ->
  score_at (<[l := p']> h) l'
  = if decide (l = l') then Player.score p' else score_at h l'.
Proof.
  intros Hl. unfold score_at. destruct (decide (l = l')) as [<-|Hne].
  - rewrite list_lookup_insert_eq; [done|]. by eapply lookup_lt_Some.
  - by rewrite list_lookup_insert_ne.
Qed.

Lemma total_of_insert_absent (h : list Player.t) (l : loc) (p p' : Player.t)
    (ls : list loc) :
  h !! l = Some p -> l ∉ ls ->
  total_of (score_at (<[l := p']> h)) ls = total_of (score_at h) ls.
Proof.
  intros Hl. unfold total_of.
  induction ls as [|l0 ls IH]; simpl; [done|].
  rewrite not_elem_of_cons. intros [Hne Hls].
  rewrite (score_at_insert _ _ _ p) by done.
  destruct (decide (l = l0)); [done|]. by rewrite IH.
Qed.

Lemma total_of_add_score (h : list Player.t) (l : loc) (p : Player.t) (n : Z)
    (ls : list loc) :
  h !! l = Some p -> NoDup ls -> l ∈ ls ->
  total_of (score_at (<[l := Player.add_score n p]> h)) ls
  = total_of (score_at h) ls + n.
Proof.
  intros Hl. induction ls as [|l0 ls IH]; intros Hnd Hin.
  - by apply elem_of_nil in Hin.
  - apply NoDup_cons in Hnd as [Hl0 Hnd]. unfold total_of in *. simpl.
    rewrite (score_at_insert _ _ _ p) by done.
    destruct (decide (l = l0)) as [<-|Hne].
    + pose proof (total_of_insert_absent h l p (Player.add_score n p) ls Hl Hl0)
        as Habs. unfold total_of in Habs. rewrite Habs.
      unfold score_at. rewrite Hl. simpl. lia.
    + apply elem_of_cons in Hin as [?|Hin]; [done|].
      rewrite IH by done. lia.
Qed.

Lemma obj_get_values {V : Type} (k : string) (v : V) (o : obj V) :
  obj_get k o = Some v -> v ∈ obj_values o.
Proof.
  intros Hk. apply list_elem_of_In.
  apply (in_map snd _ (k, v)). by apply obj_get_Some_In.
Qed.

Lemma obj_values_injective {V : Type} (k1 k2 : string) (v : V) (o : obj V) :
  NoDup (obj_values o) ->
  obj_get k1 o = Some v -> obj_get k2 o = Some v -> k1 = k2.
Proof.
  intros Hnd H1 H2.
  pose proof (NoDup_map_injective snd o (k1, v) (k2, v) Hnd
                (obj_get_Some_In _ _ _ H1) (obj_get_Some_In _ _ _ H2) eq_refl)
    as Heq.
  by injection Heq.
Qed.

(** The food callback keeps the sum of the live scores when the mover is
    in the dictionary and the food object is the one stored under its id. *)
Lemma food_step_conserves (gameId playerId : string) (player : loc)
    (st : mstate) (f : Food.t) :
  game_ok (m_game st) ->
  obj_get playerId (players (m_game st)) = Some player ->
  obj_get (Food.id f) (food (m_game st)) = Some f ->
  let st' := food_step gameId player st f in
  live_total (m_game st') (m_heap st') = live_total (m_game st) (m_heap st).
Proof.
  intros (Hpk & Hpv & Hfk) Hpl Hf. unfold food_step.
  destruct (m_heap st !! player) as [p|] eqn:Hp; [|done].
  destruct (hypot_lt _ _); [|done]. unfold live_total. simpl.
  rewrite (total_of_add_score _ _ p) by eauto using obj_get_values.
  rewrite (total_of_delete _ _ f) by done. lia.
Qed.

(** The player callback keeps the sum of the live scores as long as the
    mover and the other player are both in the dictionary. *)
Lemma player_step_conserves (gameId playerId otherId : string)
    (player other : loc) (st : mstate) :
  game_ok (m_game st) ->
  obj_get playerId (players (m_game st)) = Some player ->
  obj_get otherId (players (m_game st)) = Some other ->
  let st' := player_step gameId playerId player st (otherId, other) in
  live_total (m_game st') (m_heap st') = live_total (m_game st) (m_heap st).
Proof.
  intros (Hpk & Hpv & Hfk) Hpl Hot. unfold player_step.
  destruct (String.eqb_spec otherId playerId) as [?|Hid]; [done|].
  destruct (m_heap st !! player) as [p|] eqn:Hp; [|done].
  destruct (m_heap st !! other) as [o|] eqn:Ho; [|done].
  assert (player <> other) as Hne.
  { intros <-. apply Hid. by eapply obj_values_injective. }
  cbv zeta. destruct (hypot_lt _ _); [|done].
  destruct (Player.score o <? Player.score p).
  - unfold live_total. simpl.
    rewrite (total_of_delete _ _ other) by done.
    rewrite (total_of_add_score _ _ p) by eauto using obj_get_values.
    rewrite (score_at_insert _ _ _ p) by done.
    destruct (decide (player = other)); [done|].
    unfold score_at at 2. rewrite Ho. lia.
  - destruct (Player.score p <? Player.score o); [|done].
    unfold live_total. simpl.
    rewrite (total_of_delete _ _ player) by done.
    rewrite (total_of_add_score _ _ o) by eauto using obj_get_values.
    rewrite (score_at_insert _ _ _ o) by done.
    destruct (decide (other = player)); [done|].
    unfold score_at at 2. rewrite Hp. lia.
Qed.


(* ===================================================================== *)
(** * Part III: further properties of the handlers *)
(* ===================================================================== *)

(** ** What [join] does *)

(** A [join] that throws leaves the world as it is and sends nothing. *)
Lemma on_join_thrown (o : oracle) (c : conn) (msg : join_msg) (w : world)
    (wallet : string) :
  join_walletAddress msg = Some wallet -> truthy wallet = true ->
  reads_inherited (join_gameId msg) w = true ->
  on_join o c msg w
  = (mkConn (Some (join_gameId msg)) (Some (genId o 0)) (conn_socketId c), w, []).
Proof. intros Hw Ht Hinh. unfold on_join. by rewrite Hw, Ht, Hinh. Qed.

(** A session id that is an own property of [games] reads its game. *)
Lemma reads_own (gameId : string) (w : world) (g : game) :
  obj_get gameId (games w) = Some g -> reads_inherited gameId w = false.
Proof.
  intros Hg. unfold reads_inherited, obj_has. rewrite Hg. apply andb_false_r.
Qed.

Lemma on_join_processed (o : oracle) (c : conn) (msg : join_msg) (w : world)
    (wallet : string) :
  join_walletAddress msg = Some wallet -> truthy wallet = true ->
  reads_inherited (join_gameId msg) w = false ->
  exists fd,
    let g := default empty_game (obj_get (join_gameId msg) (games w)) in
    let newp := Player.mk (join_name msg) (CNum (inject_Z 500))
                          (CNum (inject_Z 500)) 0 wallet (conn_socketId c) in
    let g' := mkGame (obj_set (genId o 0) (length (heap w)) (players g)) fd in
    let w' := mkWorld (obj_set (join_gameId msg) g' (games w)) (heap w ++ [newp]) in
    on_join o c msg w
    = (mkConn (Some (join_gameId msg)) (Some (genId o 0)) (conn_socketId c),
       w',
       [JoinRoom (join_gameId msg); state_msg (join_gameId msg) g' (heap w');
        ConsoleLog LogJoin]).
Proof.
  intros Hw Ht Hown. unfold on_join. rewrite Hw, Ht, Hown.
  set (g := default empty_game (obj_get (join_gameId msg) (games w))).
  set (fd := if (length (obj_keys (food g)) =? 0)%nat then _ else _).
  exists fd. cbv zeta. unfold broadcastState. cbn [games heap].
  by rewrite obj_get_set_eq.
Qed.

(** X1: a [join] with a non-empty wallet address whose session id reads a
    game object or nothing in [games] (not an inherited property) appends
    one player object to the heap, placed at (500, 500) with score 0 and
    the name, wallet address and socket id of the request; it stores it in
    the session under the drawn id, points the connection to that session
    and id, so that (for non-empty ids) the next [move] of the connection
    finds it; and the broadcast it sends already lists the new player. *)
Theorem join_registers_the_player (o : oracle) (c : conn) (msg : join_msg)
    (w : world) (wallet : string) :
  join_walletAddress msg = Some wallet -> truthy wallet = true ->
  reads_inherited (join_gameId msg) w = false ->
  let r := on_join o c msg w in
  let newp := Player.mk (join_name msg) (CNum (inject_Z 500))
                        (CNum (inject_Z 500)) 0 wallet (conn_socketId c) in
  heap r.1.2 = heap w ++ [newp] /\
  r.1.1 = mkConn (Some (join_gameId msg)) (Some (genId o 0)) (conn_socketId c) /\
  exists g',
    obj_get (join_gameId msg) (games r.1.2) = Some g' /\
    obj_get (genId o 0) (players g') = Some (length (heap w)) /\
    (truthy (join_gameId msg) = true -> truthy (genId o 0) = true ->
     find_mover r.1.1 r.1.2
     = Some (join_gameId msg, genId o 0, g', length (heap w))) /\
    exists vs,
      r.2 = [JoinRoom (join_gameId msg);
             EmitState (join_gameId msg) vs (obj_values (food g'));
             ConsoleLog LogJoin] /\
      In (mkView (genId o 0) (join_name msg) (CNum (inject_Z 500))
                 (CNum (inject_Z 500)) 0 wallet) vs.
Proof.
  intros Hw Ht Hown r newp.
  destruct (on_join_processed o c msg w wallet Hw Ht Hown) as (fd & Heq).
  cbv zeta in Heq. unfold r. rewrite Heq. clear Heq. cbn [fst snd games heap].
  split; [done|]. split; [done|]. eexists. split; [apply obj_get_set_eq|].
  cbn [players food]. split; [apply obj_get_set_eq|]. split.
  - intros Hg Hp. unfold find_mover. cbn [conn_gameId conn_playerId games].
    rewrite Hg, Hp. cbn [andb]. rewrite obj_get_set_eq. cbn [mbind option_bind players].
    by rewrite obj_get_set_eq.
  - unfold state_msg. cbn [players food]. eexists. split; [reflexivity|].
    apply list_elem_of_In, list_elem_of_omap.
    exists (genId o 0, length (heap w)). split.
    + apply list_elem_of_In, obj_get_Some_In, obj_get_set_eq.
    + unfold view_of. cbn [fst snd].
      by rewrite (list_lookup_middle (heap w) [] newp).
Qed.

Lemma join_registers_the_player_witness :
  let r := on_join (later_oracle "a") (mkConn None None "s1")
                   (mkJoin "g1" "ann" (Some "0xA"%string)) (mkWorld [] []) in
  heap r.1.2 = [Player.mk "ann" (CNum (inject_Z 500)) (CNum (inject_Z 500))
                          0 "0xA" "s1"] /\
  r.1.1 = mkConn (Some "g1"%string) (Some "a"%string) "s1".
Proof.
  intros r.
  destruct (join_registers_the_player (later_oracle "a") (mkConn None None "s1")
              (mkJoin "g1" "ann" (Some "0xA"%string)) (mkWorld [] []) "0xA"
              eq_refl eq_refl eq_refl) as (Hh & Hc & _).
  split; [exact Hh|exact Hc].
Defined.

(** X2: a [join] whose session id is the empty string, or that draws the
    empty string as player id for a session id that reads a game object
    or nothing in [games] (not an inherited property), does insert the
    player, but leaves the connection with a falsy id: every later [move]
    and the [disconnect] of that connection are ignored, in whatever world
    they arrive, so the player can neither move nor be removed by
    leaving. *)
Theorem join_with_empty_id_is_stuck (o : oracle) (c : conn) (msg : join_msg)
    (w : world) (wallet : string) :
  join_walletAddress msg = Some wallet -> truthy wallet = true ->
  join_gameId msg = EmptyString \/
  (genId o 0 = EmptyString /\ reads_inherited (join_gameId msg) w = false) ->
  let r := on_join o c msg w in
  (exists g', obj_get (join_gameId msg) (games r.1.2) = Some g' /\
              obj_get (genId o 0) (players g') = Some (length (heap w))) /\
  forall w2 m,
    on_move r.1.1 m w2 = (w2, []) /\ on_disconnect r.1.1 w2 = (w2, []).
Proof.
  intros Hw Ht Hempty r.
  assert (reads_inherited (join_gameId msg) w = false) as Hown.
  { destruct Hempty as [-> | [_ Hown]]; [done|exact Hown]. }
  destruct (on_join_processed o c msg w wallet Hw Ht Hown) as (fd & Heq).
  cbv zeta in Heq. unfold r. rewrite Heq. clear Heq. cbn [fst snd games heap].
  split.
  - eexists. split; [apply obj_get_set_eq|]. apply obj_get_set_eq.
  - intros w2 m. unfold on_move, on_disconnect.
    cbn [conn_gameId conn_playerId].
    assert (truthy (join_gameId msg) && truthy (genId o 0) = false) as ->; [|done].
    destruct Hempty as [-> | [-> _]]; [done|]. apply andb_false_r.
Qed.

Lemma join_with_empty_id_is_stuck_witness :
  let r := on_join (later_oracle "a") (mkConn None None "s1")
                   (mkJoin "" "ann" (Some "0xA"%string)) (mkWorld [] []) in
  on_disconnect r.1.1 r.1.2 = (r.1.2, []) /\
  obj_keys (games r.1.2) = [EmptyString].
Proof.
  intros r. split; [|reflexivity].
  destruct (join_with_empty_id_is_stuck (later_oracle "a") (mkConn None None "s1")
              (mkJoin "" "ann" (Some "0xA"%string)) (mkWorld [] []) "0xA"
              eq_refl eq_refl (or_introl eq_refl)) as [_ Hstuck].
  exact (proj2 (Hstuck r.1.2 to_spawn)).
Defined.

(** X3: a processed [join] leaves everything else in place: the other
    sessions are untouched, every entry of the joined session under an id
    other than the drawn one is kept, and every player object that
    existed keeps its location and its fields. *)
Theorem join_keeps_the_others (o : oracle) (c : conn) (msg : join_msg)
    (w : world) (wallet : string) :
  join_walletAddress msg = Some wallet -> truthy wallet = true ->
  let w' := (on_join o c msg w).1.2 in
  (forall gid, gid <> join_gameId msg ->
               obj_get gid (games w') = obj_get gid (games w)) /\
  (forall g g' k,
      obj_get (join_gameId msg) (games w) = Some g ->
      obj_get (join_gameId msg) (games w') = Some g' ->
      k <> genId o 0 ->
      obj_get k (players g') = obj_get k (players g)) /\
  (forall l p, heap w !! l = Some p -> heap w' !! l = Some p).
Proof.
  intros Hw Ht w'.
  destruct (reads_inherited (join_gameId msg) w) eqn:Hown.
  { unfold w'. rewrite (on_join_thrown o c msg w wallet Hw Ht Hown).
    cbn [fst snd]. split; [done|]. split; [|done]. congruence. }
  destruct (on_join_processed o c msg w wallet Hw Ht Hown) as (fd & Heq).
  cbv zeta in Heq. unfold w'. rewrite Heq. clear Heq. cbn [fst snd games heap].
  split; [|split].
  - intros gid Hne. by apply obj_get_set_ne.
  - intros g g' k Hg Hg' Hk. rewrite obj_get_set_eq in Hg'.
    injection Hg' as <-. cbn [players]. rewrite Hg. cbn [default].
    by apply obj_get_set_ne.
  - intros l p Hl. by apply lookup_app_l_Some.
Qed.

Lemma join_keeps_the_others_witness :
  let w' := (on_join (later_oracle "d") (mkConn None None "s4")
                     (mkJoin "g1" "dan" (Some "0xD"%string)) arena).1.2 in
  heap w' !! 1%nat = heap arena !! 1%nat.
Proof.
  intros w'.
  destruct (join_keeps_the_others (later_oracle "d") (mkConn None None "s4")
              (mkJoin "g1" "dan" (Some "0xD"%string)) arena "0xD"
              eq_refl eq_refl) as (_ & _ & Hh).
  apply (Hh 1%nat). reflexivity.
Defined.


(** ** What [disconnect] does *)

Lemma find_mover_Some (c : conn) (w : world) (gameId playerId : string)
    (g : game) (l : loc) :
  find_mover c w = Some (gameId, playerId, g, l) ->
  conn_gameId c = Some gameId /\ conn_playerId c = Some playerId /\
  truthy gameId && truthy playerId = true /\
  obj_get gameId (games w) = Some g /\ obj_get playerId (players g) = Some l.
Proof.
  unfold find_mover.
  destruct (conn_gameId c) as [gid|]; [|done].
  destruct (conn_playerId c) as [pid|]; [|done].
  destruct (truthy gid && truthy pid) eqn:Ht; [|done].
  destruct (obj_get gid (games w)) as [g0|] eqn:Hg; [|done]. simpl.
  destruct (obj_get pid (players g0)) as [l0|] eqn:Hl; [|done]. simpl.
  intros [= <- <- <- <-]. by rewrite Ht.
Qed.

(** X4: the [disconnect] of a connection whose player is in its session
    deletes that entry and nothing else; it logs, then broadcasts the
    session without the player (also when nobody is left), and only then
    drops the session from [games] if it has no player left.  Afterwards
    the connection has no player any more. *)
Theorem disconnect_removes_the_player (c : conn) (w : world)
    (gameId playerId : string) (g : game) (l : loc) :
  find_mover c w = Some (gameId, playerId, g, l) ->
  let r := on_disconnect c w in
  let g' := mkGame (obj_delete playerId (players g)) (food g) in
  heap r.1 = heap w /\
  r.2 = [ConsoleLog LogLeave; state_msg gameId g' (heap w)] /\
  (forall gid, gid <> gameId -> obj_get gid (games r.1) = obj_get gid (games w)) /\
  obj_get gameId (games r.1)
  = match players g' with [] => None | _ :: _ => Some g' end /\
  find_mover c r.1 = None.
Proof.
  intros Hm r g'.
  destruct (find_mover_Some _ _ _ _ _ _ Hm) as (Hcg & Hcp & Ht & Hg & Hl).
  assert (r = (if (length (obj_keys (players g')) =? 0)%nat
               then mkWorld (obj_delete gameId (obj_set gameId g' (games w))) (heap w)
               else mkWorld (obj_set gameId g' (games w)) (heap w),
               [ConsoleLog LogLeave; state_msg gameId g' (heap w)])) as Hr.
  { unfold r, on_disconnect. rewrite Hcg, Hcp, Ht, Hg. unfold obj_has.
    rewrite Hl. cbv zeta. unfold broadcastState. cbn [games heap].
    by rewrite obj_get_set_eq. }
  rewrite Hr. cbn [fst snd].
  assert (obj_get playerId (players g') = None) as Hgone.
  { unfold g'. cbn [players]. rewrite obj_get_delete. by rewrite String.eqb_refl. }
  assert (forall gs, find_mover c (mkWorld gs (heap w)) = None <->
                     (obj_get gameId gs = None \/
                      exists g0, obj_get gameId gs = Some g0 /\
                                 obj_get playerId (players g0) = None)) as Hfm.
  { intros gs. unfold find_mover. rewrite Hcg, Hcp, Ht. cbn [games].
    destruct (obj_get gameId gs) as [g0|]; simpl.
    - destruct (obj_get playerId (players g0)) eqn:Hp0; simpl.
      + split; [done|]. intros [?|(g1 & [= <-] & Hn)]; congruence.
      + split; [|done]. intros _. right. by exists g0.
    - split; [|done]. intros _. by left. }
  destruct (players g') as [|e ps] eqn:Hps; cbn [obj_keys map length Nat.eqb].
  - cbn [games heap]. split; [done|]. split; [done|]. split; [|split].
    + intros gid Hne. rewrite obj_get_delete.
      destruct (String.eqb_spec gameId gid); [congruence|].
      by apply obj_get_set_ne.
    + rewrite obj_get_delete. by rewrite String.eqb_refl.
    + apply Hfm. left. rewrite obj_get_delete. by rewrite String.eqb_refl.
  - cbn [games heap]. split; [done|]. split; [done|]. split; [|split].
    + intros gid Hne. by apply obj_get_set_ne.
    + apply obj_get_set_eq.
    + apply Hfm. right. exists g'. split; [apply obj_get_set_eq|].
      by rewrite Hps.
Qed.

Lemma disconnect_removes_the_player_witness :
  let r := on_disconnect arena_conn arena in
  obj_keys (players (session_g1 r.1)) = ["a"; "b"; "c"]%string /\
  find_mover arena_conn r.1 = None.
Proof.
  intros r.
  destruct (disconnect_removes_the_player arena_conn arena "g1" "p"
              (session_g1 arena) 0%nat eq_refl) as (_ & _ & _ & Hg & Hm).
  split; [|exact Hm]. unfold session_g1, r. rewrite Hg. reflexivity.
Defined.

(** X5: the [disconnect] of a connection that has no player in its
    session (it never joined, its session is gone, or its player was
    eaten) does nothing: no deletion, no log line, no broadcast, and the
    session is not dropped. *)
Theorem disconnect_without_player_is_ignored (c : conn) (w : world) :
  find_mover c w = None -> on_disconnect c w = (w, []).
Proof.
  unfold find_mover, on_disconnect.
  destruct (conn_gameId c) as [gid|]; [|done].
  destruct (conn_playerId c) as [pid|]; [|done].
  destruct (truthy gid && truthy pid); [|done].
  destruct (obj_get gid (games w)) as [g0|]; [|done]. simpl.
  unfold obj_has. by destruct (obj_get pid (players g0)).
Qed.

Lemma disconnect_without_player_is_ignored_witness :
  let w' := (on_move arena_conn to_spawn arena).1 in
  on_disconnect arena_conn w' = (w', []).
Proof.
  intros w'. apply disconnect_without_player_is_ignored. reflexivity.
Defined.


(** ** Sessions and food of the reachable worlds *)

Lemma fold_left_rest {A B : Type} (I : list B -> A -> Prop) (f : A -> B -> A) :
  (forall b rest a, I (b :: rest) a -> I rest (f a b)) ->
  forall l a, I l a -> I [] (fold_left f l a).
Proof.
  intros Hstep l. induction l as [|b l IH]; intros a Ha; simpl; [done|].
  apply IH. by apply Hstep.
Qed.

Lemma obj_keys_delete {V : Type} (k k' : string) (o : obj V) :
  k' ∈ obj_keys (obj_delete k o) -> k' ∈ obj_keys o.
Proof.
  unfold obj_keys. induction o as [|[k0 v0] o IH]; simpl; [done|].
  destruct (String.eqb k0 k); simpl.
  - intros Hin. right. by apply IH.
  - rewrite !elem_of_cons. intros [->|Hin]; [by left|]. right. by apply IH.
Qed.

Lemma NoDup_keys_delete {V : Type} (k : string) (o : obj V) :
  NoDup (obj_keys o) -> NoDup (obj_keys (obj_delete k o)).
Proof.
  induction o as [|[k0 v0] o IH]; simpl; [done|].
  intros Hnd. apply NoDup_cons in Hnd as [Hk0 Hnd].
  destruct (String.eqb k0 k); [by apply IH|].
  apply NoDup_cons. split; [|by apply IH].
  intros Hin. apply Hk0. by eapply obj_keys_delete.
Qed.

Lemma NoDup_keys_set {V : Type} (k : string) (v : V) (o : obj V) :
  NoDup (obj_keys o) -> NoDup (obj_keys (obj_set k v o)).
Proof.
  intros Hnd. destruct (obj_get k o) as [v0|] eqn:Hk.
  - by rewrite (obj_keys_set_present k v v0).
  - unfold obj_keys.
    rewrite (Permutation_map fst (obj_set_fresh_perm k v o Hk)). simpl.
    apply NoDup_cons. split; [|done]. by apply obj_get_None_keys.
Qed.

Lemma obj_get_present {V : Type} (k : string) (o : obj V) :
  k ∈ obj_keys o -> obj_get k o <> None.
Proof. intros Hin Hnone. by apply obj_get_None_keys in Hnone. Qed.

Lemma obj_get_delete_ne {V : Type} (k k' : string) (o : obj V) :
  k' <> k -> obj_get k (obj_delete k' o) = obj_get k o.
Proof.
  intros Hne. rewrite obj_get_delete. by destruct (String.eqb_spec k' k).
Qed.

Lemma length_obj_delete_le {V : Type} (k : string) (o : obj V) :
  (length (obj_delete k o) <= length o)%nat.
Proof.
  induction o as [|[k0 v0] o IH]; simpl; [done|].
  destruct (String.eqb k0 k); simpl; lia.
Qed.

Lemma length_obj_set_le {V : Type} (k : string) (v : V) (o : obj V) :
  (length (obj_set k v o) <= S (length o))%nat.
Proof.
  destruct (obj_get k o) as [v0|] eqn:Hk.
  - pose proof (obj_keys_set_present k v v0 o Hk) as Hkeys.
    apply (f_equal length) in Hkeys. unfold obj_keys in Hkeys.
    rewrite !length_map in Hkeys. lia.
  - rewrite (Permutation_length (obj_set_fresh_perm k v o Hk)). simpl. lia.
Qed.

(** The dictionary of players after one callback of the player pass. *)
Lemma player_step_players (gameId playerId otherId : string) (player other : loc)
    (st : mstate) :
  let ps' := players (m_game (player_step gameId playerId player st (otherId, other))) in
  ps' = players (m_game st) \/
  (otherId <> playerId /\
   (ps' = obj_delete otherId (players (m_game st)) \/
    ps' = obj_delete playerId (players (m_game st)))).
Proof.
  unfold player_step.
  destruct (String.eqb_spec otherId playerId) as [?|Hid]; [by left|].
  destruct (m_heap st !! player) as [p|]; [|by left].
  destruct (m_heap st !! other) as [o|]; [|by left].
  cbv zeta. destruct (hypot_lt _ _); [|by left].
  destruct (_ <? _); [right; split; [done|by left]|].
  destruct (_ <? _); [right; split; [done|by right]|by left].
Qed.

Lemma food_step_players (gameId : string) (player : loc) (st : mstate) (f : Food.t) :
  players (m_game (food_step gameId player st f)) = players (m_game st).
Proof.
  unfold food_step. destruct (m_heap st !! player); [|done].
  by destruct (hypot_lt _ _).
Qed.

Lemma food_pass_players (gameId : string) (player : loc) (st : mstate) :
  players (m_game (food_pass gameId player st)) = players (m_game st).
Proof.
  unfold food_pass.
  apply (fold_left_invariant
           (fun a => players (m_game a) = players (m_game st))); [|done].
  intros a f _ Ha. by rewrite food_step_players.
Qed.

(** The player pass never empties the dictionary: the mover or whoever ate
    the mover stays. *)
Lemma player_pass_session_ok (gameId playerId : string) (player : loc) (st : mstate) :
  NoDup (obj_keys (players (m_game st))) ->
  obj_get playerId (players (m_game st)) <> None ->
  session_ok (m_game (player_pass gameId playerId player st)).
Proof.
  intros Hnd Hmover. unfold player_pass.
  set (I := fun (rest : list (string * loc)) (a : mstate) =>
              NoDup (obj_keys (players (m_game a))) /\
              NoDup (map fst rest) /\
              (forall k, k ∈ map fst rest -> k <> playerId ->
                         obj_get k (players (m_game a)) <> None) /\
              exists k, obj_get k (players (m_game a)) <> None /\
                        (k = playerId \/ k ∉ map fst rest)).
  assert (I [] (fold_left (player_step gameId playerId player)
                          (obj_entries (players (m_game st))) st))
    as (Hnd' & _ & _ & k & Hk & _).
  { apply (fold_left_rest I).
    - intros [otherId other] rest a (Hn & Hr & Hall & k & Hk & Hkr).
      cbn [map fst] in Hr, Hall, Hkr. apply NoDup_cons in Hr as [Ho Hr].
      assert (forall k0, k0 ∈ map fst rest -> k0 <> otherId) as Hfresh.
      { intros k0 Hin ->. by apply Ho. }
      destruct (player_step_players gameId playerId otherId player other a)
        as [Heq | (Hid & [Heq | Heq])]; cbv zeta in Heq; unfold I; rewrite Heq.
      + split; [done|]. split; [done|]. split.
        * intros k0 Hin. apply Hall. by right.
        * exists k. split; [done|]. destruct Hkr as [?|Hkr]; [by left|].
          right. intros Hin. apply Hkr. by right.
      + split; [by apply NoDup_keys_delete|]. split; [done|]. split.
        * intros k0 Hin Hne. rewrite obj_get_delete_ne by (symmetry; by apply Hfresh).
          apply Hall; [by right|done].
        * exists k. destruct Hkr as [->|Hkr].
          -- split; [by rewrite obj_get_delete_ne|by left].
          -- split.
             ++ rewrite obj_get_delete_ne; [done|]. intros ->. apply Hkr. by left.
             ++ right. intros Hin. apply Hkr. by right.
      + split; [by apply NoDup_keys_delete|]. split; [done|]. split.
        * intros k0 Hin Hne. rewrite obj_get_delete_ne by done.
          apply Hall; [by right|done].
        * exists otherId. split; [|by right].
          rewrite obj_get_delete_ne by done. apply Hall; [by left|done].
    - unfold I, obj_entries. split; [done|]. split; [exact Hnd|]. split.
      + intros k Hin _. by apply obj_get_present.
      + exists playerId. split; [done|by left]. }
  split; [done|]. intros Hnil. rewrite Hnil in Hk. by apply Hk.
Qed.

Lemma on_move_sessions (c : conn) (msg : move_msg) (w : world) :
  (forall gid g, obj_get gid (games w) = Some g -> session_ok g) ->
  forall gid g, obj_get gid (games (on_move c msg w).1) = Some g -> session_ok g.
Proof.
  intros Hok.
  destruct (on_move_shape c msg w)
    as [-> | (gameId & playerId & g & player & st & _ & _ & Hg & Hpl & Hst & ->)];
    [done|].
  intros gid g0 Hg0. cbn [games] in Hg0.
  destruct (decide (gameId = gid)) as [<-|Hne].
  - rewrite obj_get_set_eq in Hg0. injection Hg0 as <-. rewrite Hst.
    destruct (Hok _ _ Hg) as [Hnd _].
    apply player_pass_session_ok; rewrite food_pass_players; simpl; [done|].
    by rewrite Hpl.
  - rewrite obj_get_set_ne in Hg0 by done. by eapply Hok.
Qed.

Lemma on_disconnect_sessions (c : conn) (w : world) :
  (forall gid g, obj_get gid (games w) = Some g -> session_ok g) ->
  forall gid g, obj_get gid (games (on_disconnect c w).1) = Some g -> session_ok g.
Proof.
  intros Hok. unfold on_disconnect.
  destruct (conn_gameId c) as [gameId|]; [|done].
  destruct (conn_playerId c) as [playerId|]; [|done].
  destruct (truthy gameId && truthy playerId); [|done].
  destruct (obj_get gameId (games w)) as [g|] eqn:Hg; [|done].
  destruct (obj_has playerId (players g)); [|done]. cbv zeta. cbn [fst].
  set (g' := mkGame (obj_delete playerId (players g)) (food g)).
  destruct (_ =? _)%nat eqn:Hlen; cbn [games heap]; intros gid g0 Hg0.
  - apply obj_get_delete_Some in Hg0 as [Hne Hg0].
    rewrite obj_get_set_ne in Hg0 by done. by eapply Hok.
  - destruct (decide (gameId = gid)) as [<-|Hne].
    + rewrite obj_get_set_eq in Hg0. injection Hg0 as <-. split.
      * apply NoDup_keys_delete. by destruct (Hok _ _ Hg).
      * intros Hnil. by rewrite Hnil in Hlen.
    + rewrite obj_get_set_ne in Hg0 by done. by eapply Hok.
Qed.

Lemma on_join_sessions (o : oracle) (c : conn) (msg : join_msg) (w : world) :
  (forall gid g, obj_get gid (games w) = Some g -> session_ok g) ->
  forall gid g, obj_get gid (games (on_join o c msg w).1.2) = Some g -> session_ok g.
Proof.
  intros Hok.
  destruct (join_walletAddress msg) as [wallet|] eqn:Hw;
    [|by unfold on_join; rewrite Hw].
  destruct (truthy wallet) eqn:Ht; [|by unfold on_join; rewrite Hw, Ht].
  destruct (reads_inherited (join_gameId msg) w) eqn:Hown;
    [by rewrite (on_join_thrown o c msg w wallet Hw Ht Hown)|].
  destruct (on_join_processed o c msg w wallet Hw Ht Hown) as (fd & Heq).
  cbv zeta in Heq. rewrite Heq. clear Heq. cbn [fst snd games].
  intros gid g0 Hg0. destruct (decide (join_gameId msg = gid)) as [<-|Hne].
  - rewrite obj_get_set_eq in Hg0. injection Hg0 as <-. split; cbn [players].
    + apply NoDup_keys_set.
      destruct (obj_get (join_gameId msg) (games w)) as [g|] eqn:Hg; simpl.
      * by destruct (Hok _ _ Hg).
      * apply NoDup_nil_2.
    + intros Hnil.
      pose proof (obj_get_set_eq (genId o 0) (length (heap w))
                    (players (default empty_game
                                (obj_get (join_gameId msg) (games w))))) as Hk.
      by rewrite Hnil in Hk.
  - rewrite obj_get_set_ne in Hg0 by done. by eapply Hok.
Qed.

(** X6: in every reachable world, every session of [games] has at least
    one player and no player id twice: a session that loses its last
    player is dropped, and a [move] never removes everybody (the mover or
    whoever ate the mover stays). *)
Theorem reachable_sessions_have_players (w : world) :
  reachable w -> forall gid g, obj_get gid (games w) = Some g -> session_ok g.
Proof.
  induction 1 as [|o c msg w _ _ IH|c msg w _ IH|c w _ IH].
  - intros gid g [=].
  - by apply on_join_sessions.
  - by apply on_move_sessions.
  - by apply on_disconnect_sessions.
Qed.

Lemma reachable_sessions_have_players_witness :
  session_ok (session_g1 (on_move arena_conn to_spawn arena).1).
Proof.
  apply (reachable_sessions_have_players (on_move arena_conn to_spawn arena).1
           (reach_move arena_conn to_spawn arena arena_reachable) "g1").
  reflexivity.
Defined.

Lemma randPos_range (r1 r2 : Q) :
  (0 <= r1)%Q /\ (r1 < 1)%Q -> (0 <= r2)%Q /\ (r2 < 1)%Q ->
  (0 <= (randPos r1 r2).1)%Q /\ ((randPos r1 r2).1 < inject_Z 1920)%Q /\
  (0 <= (randPos r1 r2).2)%Q /\ ((randPos r1 r2).2 < inject_Z 1080)%Q.
Proof.
  intros [H1 H1'] [H2 H2']. unfold randPos. cbn [fst snd].
  change (inject_Z 1920) with (1920 # 1)%Q.
  change (inject_Z 1080) with (1080 # 1)%Q.
  repeat split; Lqa.lra.
Qed.

Lemma food_ok_delete (ps ps' : obj loc) (fd : obj Food.t) (k : string) :
  food_ok (mkGame ps fd) -> food_ok (mkGame ps' (obj_delete k fd)).
Proof.
  intros (Hnd & Hlen & Hall). cbn [food] in *. split; [|split]; cbn [food].
  - by apply NoDup_keys_delete.
  - pose proof (length_obj_delete_le k fd). lia.
  - intros k0 f Hin. apply Hall. by eapply obj_delete_In.
Qed.

Lemma food_step_food_ok (gameId : string) (player : loc) (st : mstate) (f : Food.t) :
  food_ok (m_game st) -> food_ok (m_game (food_step gameId player st f)).
Proof.
  intros Hok. unfold food_step. destruct (m_heap st !! player); [|done].
  destruct (hypot_lt _ _); [|done]. cbn [m_game].
  destruct (m_game st) as [ps fd]. by apply (food_ok_delete ps).
Qed.

Lemma player_step_food (gameId playerId : string) (player : loc) (st : mstate)
    (e : string * loc) :
  food (m_game (player_step gameId playerId player st e)) = food (m_game st).
Proof.
  unfold player_step. destruct e as [otherId other].
  destruct (String.eqb otherId playerId); [done|].
  destruct (m_heap st !! player); [|done].
  destruct (m_heap st !! other); [|done].
  cbv zeta. destruct (hypot_lt _ _); [|done].
  destruct (_ <? _); [done|]. by destruct (_ <? _).
Qed.

Lemma passes_food_ok (gameId playerId : string) (player : loc) (st : mstate) :
  food_ok (m_game st) ->
  food_ok (m_game (player_pass gameId playerId player (food_pass gameId player st))).
Proof.
  intros Hok. unfold player_pass.
  apply (fold_left_invariant (fun a => food_ok (m_game a))).
  { intros a e _ Ha. unfold food_ok. by rewrite player_step_food. }
  unfold food_pass.
  apply (fold_left_invariant (fun a => food_ok (m_game a))); [|done].
  intros a f _. apply food_step_food_ok.
Qed.

Lemma spawn_food_ok (o : oracle) (ps : obj loc) :
  (forall n, (0 <= random o n)%Q /\ (random o n < 1)%Q) ->
  food_ok (mkGame ps (fold_left (spawn_food o) (seq 0 20) [])).
Proof.
  intros Hrnd.
  set (I := fun (rest : list nat) (fd : obj Food.t) =>
              NoDup (obj_keys fd) /\
              (length fd + length rest <= 20)%nat /\
              forall k f, In (k, f) fd ->
                k = Food.id f /\
                (0 <= Food.x f)%Q /\ (Food.x f < inject_Z 1920)%Q /\
                (0 <= Food.y f)%Q /\ (Food.y f < inject_Z 1080)%Q).
  assert (I [] (fold_left (spawn_food o) (seq 0 20) [])) as (Hnd & Hlen & Hall).
  { apply (fold_left_rest I).
    - intros i rest fd (Hnd & Hlen & Hall). unfold I, spawn_food. cbv zeta.
      split; [by apply NoDup_keys_set|]. split.
      + pose proof (length_obj_set_le (Food.id (new_food o i)) (new_food o i) fd).
        simpl in Hlen. lia.
      + intros k f Hin. apply obj_set_In in Hin as [Heq|Hin]; [|by apply Hall].
        injection Heq as -> ->. split; [done|].
        unfold new_food. cbn [Food.x Food.y]. apply randPos_range; apply Hrnd.
    - unfold I. split; [apply NoDup_nil_2|]. split; [by rewrite length_seq|].
      intros k f []. }
  split; [done|]. split; [|done]. cbn [food].
  change (length (@nil nat)) with 0%nat in Hlen. by rewrite Nat.add_0_r in Hlen.
Qed.

Lemma on_join_food_ok (o : oracle) (c : conn) (msg : join_msg) (w : world) :
  (forall n, (0 <= random o n)%Q /\ (random o n < 1)%Q) ->
  (forall gid g, obj_get gid (games w) = Some g -> food_ok g) ->
  forall gid g, obj_get gid (games (on_join o c msg w).1.2) = Some g -> food_ok g.
Proof.
  intros Hrnd Hok. unfold on_join.
  destruct (join_walletAddress msg) as [wallet|]; [|done].
  destruct (truthy wallet); [|done].
  destruct (reads_inherited (join_gameId msg) w); [done|]. cbn [fst snd games].
  set (g := default empty_game (obj_get (join_gameId msg) (games w))).
  set (ps := obj_set (genId o 0) (length (heap w)) (players g)).
  assert (food_ok (mkGame ps (food g))) as Hg.
  { unfold g. destruct (obj_get (join_gameId msg) (games w)) as [g0|] eqn:Hg0;
      cbn [default].
    - destruct (Hok _ _ Hg0) as (? & ? & ?). by split.
    - split; [apply NoDup_nil_2|]. split; [simpl; lia|]. intros k f []. }
  assert (food_ok (mkGame ps (if (length (obj_keys (food g)) =? 0)%nat
                              then fold_left (spawn_food o) (seq 0 20) (food g)
                              else food g))) as Hfd.
  { destruct (food g) as [|e fd] eqn:Hfood; cbn [obj_keys map length Nat.eqb].
    - apply spawn_food_ok. exact Hrnd.
    - exact Hg. }
  clearbody ps. revert Hfd. generalize (if (length (obj_keys (food g)) =? 0)%nat
                                         then fold_left (spawn_food o) (seq 0 20) (food g)
                                         else food g).
  intros fd Hfd gid g0 Hg0.
  destruct (decide (join_gameId msg = gid)) as [<-|Hne].
  - rewrite obj_get_set_eq in Hg0. injection Hg0 as <-. exact Hfd.
  - rewrite obj_get_set_ne in Hg0 by exact Hne. exact (Hok gid g0 Hg0).
Qed.

Lemma on_move_food_ok (c : conn) (msg : move_msg) (w : world) :
  (forall gid g, obj_get gid (games w) = Some g -> food_ok g) ->
  forall gid g, obj_get gid (games (on_move c msg w).1) = Some g -> food_ok g.
Proof.
  intros Hok.
  destruct (on_move_shape c msg w)
    as [-> | (gameId & playerId & g & player & st & _ & _ & Hg & _ & Hst & ->)];
    [done|].
  intros gid g0 Hg0. cbn [games] in Hg0.
  destruct (decide (gameId = gid)) as [<-|Hne].
  - rewrite obj_get_set_eq in Hg0. injection Hg0 as <-. rewrite Hst.
    apply passes_food_ok. cbn [m_game]. by eapply Hok.
  - rewrite obj_get_set_ne in Hg0 by done. by eapply Hok.
Qed.

Lemma on_disconnect_food_ok (c : conn) (w : world) :
  (forall gid g, obj_get gid (games w) = Some g -> food_ok g) ->
  forall gid g, obj_get gid (games (on_disconnect c w).1) = Some g -> food_ok g.
Proof.
  intros Hok. unfold on_disconnect.
  destruct (conn_gameId c) as [gameId|]; [|done].
  destruct (conn_playerId c) as [playerId|]; [|done].
  destruct (truthy gameId && truthy playerId); [|done].
  destruct (obj_get gameId (games w)) as [g|] eqn:Hg; [|done].
  destruct (obj_has playerId (players g)); [|done]. cbv zeta. cbn [fst].
  assert (forall gid g0,
            obj_get gid (obj_set gameId
                           (mkGame (obj_delete playerId (players g)) (food g))
                           (games w)) = Some g0 -> food_ok g0) as Hset.
  { intros gid g0 Hg0. destruct (decide (gameId = gid)) as [<-|Hne].
    - rewrite obj_get_set_eq in Hg0. injection Hg0 as <-.
      destruct (Hok _ _ Hg) as (? & ? & ?). by split.
    - rewrite obj_get_set_ne in Hg0 by done. by eapply Hok. }
  destruct (_ =? _)%nat; cbn [games heap]; intros gid g0 Hg0.
  - apply obj_get_delete_Some in Hg0 as [_ Hg0]. by eapply Hset.
  - by eapply Hset.
Qed.

(** X7: in every reachable world, every session holds at most 20 food
    objects, no food id twice, each object stored under its own id and
    placed inside the rectangle [0, 1920) x [0, 1080) of [randPos]: food
    is only created by the batch of a [join] that finds none, and only
    deleted afterwards. *)
Theorem reachable_food_is_bounded (w : world) :
  reachable w -> forall gid g, obj_get gid (games w) = Some g -> food_ok g.
Proof.
  induction 1 as [|o c msg w Hrnd _ IH|c msg w _ IH|c w _ IH].
  - intros gid g [=].
  - by apply on_join_food_ok.
  - by apply on_move_food_ok.
  - by apply on_disconnect_food_ok.
Qed.

Lemma reachable_food_is_bounded_witness : food_ok (session_g1 arena).
Proof.
  apply (reachable_food_is_bounded arena arena_reachable "g1"). reflexivity.
Defined.


(** ** Scores *)

(** X8: in every reachable world every player object has a non-negative
    score and every food object of every session has a score between 1
    and 10. *)
Theorem reachable_scores_in_range (w : world) :
  reachable w ->
  (forall l p, heap w !! l = Some p -> 0 <= Player.score p) /\
  (forall gid g k f,
      obj_get gid (games w) = Some g -> obj_get k (food g) = Some f ->
      1 <= Food.score f <= 10).
Proof.
  intros Hr. destruct (reachable_scores_ok w Hr) as [Hh Hfd]. split.
  - intros l p Hl. by apply (Forall_lookup_1 _ _ _ _ Hh Hl).
  - intros gid g k f Hg Hk.
    apply (Hfd gid g k f); by apply obj_get_Some_In.
Qed.

Lemma reachable_scores_in_range_witness :
  Forall (fun p => 0 <= Player.score p)
         (heap (on_move arena_conn to_spawn arena).1).
Proof.
  apply Forall_lookup_2.
  apply (reachable_scores_in_range (on_move arena_conn to_spawn arena).1
           (reach_move arena_conn to_spawn arena arena_reachable)).
Defined.

(** ** The food pass as a whole *)

Lemma obj_get_In_NoDup {V : Type} (k : string) (v : V) (o : obj V) :
  NoDup (obj_keys o) -> In (k, v) o -> obj_get k o = Some v.
Proof.
  unfold obj_keys. induction o as [|[k0 v0] o IH]; simpl; [done|].
  intros Hnd Hin. apply NoDup_cons in Hnd as [Hk0 Hnd].
  destruct Hin as [[= -> ->]|Hin]; [by rewrite String.eqb_refl|].
  destruct (String.eqb_spec k0 k) as [->|Hne]; [|by apply IH].
  exfalso. apply Hk0. apply list_elem_of_In. by apply (in_map fst _ (k, v)).
Qed.

Lemma length_obj_delete_present {V : Type} (k : string) (v : V) (o : obj V) :
  NoDup (obj_keys o) -> obj_get k o = Some v ->
  S (length (obj_delete k o)) = length o.
Proof.
  unfold obj_keys. induction o as [|[k0 v0] o IH]; simpl; [done|].
  intros Hnd Hk. apply NoDup_cons in Hnd as [Hk0 Hnd].
  destruct (String.eqb_spec k0 k) as [->|Hne].
  - by rewrite obj_delete_absent.
  - simpl. by rewrite IH.
Qed.

Lemma count_food_eat_app (out1 out2 : list effect) :
  count_food_eat (out1 ++ out2) = (count_food_eat out1 + count_food_eat out2)%nat.
Proof. unfold count_food_eat. by rewrite List.filter_app, length_app. Qed.

(** X9: the food pass of a mover who is in the session, over a food
    dictionary that stores every object once and under its own id, issues
    exactly one [handleFoodEat] call per food object it deletes, adds to
    the mover's score exactly the scores of the deleted objects, leaves the
    players' dictionary alone and keeps the sum of the live scores. *)
Theorem food_pass_settles_each_food_once (gameId playerId : string)
    (player : loc) (st : mstate) (p : Player.t) :
  game_ok (m_game st) ->
  (forall k f, In (k, f) (food (m_game st)) -> k = Food.id f) ->
  obj_get playerId (players (m_game st)) = Some player ->
  m_heap st !! player = Some p ->
  let st' := food_pass gameId player st in
  players (m_game st') = players (m_game st) /\
  (count_food_eat (m_out st') + length (food (m_game st'))
   = count_food_eat (m_out st) + length (food (m_game st)))%nat /\
  score_at (m_heap st') player
  + total_of Food.score (obj_values (food (m_game st')))
  = score_at (m_heap st) player
    + total_of Food.score (obj_values (food (m_game st))) /\
  live_total (m_game st') (m_heap st') = live_total (m_game st) (m_heap st).
Proof.
  intros (Hpk & Hpv & Hfk) Hid Hpl Hp st'.
  set (I := fun (rest : list Food.t) (a : mstate) =>
              NoDup (obj_keys (food (m_game a))) /\
              is_Some (m_heap a !! player) /\
              NoDup (map Food.id rest) /\
              (forall f, In f rest -> obj_get (Food.id f) (food (m_game a)) = Some f) /\
              players (m_game a) = players (m_game st) /\
              (count_food_eat (m_out a) + length (food (m_game a))
               = count_food_eat (m_out st) + length (food (m_game st)))%nat /\
              score_at (m_heap a) player
              + total_of Food.score (obj_values (food (m_game a)))
              = score_at (m_heap st) player
                + total_of Food.score (obj_values (food (m_game st))) /\
              live_total (m_game a) (m_heap a) = live_total (m_game st) (m_heap st)).
  assert (I [] st') as (_ & _ & _ & _ & Hps & Hcount & Hscore & Htotal);
    [|by repeat split].
  unfold st', food_pass. apply (fold_left_rest I).
  - intros f rest a (Hnd & [q Hq] & Hrest & Hin & Hps & Hcount & Hscore & Htotal).
    cbn [map] in Hrest. apply NoDup_cons in Hrest as [Hf Hrest].
    pose proof (Hin f (or_introl eq_refl)) as Hstored.
    unfold food_step. rewrite Hq.
    destruct (hypot_lt _ _).
    + unfold I. cbn [m_heap m_game m_out players food].
      split; [by apply NoDup_keys_delete|]. split.
      { rewrite list_lookup_insert_eq; [done|]. by eapply lookup_lt_Some. }
      split; [done|]. split.
      { intros f' Hf'. rewrite obj_get_delete_ne; [apply Hin; by right|].
        intros Heq. apply Hf. rewrite Heq. apply list_elem_of_In.
        by apply in_map. }
      split; [done|]. split.
      { rewrite count_food_eat_app. cbn.
        pose proof (length_obj_delete_present _ _ _ Hnd Hstored). lia. }
      assert (score_at (<[player := Player.add_score (Food.score f) q]> (m_heap a))
                       player = score_at (m_heap a) player + Food.score f) as Hs.
      { rewrite (score_at_insert _ _ _ q) by done.
        destruct (decide (player = player)); [|done].
        unfold score_at. by rewrite Hq. }
      split.
      { rewrite Hs, (total_of_delete _ _ f) by done. lia. }
      rewrite <- Htotal. unfold live_total. cbn [players food].
      rewrite (total_of_add_score _ _ q), (total_of_delete _ _ f); try done.
      * lia.
      * by rewrite Hps.
      * rewrite Hps. by eapply obj_get_values.
    + unfold I. split; [done|]. split; [by exists q|]. split; [done|].
      split; [|done]. intros f' Hf'. apply Hin. by right.
  - unfold I. split; [done|]. split; [by exists p|]. split.
    + unfold obj_values, obj_keys in *.
      replace (map Food.id (map snd (food (m_game st))))
        with (map fst (food (m_game st))); [done|].
      rewrite map_map. apply map_ext_in. intros [k f] Hkf. by apply Hid.
    + split; [|done]. intros f Hf. apply in_map_iff in Hf as ([k f0] & <- & Hkf).
      cbn [snd]. rewrite <- (Hid k f0 Hkf). by apply obj_get_In_NoDup.
Qed.

Lemma food_pass_settles_each_food_once_witness :
  let ann := Player.mk "ann" spawn_xy spawn_xy 0 "0xA" "s1" in
  let st := mkM [ann]
                (mkGame [("a"%string, 0%nat)]
                        [("f1"%string, Food.mk "f1" (inject_Z 500) (inject_Z 505) 4);
                         ("f2"%string, Food.mk "f2" (inject_Z 0) (inject_Z 0) 7)])
                [] in
  let st' := food_pass "g1" 0%nat st in
  count_food_eat (m_out st') = 1%nat /\ score_at (m_heap st') 0%nat = 4.
Proof.
  intros ann st st'.
  assert (game_ok (m_game st)) as Hok.
  { repeat split; apply (bool_decide_unpack _); reflexivity. }
  assert (forall k f, In (k, f) (food (m_game st)) -> k = Food.id f) as Hid.
  { intros k f [[= <- <-]|[[= <- <-]|[]]]; reflexivity. }
  destruct (food_pass_settles_each_food_once "g1" "a" 0%nat st ann Hok Hid
              eq_refl eq_refl) as (_ & Hcount & Hscore & _).
  fold st' in Hcount, Hscore.
  change (length (food (m_game st'))) with 1%nat in Hcount.
  change (total_of Food.score (obj_values (food (m_game st')))) with 7 in Hscore.
  change (count_food_eat (m_out st)) with 0%nat in Hcount.
  change (length (food (m_game st))) with 2%nat in Hcount.
  change (score_at (m_heap st) 0%nat) with 0 in Hscore.
  change (total_of Food.score (obj_values (food (m_game st)))) with 11 in Hscore.
  split; lia.
Defined.


(** ** What a [move] does to the mover and to the scores *)

Lemma score_at_assign (h : list Player.t) (l l' : loc) (nx ny : coord) :
  score_at (alter (Player.assign_xy nx ny) l h) l' = score_at h l'.
Proof.
  unfold score_at, loc in *. destruct (decide (l = l')) as [<-|Hne].
  - rewrite list_lookup_alter_eq. by destruct (h !! l).
  - by rewrite list_lookup_alter_ne.
Qed.

Lemma score_at_add_score_le (h : list Player.t) (l0 l : loc) (p : Player.t) (n : Z) :
  h !! l0 = Some p -> 0 <= n ->
  score_at h l <= score_at (<[l0 := Player.add_score n p]> h) l.
Proof.
  intros Hp Hn. rewrite (score_at_insert _ _ _ p) by done.
  destruct (decide (l0 = l)) as [<-|_]; [|lia].
  unfold score_at. rewrite Hp. simpl. lia.
Qed.

Lemma food_step_mono (gameId : string) (player : loc) (st : mstate) (f : Food.t)
    (l : loc) :
  0 <= Food.score f ->
  score_at (m_heap st) l <= score_at (m_heap (food_step gameId player st f)) l.
Proof.
  intros Hf. unfold food_step.
  destruct (m_heap st !! player) as [p|] eqn:Hp; [|done].
  destruct (hypot_lt _ _); [|done]. by apply score_at_add_score_le.
Qed.

Lemma player_step_mono (gameId playerId : string) (player : loc) (st : mstate)
    (e : string * loc) (l : loc) :
  Forall (fun p => 0 <= Player.score p) (m_heap st) ->
  score_at (m_heap st) l <= score_at (m_heap (player_step gameId playerId player st e)) l.
Proof.
  intros Hh. unfold player_step. destruct e as [otherId other].
  destruct (String.eqb otherId playerId); [done|].
  destruct (m_heap st !! player) as [p|] eqn:Hp; [|done].
  destruct (m_heap st !! other) as [o|] eqn:Ho; [|done].
  pose proof (Forall_lookup_1 _ _ _ _ Hh Hp) as H0.
  pose proof (Forall_lookup_1 _ _ _ _ Hh Ho) as H1. simpl in H0, H1.
  cbv zeta. destruct (hypot_lt _ _); [|done].
  destruct (_ <? _); [by apply score_at_add_score_le|].
  destruct (_ <? _); [by apply score_at_add_score_le|done].
Qed.

(** X10: when all scores are in range (non-negative players, food between
    1 and 10), a [move] lowers the score of no player object: scores only
    grow, also for a player that is eaten during the move. *)
Theorem move_never_lowers_a_score (c : conn) (msg : move_msg) (w : world) (l : loc) :
  scores_ok (heap w) (games w) ->
  score_at (heap w) l <= score_at (heap (on_move c msg w).1) l.
Proof.
  intros [Hh Hfd].
  destruct (on_move_shape c msg w)
    as [-> | (gameId & playerId & g & player & st & _ & _ & Hg & _ & Hst & ->)];
    [done|].
  cbn [heap]. rewrite Hst. clear Hst st.
  set (h1 := alter _ player (heap w)).
  set (I := fun a => mstate_scores_ok a /\
                     score_at (heap w) l <= score_at (m_heap a) l).
  assert (I (mkM h1 g [])) as H1.
  { split.
    - split; cbn [m_heap m_game].
      + apply Forall_alter; [done|]. intros p _ Hp. exact Hp.
      + intros k f Hin. eapply Hfd; [|exact Hin]. by apply obj_get_Some_In.
    - cbn [m_heap]. unfold h1. by rewrite score_at_assign. }
  assert (I (food_pass gameId player (mkM h1 g []))) as H2.
  { unfold food_pass. apply (fold_left_invariant I); [|exact H1].
    intros a f Hin [Hok Hle].
    assert (1 <= Food.score f <= 10) as Hf.
    { cbn [m_game] in Hin. apply in_map_iff in Hin as ([k f0] & <- & Hkf).
      eapply Hfd; [|exact Hkf]. by apply obj_get_Some_In. }
    split; [by apply food_step_scores|].
    etransitivity; [exact Hle|]. apply food_step_mono. lia. }
  assert (I (player_pass gameId playerId player
               (food_pass gameId player (mkM h1 g [])))) as [_ H3]; [|exact H3].
  unfold player_pass. apply (fold_left_invariant I); [|exact H2].
  intros a e _ [Hok Hle]. split; [by apply player_step_scores|].
  etransitivity; [exact Hle|]. apply player_step_mono. by destruct Hok.
Qed.

Lemma move_never_lowers_a_score_witness :
  score_at (heap arena) 2%nat
  <= score_at (heap (on_move arena_conn to_spawn arena).1) 2%nat.
Proof.
  apply move_never_lowers_a_score. apply reachable_scores_ok, arena_reachable.
Defined.

Lemma mover_kept_by_insert (h : list Player.t) (player l0 : loc)
    (q p0 : Player.t) (n : Z) (P : Player.t -> Prop) :
  (forall p1 m, P p1 -> P (Player.add_score m p1)) ->
  h !! player = Some q -> P q -> h !! l0 = Some p0 ->
  exists q', <[l0 := Player.add_score n p0]> h !! player = Some q' /\ P q'.
Proof.
  intros HP Hq HPq H0. destruct (decide (l0 = player)) as [->|Hne].
  - rewrite list_lookup_insert_eq by (by eapply lookup_lt_Some).
    eexists. split; [done|]. apply HP. congruence.
  - rewrite list_lookup_insert_ne by done. by exists q.
Qed.

(** What the passes keep true of the mover's object. *)
Lemma passes_keep_mover (gameId playerId : string) (player : loc) (st : mstate)
    (P : Player.t -> Prop) :
  (forall p1 m, P p1 -> P (Player.add_score m p1)) ->
  (exists q, m_heap st !! player = Some q /\ P q) ->
  exists q, m_heap (player_pass gameId playerId player
                      (food_pass gameId player st)) !! player = Some q /\ P q.
Proof.
  intros HP Hst. unfold player_pass.
  apply (fold_left_invariant (fun a => exists q, m_heap a !! player = Some q /\ P q)).
  { intros a [otherId other] _ (q & Hq & HPq). unfold player_step.
    destruct (String.eqb otherId playerId); [by exists q|]. rewrite Hq.
    destruct (m_heap a !! other) as [o|] eqn:Ho; [|by exists q].
    cbv zeta. destruct (hypot_lt _ _); [|by exists q].
    destruct (_ <? _); [by apply (mover_kept_by_insert _ _ _ q)|].
    destruct (_ <? _); [by apply (mover_kept_by_insert _ _ _ q)|by exists q]. }
  unfold food_pass.
  apply (fold_left_invariant (fun a => exists q, m_heap a !! player = Some q /\ P q));
    [|exact Hst].
  intros a f _ (q & Hq & HPq). unfold food_step. rewrite Hq.
  destruct (hypot_lt _ _); [|by exists q].
  by apply (mover_kept_by_insert _ _ _ q).
Qed.

(** X11: a [move] of a connection whose player is found stores the
    coordinates of the payload in the mover's object, whatever happens in
    the two passes (also when the mover is eaten), and keeps the mover's
    name and wallet address. *)
Theorem move_sets_the_position (c : conn) (msg : move_msg) (w : world)
    (gameId playerId : string) (g : game) (player : loc) (p : Player.t) :
  find_mover c w = Some (gameId, playerId, g, player) ->
  heap w !! player = Some p ->
  exists p',
    heap (on_move c msg w).1 !! player = Some p' /\
    Player.x p' = move_x msg /\ Player.y p' = move_y msg /\
    Player.name p' = Player.name p /\
    Player.walletAddress p' = Player.walletAddress p.
Proof.
  intros Hm Hp.
  destruct (find_mover_Some _ _ _ _ _ _ Hm) as (Hcg & Hcp & Ht & Hg & Hl).
  unfold on_move. rewrite Hcg, Hcp, Ht, Hg, Hl. cbv zeta. cbn [fst heap].
  apply (passes_keep_mover gameId playerId player _
           (fun q => Player.x q = move_x msg /\ Player.y q = move_y msg /\
                     Player.name q = Player.name p /\
                     Player.walletAddress q = Player.walletAddress p)).
  - intros p1 m Hp1. exact Hp1.
  - cbn [m_heap]. unfold loc in *. rewrite list_lookup_alter_eq, Hp. simpl.
    eexists. by split.
Qed.

Lemma move_sets_the_position_witness :
  exists p',
    heap (on_move arena_conn to_spawn arena).1 !! 0%nat = Some p' /\
    Player.x p' = spawn_xy /\ Player.y p' = spawn_xy.
Proof.
  destruct (move_sets_the_position arena_conn to_spawn arena "g1" "p"
              (session_g1 arena) 0%nat
              (Player.mk "pat" (CNum (inject_Z 0)) (CNum (inject_Z 0)) 1 "0xP" "s0")
              eq_refl eq_refl) as (p' & Hp' & Hx & Hy & _).
  exists p'. by repeat split.
Defined.

(** X12: every effect of a [move] concerns the mover and the mover's
    session: each [handleFoodEat] call names the mover's wallet address as
    eater, each [handleUserEat] call has it as loser or as winner, each
    webhook names the mover, each broadcast goes to the mover's session.
    A move never settles between two other players. *)
Theorem move_effects_concern_the_mover (c : conn) (msg : move_msg) (w : world)
    (gameId playerId : string) (g : game) (player : loc) (p : Player.t) :
  find_mover c w = Some (gameId, playerId, g, player) ->
  heap w !! player = Some p ->
  Forall (concerns gameId p) (on_move c msg w).2.
Proof.
  intros Hm Hp.
  destruct (find_mover_Some _ _ _ _ _ _ Hm) as (Hcg & Hcp & Ht & Hg & Hl).
  unfold on_move. rewrite Hcg, Hcp, Ht, Hg, Hl. cbv zeta. cbn [snd].
  set (I := fun a => Forall (concerns gameId p) (m_out a) /\
                     exists q, m_heap a !! player = Some q /\
                               Player.name q = Player.name p /\
                               Player.walletAddress q = Player.walletAddress p).
  assert (forall m q, Player.name q = Player.name p /\
                      Player.walletAddress q = Player.walletAddress p ->
                      Player.name (Player.add_score m q) = Player.name p /\
                      Player.walletAddress (Player.add_score m q)
                      = Player.walletAddress p) as Hadd by done.
  assert (I (player_pass gameId playerId player
               (food_pass gameId player
                  (mkM (alter (Player.assign_xy (move_x msg) (move_y msg))
                              player (heap w)) g [])))) as [Hout _].
  { unfold player_pass. apply (fold_left_invariant I).
    { intros a [otherId other] _ (Hout & q & Hq & Hn & Hw). unfold player_step.
      destruct (String.eqb otherId playerId); [split; [done|by exists q]|].
      rewrite Hq.
      destruct (m_heap a !! other) as [o|] eqn:Ho; [|split; [done|by exists q]].
      cbv zeta. destruct (hypot_lt _ _); [|split; [done|by exists q]].
      destruct (_ <? _).
      - split; cbn [m_out m_heap].
        + apply Forall_app. split; [done|].
          repeat apply List.Forall_cons; try apply List.Forall_nil; simpl; auto.
        + by apply (mover_kept_by_insert _ _ _ q _ _
                      (fun q0 => Player.name q0 = Player.name p /\
                                 Player.walletAddress q0 = Player.walletAddress p)).
      - destruct (_ <? _); [|split; [done|by exists q]].
        split; cbn [m_out m_heap].
        + apply Forall_app. split; [done|].
          repeat apply List.Forall_cons; try apply List.Forall_nil; simpl; auto.
        + by apply (mover_kept_by_insert _ _ _ q _ _
                      (fun q0 => Player.name q0 = Player.name p /\
                                 Player.walletAddress q0 = Player.walletAddress p)). }
    unfold food_pass. apply (fold_left_invariant I).
    { intros a f _ (Hout & q & Hq & Hn & Hw). unfold food_step. rewrite Hq.
      destruct (hypot_lt _ _); [|split; [done|by exists q]].
      split; cbn [m_out m_heap].
      - apply Forall_app. split; [done|].
        repeat apply List.Forall_cons; try apply List.Forall_nil; simpl; auto.
      - by apply (mover_kept_by_insert _ _ _ q _ _
                    (fun q0 => Player.name q0 = Player.name p /\
                               Player.walletAddress q0 = Player.walletAddress p)). }
    split; cbn [m_out m_heap]; [apply List.Forall_nil|].
    unfold loc in *. rewrite list_lookup_alter_eq, Hp. simpl. eexists. by split. }
  apply Forall_app. split; [exact Hout|].
  repeat apply List.Forall_cons; try apply List.Forall_nil; simpl; auto.
Qed.

Lemma move_effects_concern_the_mover_witness :
  Forall (concerns "g1"
            (Player.mk "pat" (CNum (inject_Z 0)) (CNum (inject_Z 0)) 1 "0xP" "s0"))
         (on_move arena_conn to_spawn arena).2.
Proof.
  apply (move_effects_concern_the_mover arena_conn to_spawn arena "g1" "p"
           (session_g1 arena) 0%nat); reflexivity.
Defined.

(** X13: a [move] after which the mover overlaps no food object and no
    other player of the session only moves: the mover's object takes the
    coordinates of the payload, nothing is deleted, no score changes, no
    settlement call is made, and the state is broadcast once. *)
Theorem move_without_overlap_only_moves (c : conn) (msg : move_msg) (w : world)
    (gameId playerId : string) (g : game) (player : loc) (p : Player.t) :
  find_mover c w = Some (gameId, playerId, g, player) ->
  heap w !! player = Some p ->
  let p1 := Player.assign_xy (move_x msg) (move_y msg) p in
  (forall k f, In (k, f) (food g) ->
     hypot_lt (dist (Player.pos p1) (Food.pos f))
              (playerRadius (Player.score p1) + foodRadius (Food.score f)) = false) ->
  (forall k l o, In (k, l) (players g) -> k <> playerId -> l <> player ->
     heap w !! l = Some o ->
     hypot_lt (dist (Player.pos p1) (Player.pos o))
              (playerRadius (Player.score p1) + playerRadius (Player.score o)) = false) ->
  let h' := alter (Player.assign_xy (move_x msg) (move_y msg)) player (heap w) in
  on_move c msg w
  = (mkWorld (games w) h', [state_msg gameId g h'; ConsoleLog LogMove]).
Proof.
  intros Hm Hp p1 Hfood Hothers h'.
  destruct (find_mover_Some _ _ _ _ _ _ Hm) as (Hcg & Hcp & Ht & Hg & Hl).
  unfold on_move. rewrite Hcg, Hcp, Ht, Hg, Hl. cbv zeta. fold h'.
  assert (h' !! player = Some p1) as Hp1.
  { unfold h', loc in *. by rewrite list_lookup_alter_eq, Hp. }
  assert (food_pass gameId player (mkM h' g []) = mkM h' g []) as ->.
  { unfold food_pass. apply fold_left_fixed_In. intros f Hin.
    cbn [m_game] in Hin. apply in_map_iff in Hin as ([k f0] & <- & Hkf).
    unfold food_step. cbn [m_heap snd]. rewrite Hp1.
    by rewrite (Hfood k f0 Hkf). }
  assert (player_pass gameId playerId player (mkM h' g []) = mkM h' g []) as ->.
  { unfold player_pass. apply fold_left_fixed_In. intros [k l] Hin.
    cbn [m_game obj_entries] in Hin. unfold player_step. cbn [m_heap].
    destruct (String.eqb_spec k playerId) as [?|Hk]; [done|]. rewrite Hp1.
    destruct (decide (l = player)) as [->|Hne].
    - rewrite Hp1. cbv zeta. destruct (hypot_lt _ _); [|done].
      by rewrite Z.ltb_irrefl.
    - assert (h' !! l = heap w !! l) as ->.
      { unfold h', loc in *. by apply list_lookup_alter_ne. }
      destruct (heap w !! l) as [o|] eqn:Ho; [|done]. cbv zeta.
      by rewrite (Hothers k l o Hin Hk Hne Ho). }
  cbn [m_game m_heap m_out app]. by rewrite (obj_set_same _ _ _ Hg).
Qed.

Lemma move_without_overlap_only_moves_witness :
  let far := mkMove (CNum (inject_Z 1000)) (CNum (inject_Z 1000)) in
  (on_move arena_conn far arena).1
  = mkWorld (games arena)
            (alter (Player.assign_xy (move_x far) (move_y far)) 0%nat (heap arena)).
Proof.
  intros far.
  rewrite (move_without_overlap_only_moves arena_conn far arena "g1" "p"
             (session_g1 arena) 0%nat
             (Player.mk "pat" (CNum (inject_Z 0)) (CNum (inject_Z 0)) 1 "0xP" "s0")
             eq_refl eq_refl).
  - reflexivity.
  - intros k f Hin. vm_compute in Hin.
    repeat (destruct Hin as [Hin|Hin]; [injection Hin as <- <-; reflexivity|]).
    destruct Hin.
  - intros k l o Hin Hk Hl Ho. vm_compute in Hin.
    destruct Hin as [[= <- <-]|Hin]; [by destruct Hk|].
    repeat (destruct Hin as [Hin|Hin];
            [injection Hin as <- <-; injection Ho as <-; reflexivity|]).
    destruct Hin.
Defined.

(** ** The broadcast *)

Lemma omap_view_of (h : list Player.t) (entries : list (string * loc)) :
  (forall k l, In (k, l) entries -> (l < length h)%nat) ->
  map view_id (omap (view_of h) entries) = map fst entries /\
  map view_score (omap (view_of h) entries) = map (score_at h) (map snd entries).
Proof.
  induction entries as [|[k l] entries IH]; intros Hrange; [done|].
  destruct IH as (IH1 & IH2).
  { intros k0 l0 Hin. apply (Hrange k0 l0). by right. }
  destruct (lookup_lt_is_Some_2 h l (Hrange k l (or_introl eq_refl))) as [p Hp].
  assert (omap (view_of h) ((k, l) :: entries)
          = mkView k (Player.name p) (Player.x p) (Player.y p) (Player.score p)
                   (Player.walletAddress p) :: omap (view_of h) entries) as ->.
  { change (omap (view_of h) ((k, l) :: entries))
      with (match view_of h (k, l) with
            | Some v => v :: omap (view_of h) entries
            | None => omap (view_of h) entries
            end).
    unfold view_of at 1. cbn [fst snd]. unfold loc in *. by rewrite Hp. }
  cbn [map fst snd view_id view_score]. rewrite IH1, IH2.
  unfold score_at at 2. unfold loc in *. by rewrite Hp.
Qed.

(** X14: [broadcastState] sends nothing for a session that is not in
    [games]; for a session that is, in a world without dangling or shared
    player objects and without repeated ids, it sends one [state] message
    that lists every player of the session exactly once, in the order of
    the dictionary, each with its current score, together with all food
    objects of the session. *)
Theorem broadcast_lists_every_player (gid : string) (w : world) :
  (obj_get gid (games w) = None -> broadcastState gid w = []) /\
  (forall g,
      wf_world w ->
      obj_get gid (games w) = Some g ->
      NoDup (obj_keys (players g)) ->
      exists vs,
        broadcastState gid w = [EmitState gid vs (obj_values (food g))] /\
        map view_id vs = obj_keys (players g) /\
        map view_score vs = map (score_at (heap w)) (obj_values (players g))).
Proof.
  unfold broadcastState. split; [by intros ->|].
  intros g [Hrange _] Hg Hnd. rewrite Hg. unfold state_msg. eexists.
  split; [reflexivity|].
  destruct (omap_view_of (heap w) (obj_entries (players g))) as (H1 & H2);
    [|by split].
  intros k l Hin. apply (Hrange gid g k l Hg). by apply obj_get_In_NoDup.
Qed.

Lemma broadcast_lists_every_player_witness :
  exists vs,
    broadcastState "g1" arena
    = [EmitState "g1" vs (obj_values (food (session_g1 arena)))] /\
    map view_id vs = ["p"; "a"; "b"; "c"]%string /\
    map view_score vs = [1; 5; 5; 0].
Proof.
  destruct (broadcast_lists_every_player "g1" arena) as [_ Hsome].
  apply (Hsome (session_g1 arena)).
  - apply wf_worldb_sound. reflexivity.
  - reflexivity.
  - apply (bool_decide_unpack _). reflexivity.
Defined.


(** ** The overlap test *)





(** ** More on the settlement functions *)

(** X16: [handleUserEat] reads and writes the shares of its two addresses
    only: the share of every third address is unchanged; when loser and
    winner are the same address (two players on one wallet), no share
    changes at all; and the call is refused exactly when the loser's share
    is zero, in which case nothing is written. *)
Theorem handleUserEat_touches_only_the_two (a b gameId : string) (p : pool) :
  let r := handleUserEat a b gameId p in
  (forall c, toLowerCase c <> toLowerCase a -> toLowerCase c <> toLowerCase b ->
             getUserInfo c r.1 = getUserInfo c p) /\
  (toLowerCase a = toLowerCase b -> forall c, getUserInfo c r.1 = getUserInfo c p) /\
  (getUserInfo a p = 0 <-> r = (p, Caught NoShares)) /\
  (getUserInfo a p <> 0 <-> r.2 = Written).
Proof.
  unfold handleUserEat.
  destruct (Z.eqb_spec (getUserInfo a p) 0) as [H0|Hne]; cbn [fst snd].
  - split; [done|]. split; [done|]. split; [done|]. by split.
  - split; [|split; [|split]].
    + intros c Ha Hb. rewrite !getUserInfo_update_ne; auto.
    + intros Hab c. destruct (decide (toLowerCase b = toLowerCase c)) as [Hbc|Hbc].
      * rewrite getUserInfo_update_eq by done. apply getUserInfo_case. congruence.
      * rewrite !getUserInfo_update_ne; auto. congruence.
    + split; [done|]. intros [= _ ?].
    + by split.
Qed.

Lemma handleUserEat_touches_only_the_two_witness :
  getUserInfo "0xB" (handleUserEat "0xA" "0xa" "g1" pool0).1
  = getUserInfo "0xB" pool0.
Proof.
  destruct (handleUserEat_touches_only_the_two "0xA" "0xa" "g1" pool0)
    as (_ & Hsame & _).
  exact (Hsame eq_refl "0xB"%string).
Defined.

(** ** Start-up of [lib.ts] *)

(** X17: [lib.ts] refuses to load exactly when [PRIVATE_KEY] is unset or
    empty; otherwise the key it uses starts with [0x], is the given key
    itself when that already starts with [0x] and the given key behind
    [0x] otherwise, and giving it back as the environment variable yields
    the same key (no second prefix). *)
Theorem private_key_is_prefixed_once (env : option string) :
  (PRIVATE_KEY env = None <-> env = None \/ env = Some EmptyString) /\
  (forall key k,
      env = Some key -> PRIVATE_KEY env = Some k ->
      String.prefix "0x" k = true /\
      (k = key \/ (String.prefix "0x" key = false /\ k = ("0x" ++ key)%string)) /\
      PRIVATE_KEY (Some k) = Some k).
Proof.
  split.
  - destruct env as [[|c key]|]; simpl.
    + split; [by right|done].
    + split; [done|]. by intros [?|?].
    + split; [by left|done].
  - intros key k -> Hk. unfold PRIVATE_KEY in Hk.
    destruct (truthy key) eqn:Ht; [|done]. injection Hk as <-.
    destruct (String.prefix "0x" key) eqn:Hp.
    + split; [done|]. split; [by left|]. unfold PRIVATE_KEY. by rewrite Ht, Hp.
    + assert (String.prefix "0x" ("0x" ++ key) = true) as Hpre.
      { simpl. by destruct key. }
      split; [done|]. split; [by right|].
      unfold PRIVATE_KEY. by rewrite Hpre.
Qed.

Lemma private_key_is_prefixed_once_witness :
  PRIVATE_KEY (Some "ab12"%string) = Some "0xab12"%string /\
  PRIVATE_KEY (Some "0xab12"%string) = Some "0xab12"%string.
Proof.
  destruct (private_key_is_prefixed_once (Some "ab12"%string)) as [_ H].
  destruct (H "ab12"%string "0xab12"%string eq_refl eq_refl) as (_ & _ & Hidem).
  split; [reflexivity|exact Hidem].
Defined.


(** ** The redistribution of [handleFoodEat] *)

Lemma fold_left_add_total (l : list (string * Z)) (a : Z) :
  fold_left (fun sum s => sum + s.2) l a = a + total_of snd l.
Proof.
  revert a. unfold total_of. induction l as [|s l IH]; intros a; simpl; [lia|].
  rewrite IH. lia.
Qed.

Lemma others_total_sum (e : string) (tbl : list (string * Z)) :
  Ledger.others_total e tbl = others_sum e tbl.
Proof.
  unfold Ledger.others_total, others_sum. rewrite fold_left_add_total. simpl.
  unfold total_of. induction tbl as [|s tbl IH]; [done|].
  rewrite filter_cons. cbn [map fold_right].
  destruct (decide _) as [Hd|Hd]; destruct (String.eqb s.1 e) eqn:He;
    cbn [negb map fold_right] in *.
  - destruct Hd.
  - lia.
  - lia.
  - by destruct Hd.
Qed.

Lemma table_sum_split (e : string) (tbl : list (string * Z)) :
  total_of snd tbl = eater_sum e tbl + others_sum e tbl.
Proof.
  unfold total_of, eater_sum, others_sum, total_of.
  induction tbl as [|s tbl IH]; simpl; [done|].
  destruct (String.eqb s.1 e); lia.
Qed.

Lemma eater_count_range (e : string) (tbl : list (string * Z)) :
  NoDup (map fst tbl) ->
  0 <= eater_count e tbl <= 1 /\
  (In e (map fst tbl) -> eater_count e tbl = 1) /\
  (e ∉ map fst tbl -> eater_count e tbl = 0).
Proof.
  unfold eater_count, total_of. induction tbl as [|s tbl IH]; simpl.
  - intros _. split; [lia|]. split; [done|done].
  - intros Hnd. apply NoDup_cons in Hnd as [Hs Hnd].
    destruct (IH Hnd) as (Hr & Hin & Hout).
    destruct (String.eqb_spec s.1 e) as [He|He].
    + rewrite He in Hs. rewrite (Hout Hs). split; [lia|]. split; [done|].
      rewrite not_elem_of_cons. by intros [? _].
    + split; [lia|]. split.
      * intros [?|Hin']; [done|]. rewrite (Hin Hin'). lia.
      * rewrite not_elem_of_cons. intros [_ Hn]. rewrite (Hout Hn). lia.
Qed.

Lemma quot_bounds (s x T : Z) :
  0 < T -> 0 <= x <= T -> 0 <= s ->
  let q := Z.quot (s * (T - x)) T in
  0 <= q <= s /\ T * q <= s * (T - x) <= T * q + (T - 1).
Proof.
  intros HT Hx Hs q. unfold q.
  assert (0 <= s * (T - x)) as Ha by nia.
  rewrite Z.quot_div_nonneg by lia.
  pose proof (Z.mul_div_le (s * (T - x)) T HT) as H1.
  pose proof (Z.mul_succ_div_gt (s * (T - x)) T HT) as H2.
  pose proof (Z.div_pos (s * (T - x)) T Ha HT) as H3.
  split; [|lia]. split; [done|].
  apply Z.div_le_upper_bound; [done|]. nia.
Qed.

Lemma redistribution_sums (e : string) (x T : Z) (l upd : list (string * Z)) :
  0 < T -> 0 <= x <= T -> (forall s, In s l -> 0 <= s.2) ->
  Forall2 (fun s u => updated_share e x T s = Some u) l upd ->
  let Q := total_of snd upd - eater_sum e l - eater_count e l * x in
  T * Q <= (T - x) * others_sum e l /\
  (T - x) * others_sum e l
  <= T * Q + (Z.of_nat (length l) - eater_count e l) * (T - 1).
Proof.
  intros HT Hx Hpos Hall. cbv zeta.
  unfold eater_sum, eater_count, others_sum, total_of.
  induction Hall as [|s u l upd Hsu Hall IH]; [simpl; lia|].
  destruct IH as [IH1 IH2].
  { intros s0 Hs0. apply Hpos. by right. }
  unfold updated_share in Hsu. cbn [map fold_right length].
  rewrite Nat2Z.inj_succ. destruct (String.eqb s.1 e).
  - injection Hsu as <-. cbn [snd]. split; nia.
  - destruct (Z.eqb_spec T 0) as [?|_]; [lia|]. injection Hsu as <-. cbn [snd].
    destruct (quot_bounds s.2 x T HT Hx (Hpos s (or_introl eq_refl)))
      as (_ & Hq1 & Hq2).
    split; nia.
Qed.

Lemma redistribution_entries (e : string) (x T : Z) (l upd : list (string * Z)) :
  0 <= x <= T -> (forall s, In s l -> 0 <= s.2) ->
  Forall2 (fun s u => updated_share e x T s = Some u) l upd ->
  map fst upd = map fst l /\
  Forall2 (fun s u => if String.eqb s.1 e then u.2 = s.2 + x
                      else 0 <= u.2 <= s.2) l upd /\
  (T = 0 -> total_of snd upd = total_of snd l + eater_count e l * x /\
            others_sum e l = 0).
Proof.
  intros Hx Hpos Hall.
  unfold eater_count, others_sum, total_of.
  induction Hall as [|s u l upd Hsu Hall IH]; [by repeat split|].
  destruct IH as (IH1 & IH2 & IH3).
  { intros s0 Hs0. apply Hpos. by right. }
  unfold updated_share in Hsu. cbn [map fold_right].
  destruct (String.eqb s.1 e) eqn:He.
  - injection Hsu as <-. cbn [fst snd]. split; [by rewrite IH1|]. split.
    + apply Forall2_cons. split; [by rewrite He|done].
    + intros HT. destruct (IH3 HT) as [-> ->]. lia.
  - destruct (Z.eqb_spec T 0) as [?|HT]; [done|]. injection Hsu as <-.
    cbn [fst snd]. split; [by rewrite IH1|]. split; [|done].
    apply Forall2_cons. split; [|done]. rewrite He. cbn [snd].
    by apply quot_bounds; [lia|lia|apply Hpos; left].
Qed.

(** X18: the redistribution step of [handleFoodEat], on a [shares] array
    without repeated addresses and without negative shares and for
    [0 <= x <= othersTotal], keeps the addresses, gives the eater exactly
    [x] more, gives every other address a share between 0 and its former
    share, and never creates share: the new shares sum to at most the old
    sum, and, when the eater is in the array, fall short of it by less
    than one unit per entry (the truncated fractions). *)
Theorem redistribution_creates_no_share (eaterLower : string) (x : Z)
    (tbl upd : list (string * Z)) :
  NoDup (map fst tbl) ->
  (forall s, In s tbl -> 0 <= s.2) ->
  0 <= x <= Ledger.others_total eaterLower tbl ->
  mapM (updated_share eaterLower x (Ledger.others_total eaterLower tbl)) tbl
  = Some upd ->
  map fst upd = map fst tbl /\
  Forall2 (fun s u => if String.eqb s.1 eaterLower then u.2 = s.2 + x
                      else 0 <= u.2 <= s.2) tbl upd /\
  total_of snd upd <= total_of snd tbl /\
  (In eaterLower (map fst tbl) ->
   total_of snd tbl - Z.of_nat (length tbl) < total_of snd upd).
Proof.
  intros Hnd Hpos Hx Hmap. apply mapM_Some_1 in Hmap.
  destruct (redistribution_entries _ _ _ _ _ Hx Hpos Hmap) as (Hk & He & H0).
  split; [done|]. split; [done|].
  destruct (eater_count_range eaterLower tbl Hnd) as (Hc & Hc1 & _).
  pose proof (table_sum_split eaterLower tbl) as Hsplit.
  pose proof (others_total_sum eaterLower tbl) as HT.
  destruct (Z.eq_dec (Ledger.others_total eaterLower tbl) 0) as [Hz|Hnz].
  - destruct (H0 Hz) as [Hsum _].
    assert (x = 0) as -> by lia. rewrite Hsum. split; [lia|].
    intros Hin. destruct tbl; [done|]. simpl length. lia.
  - assert (0 < Ledger.others_total eaterLower tbl) as Hpos' by lia.
    destruct (redistribution_sums _ _ _ _ _ Hpos' Hx Hpos Hmap) as [H1 H2].
    rewrite <- HT in *.
    set (T := Ledger.others_total eaterLower tbl) in *.
    set (S' := total_of snd upd) in *. set (E := eater_sum eaterLower tbl) in *.
    set (m := eater_count eaterLower tbl) in *.
    set (n := Z.of_nat (length tbl)) in *.
    assert (0 <= n) as Hn by (unfold n; lia).
    split; [nia|].
    intros Hin. rewrite (Hc1 Hin) in *.
    assert (1 <= n) as Hn1.
    { unfold n. destruct tbl; [done|]. simpl length. lia. }
    rewrite Hsplit.
    destruct (Z_lt_le_dec (E + T - n) S') as [?|Hge]; [done|exfalso].
    assert (T * (S' - E - T) <= T * (- n)) as Hmul
      by (apply Z.mul_le_mono_nonneg_l; lia).
    nia.
Qed.

Lemma redistribution_creates_no_share_witness :
  let tbl := [("0xa"%string, 10); ("0xb"%string, 7); ("0xc"%string, 5)] in
  exists upd,
    mapM (updated_share "0xa" 5 (Ledger.others_total "0xa" tbl)) tbl = Some upd /\
    total_of snd upd <= total_of snd tbl.
Proof.
  intros tbl. eexists. split; [reflexivity|].
  apply (redistribution_creates_no_share "0xa" 5 tbl).
  - apply (bool_decide_unpack _). reflexivity.
  - intros s [<-|[<-|[<-|[]]]]; simpl; lia.
  - split; [lia|]. vm_compute. discriminate.
  - reflexivity.
Defined.

(** X19: whatever its outcome, [handleFoodEat] leaves alone the share of
    every address that is neither the eater nor one of the depositors: a
    food settlement rewrites the depositors and the eater only. *)
Theorem handleFoodEat_touches_only_the_table (absoluteVal : Z) (eater : string)
    (p : pool) (c : string) :
  toLowerCase c <> toLowerCase eater ->
  (forall a, In a (getAllDepositors p) -> toLowerCase a <> toLowerCase c) ->
  getUserInfo c (handleFoodEat absoluteVal eater p).1 = getUserInfo c p.
Proof.
  intros Hce Hcd. unfold handleFoodEat.
  destruct (food_percent _ _) as [food|]; [|done].
  destruct (number_to_bigint food) as [x|]; [|done].
  destruct (_ <? _); [done|].
  destruct (mapM _ _) as [upd|] eqn:Hmap; [|done]. cbn [fst].
  apply mapM_Some_1 in Hmap. unfold updateSharesBatch. rewrite zip_map_fst_snd.
  apply batch_lookup_other. intros k v Hin.
  destruct (Forall2_In_r _ _ _ _ Hmap Hin) as ([k0 v0] & Hin0 & Hupd).
  assert (k = k0) as ->.
  { unfold updated_share in Hupd. cbn [fst snd] in Hupd.
    destruct (String.eqb k0 (toLowerCase eater)); [by injection Hupd|].
    destruct (_ =? _); [done|]. by injection Hupd. }
  apply share_table_In in Hin0 as [(a & Ha & [= -> _]) | [[= -> _] _]].
  - rewrite toLowerCase_idem. by apply Hcd.
  - rewrite toLowerCase_idem. congruence.
Qed.

Lemma handleFoodEat_touches_only_the_table_witness :
  getUserInfo "0xC" (handleFoodEat 4 "0xA" pool0).1 = getUserInfo "0xC" pool0.
Proof.
  apply handleFoodEat_touches_only_the_table; [discriminate|].
  intros a [<-|[<-|[]]]; discriminate.
Defined.

(** ** A drawn id that is already taken *)

(** X20: [join] does not check the id it draws.  When the session already
    has a player under that id, the entry is overwritten: the session has
    the same ids as before, the id now refers to the new player object,
    and the connection of the former player, which still holds the id,
    now finds, and moves, the new player's object. *)
Theorem join_with_taken_id_takes_the_entry_over (o : oracle) (c c0 : conn)
    (msg : join_msg) (w : world) (wallet : string) (g : game) (l0 : loc) :
  join_walletAddress msg = Some wallet -> truthy wallet = true ->
  find_mover c0 w = Some (join_gameId msg, genId o 0, g, l0) ->
  let w' := (on_join o c msg w).1.2 in
  exists g',
    obj_get (join_gameId msg) (games w') = Some g' /\
    obj_keys (players g') = obj_keys (players g) /\
    find_mover c0 w' = Some (join_gameId msg, genId o 0, g', length (heap w)).
Proof.
  intros Hw Ht Hm w'.
  destruct (find_mover_Some _ _ _ _ _ _ Hm) as (Hcg & Hcp & Htr & Hg & Hl).
  destruct (on_join_processed o c msg w wallet Hw Ht (reads_own _ _ _ Hg))
    as (fd & Heq).
  cbv zeta in Heq. unfold w'. rewrite Heq. clear Heq. cbn [fst snd games heap].
  rewrite Hg. cbn [default]. eexists. split; [apply obj_get_set_eq|].
  cbn [players]. split; [by apply obj_keys_set_present with l0|].
  unfold find_mover. rewrite Hcg, Hcp, Htr. cbn [games].
  rewrite obj_get_set_eq. cbn [mbind option_bind players].
  by rewrite obj_get_set_eq.
Qed.

Lemma join_with_taken_id_takes_the_entry_over_witness :
  let w' := (on_join (later_oracle "a") (mkConn None None "s9")
                     (mkJoin "g1" "eve" (Some "0xE"%string)) arena).1.2 in
  exists g',
    find_mover (mkConn (Some "g1"%string) (Some "a"%string) "s1") w'
    = Some ("g1"%string, "a"%string, g', 4%nat).
Proof.
  intros w'.
  destruct (join_with_taken_id_takes_the_entry_over (later_oracle "a")
              (mkConn None None "s9")
              (mkConn (Some "g1"%string) (Some "a"%string) "s1")
              (mkJoin "g1" "eve" (Some "0xE"%string)) arena "0xE"
              (session_g1 arena) 1%nat eq_refl eq_refl eq_refl)
    as (g' & _ & _ & Hm).
  by exists g'.
Defined.

(** ** A second [join] on one connection *)

(** X21: a [join] that is processed on a connection that already has a
    player (under another session or another id than the ones of the new
    join) does not remove that player: the connection now refers to the
    new player only and the former entry stays in its session.  The later
    [disconnect] of the connection removes the new player's entry when the
    two new ids are non-empty (it is ignored otherwise), and in either
    case leaves the former player, and its session, in place. *)
Theorem rejoin_leaves_the_former_player (o : oracle) (c : conn)
    (msg : join_msg) (w : world) (wallet gid pid : string) (g : game) (l : loc) :
  join_walletAddress msg = Some wallet -> truthy wallet = true ->
  reads_inherited (join_gameId msg) w = false ->
  find_mover c w = Some (gid, pid, g, l) ->
  (join_gameId msg, genId o 0) <> (gid, pid) ->
  let r := on_join o c msg w in
  let w2 := (on_disconnect r.1.1 r.1.2).1 in
  conn_gameId r.1.1 = Some (join_gameId msg) /\
  conn_playerId r.1.1 = Some (genId o 0) /\
  (exists g1, obj_get gid (games r.1.2) = Some g1 /\
              obj_get pid (players g1) = Some l) /\
  (exists g2, obj_get gid (games w2) = Some g2 /\
              obj_get pid (players g2) = Some l) /\
  (truthy (join_gameId msg) && truthy (genId o 0) = true ->
   forall g2, obj_get (join_gameId msg) (games w2) = Some g2 ->
              obj_get (genId o 0) (players g2) = None) /\
  (truthy (join_gameId msg) && truthy (genId o 0) = false -> w2 = r.1.2).
Proof.
  intros Hw Ht Hown Hm Hne r w2.
  destruct (find_mover_Some _ _ _ _ _ _ Hm) as (_ & _ & _ & Hg & Hl).
  destruct (on_join_processed o c msg w wallet Hw Ht Hown) as (fd & Heq).
  cbv zeta in Heq. unfold w2, r. rewrite Heq. clear Heq w2 r.
  cbn [fst snd conn_gameId conn_playerId].
  set (jg := join_gameId msg) in *. set (nid := genId o 0) in *.
  set (ps := obj_set nid (length (heap w))
               (players (default empty_game (obj_get jg (games w))))).
  assert (jg = gid -> obj_get pid ps = Some l) as Hps.
  { intros ->. unfold ps. rewrite Hg. cbn [default].
    rewrite obj_get_set_ne; [done|]. intros ->. by apply Hne. }
  set (w1 := mkWorld _ _).
  assert (exists g1, obj_get gid (games w1) = Some g1 /\
                     obj_get pid (players g1) = Some l) as H1.
  { unfold w1. cbn [games]. destruct (decide (jg = gid)) as [Heq|Hgid].
    - subst gid. eexists. split; [apply obj_get_set_eq|]. by apply Hps.
    - exists g. by rewrite obj_get_set_ne. }
  split; [done|]. split; [done|]. split; [done|].
  destruct (truthy jg && truthy nid) eqn:Htr; cycle 1.
  { unfold on_disconnect. cbn [conn_gameId conn_playerId]. rewrite Htr.
    cbn [fst]. split; [done|]. split; done. }
  set (w2 := (on_disconnect _ w1).1).
  assert (w2 = if (length (obj_keys (obj_delete nid ps)) =? 0)%nat
               then mkWorld (obj_delete jg
                               (obj_set jg (mkGame (obj_delete nid ps) fd)
                                        (games w1))) (heap w1)
               else mkWorld (obj_set jg (mkGame (obj_delete nid ps) fd)
                                     (games w1)) (heap w1)) as Hd.
  { unfold w2, on_disconnect. cbn [conn_gameId conn_playerId]. rewrite Htr.
    unfold w1 at 1. cbn [games]. rewrite obj_get_set_eq. cbn [players food].
    unfold obj_has. unfold ps at 1. rewrite obj_get_set_eq.
    unfold loc in *. by destruct (length (obj_keys (obj_delete nid ps)) =? 0)%nat. }
  rewrite Hd. clear Hd w2. split; [|split; [|done]].
  - destruct (decide (jg = gid)) as [Heq|Hgid].
    + subst gid.
      assert (obj_get pid (obj_delete nid ps) = Some l) as Hkept.
      { rewrite obj_get_delete_ne; [by apply Hps|]. intros ->. by apply Hne. }
      assert ((length (obj_keys (obj_delete nid ps)) =? 0)%nat = false) as Hlen.
      { by destruct (obj_delete nid ps). }
      unfold loc in *. rewrite Hlen. cbn [games].
      eexists. split; [apply obj_get_set_eq|]. done.
    + exists g. split; [|done]. unfold w1.
      destruct (_ =? _)%nat; cbn [games heap].
      * rewrite obj_get_delete_ne by done. by rewrite !obj_get_set_ne.
      * by rewrite !obj_get_set_ne.
  - intros _ g2.
    destruct (length (obj_keys (obj_delete nid ps)) =? 0)%nat; cbn [games].
    + rewrite obj_get_delete, String.eqb_refl. done.
    + rewrite obj_get_set_eq. intros [= <-]. cbn [players].
      by rewrite obj_get_delete, String.eqb_refl.
Qed.

Lemma rejoin_leaves_the_former_player_witness :
  let r := on_join (later_oracle "z") arena_conn
                   (mkJoin "g1" "pat" (Some "0xP"%string)) arena in
  exists g2,
    obj_get "g1" (games (on_disconnect r.1.1 r.1.2).1) = Some g2 /\
    obj_get "p" (players g2) = Some 0%nat /\
    obj_get "z" (players g2) = None.
Proof.
  intros r.
  destruct (rejoin_leaves_the_former_player (later_oracle "z") arena_conn
              (mkJoin "g1" "pat" (Some "0xP"%string)) arena "0xP" "g1" "p"
              (session_g1 arena) 0%nat eq_refl eq_refl eq_refl eq_refl)
    as (_ & _ & _ & (g2 & Hg2 & Hkept) & Hgone & _); [discriminate|].
  exists g2. split; [exact Hg2|]. split; [exact Hkept|].
  exact (Hgone eq_refl g2 Hg2).
Defined.

(* ===================================================================== *)
(** * Part IV: the session life cycle of the raw-WebSocket variant *)
(* ===================================================================== *)

Lemma obj_delete_all {V : Type} (k : string) (o : obj V) :
  (forall k', In k' (obj_keys o) -> k' = k) -> obj_delete k o = [].
Proof.
  induction o as [|[k0 v0] o IH]; simpl; [done|]. intros Hall.
  rewrite (Hall k0) by auto. rewrite String.eqb_refl. apply IH. auto.
Qed.

Lemma ws_game_eta (g : Ws.game) : Ws.mkGame (Ws.players g) (Ws.food g) = g.
Proof. by destruct g. Qed.

(** [broadcastState] reads [games] and the registered game object only. *)
Lemma ws_broadcast_frame (ready : string -> bool) (gameId : string)
    (w w' : Ws.world) :
  Ws.games w' = Ws.games w ->
  (forall l, obj_get gameId (Ws.games w) = Some l ->
             Ws.store w' !! l = Ws.store w !! l) ->
  Ws.broadcastState ready gameId w' = Ws.broadcastState ready gameId w.
Proof.
  intros Hg Hs. unfold Ws.broadcastState. rewrite Hg.
  destruct (obj_get gameId (Ws.games w)) as [l|]; [|done]. by rewrite (Hs l).
Qed.

(** ** Opening a connection *)

(** X22: opening a connection on a session id that is registered binds
    the connection to the registered game object and changes nothing; on
    an id that is not registered and names no inherited property, it
    registers a fresh game object without players and without food at
    once (registered sessions can be empty); on an unregistered id that
    names an inherited property ([constructor], [__proto__], ...) it
    creates no game object at all.  A connection that got a game object
    finds it registered under its id, and a second connection opened on
    the same id right after gets the very same game object. *)
Theorem ws_connection_binds_the_session (o o2 : oracle)
    (sock sock2 gameId : string) (w : Ws.world) :
  let r := Ws.on_connection o sock gameId w in
  (forall l, obj_get gameId (Ws.games w) = Some l ->
             r = (Some (Ws.mkConn sock gameId l (genId o 0)), w)) /\
  (obj_get gameId (Ws.games w) = None -> inherited gameId = false ->
   r.1 = Some (Ws.mkConn sock gameId (length (Ws.store w)) (genId o 0)) /\
   Ws.store r.2 = Ws.store w ++ [Ws.empty_game] /\
   Ws.store r.2 !! length (Ws.store w) = Some Ws.empty_game) /\
  (obj_get gameId (Ws.games w) = None -> inherited gameId = true ->
   r = (None, w)) /\
  (forall c, r.1 = Some c ->
     obj_get gameId (Ws.games r.2) = Some (Ws.conn_g c) /\
     Ws.on_connection o2 sock2 gameId r.2
     = (Some (Ws.mkConn sock2 gameId (Ws.conn_g c) (genId o2 0)), r.2)).
Proof.
  intros r.
  assert (forall w0 l, obj_get gameId (Ws.games w0) = Some l ->
            forall o0 s0, Ws.on_connection o0 s0 gameId w0
                          = (Some (Ws.mkConn s0 gameId l (genId o0 0)), w0))
    as Hreg.
  { intros w0 l Hl o0 s0. unfold Ws.on_connection. rewrite Hl.
    rewrite (obj_set_same _ _ _ Hl). by destruct w0. }
  split; [|split; [|split]].
  - intros l Hl. by apply Hreg.
  - intros Hnone Hinh. unfold r, Ws.on_connection. rewrite Hnone, Hinh.
    cbn. split; [done|]. split; [done|].
    by rewrite lookup_app_r, Nat.sub_diag.
  - intros Hnone Hinh. unfold r, Ws.on_connection. by rewrite Hnone, Hinh.
  - intros c Hc.
    assert (obj_get gameId (Ws.games r.2) = Some (Ws.conn_g c)) as Hg.
    { revert Hc. unfold r, Ws.on_connection.
      destruct (obj_get gameId (Ws.games w)) as [l|];
        [|destruct (inherited gameId); [done|]];
        cbn; intros [= <-]; apply obj_get_set_eq. }
    split; [exact Hg|]. by apply Hreg.
Qed.

(** ** Closing a connection *)

(** X23: when a connection closes and the game object it holds has no
    player under another id (in particular when nobody has joined yet and
    the connection itself never joined), the entry of its session id is
    deleted from [games], whichever game object is registered there at
    that moment.  The other session ids and the other game objects are
    untouched, and the game object survives, without players, for the
    connections that still hold it. *)
Theorem ws_close_unregisters_the_session (ready : string -> bool)
    (c : Ws.conn) (w : Ws.world) (g : Ws.game) :
  Ws.store w !! Ws.conn_g c = Some g ->
  (forall k, In k (obj_keys (Ws.players g)) -> k = Ws.conn_playerId c) ->
  let w' := (Ws.on_close ready c w).1 in
  obj_get (Ws.conn_gameId c) (Ws.games w') = None /\
  (forall gid, gid <> Ws.conn_gameId c ->
               obj_get gid (Ws.games w') = obj_get gid (Ws.games w)) /\
  (forall l, l <> Ws.conn_g c -> Ws.store w' !! l = Ws.store w !! l) /\
  Ws.store w' !! Ws.conn_g c = Some (Ws.mkGame [] (Ws.food g)).
Proof.
  intros Hg Hall w'. unfold w', Ws.on_close. rewrite Hg. cbn [Ws.players].
  rewrite (obj_delete_all _ _ Hall). cbn. split; [|split; [|split]].
  - rewrite obj_get_delete. by rewrite String.eqb_refl.
  - intros gid Hne. by rewrite obj_get_delete_ne.
  - intros l Hne. by rewrite list_lookup_insert_ne.
  - apply list_lookup_insert_eq. by eapply lookup_lt_Some.
Qed.

Lemma ws_close_unregisters_the_session_witness :
  obj_get "g1" (Ws.games lobby_second.2) = Some 0%nat /\
  obj_get "g1" (Ws.games lobby) = None.
Proof.
  split; [reflexivity|].
  apply (ws_close_unregisters_the_session all_open lobby_second.1
           lobby_second.2 Ws.empty_game eq_refl).
  intros k [].
Defined.

(** X24: the close handler has no guard: for a connection that never
    joined (no entry under its player id) and whose game object has
    players, it changes nothing but still writes its log line and
    broadcasts the state to the players of the registered session. *)
Theorem ws_close_without_join_still_broadcasts (ready : string -> bool)
    (c : Ws.conn) (w : Ws.world) (g : Ws.game) :
  Ws.store w !! Ws.conn_g c = Some g ->
  obj_get (Ws.conn_playerId c) (Ws.players g) = None ->
  Ws.players g <> [] ->
  Ws.on_close ready c w
  = (w, Ws.ConsoleLog LogLeave :: Ws.broadcastState ready (Ws.conn_gameId c) w).
Proof.
  intros Hg Hnone Hne. unfold Ws.on_close. rewrite Hg. cbn [Ws.players].
  rewrite (obj_delete_absent _ _ (proj1 (obj_get_None_keys _ _) Hnone)), ws_game_eta.
  unfold loc in *. rewrite (list_insert_id _ _ _ Hg).
  destruct (Ws.players g) as [|e rest] eqn:Hps; [done|]. cbn. by destruct w.
Qed.

Lemma ws_close_without_join_still_broadcasts_witness :
  (Ws.on_close all_open lobby_second.1 lobby_joined).1 = lobby_joined /\
  length (Ws.on_close all_open lobby_second.1 lobby_joined).2 = 2%nat.
Proof.
  rewrite (ws_close_without_join_still_broadcasts all_open lobby_second.1
             lobby_joined lobby_game eq_refl eq_refl).
  - split; reflexivity.
  - discriminate.
Defined.

(** ** Joining *)

(** X25: a [join] on a connection whose game object is not the one
    registered under its session id (the entry was deleted by the close of
    another connection, or replaced since) stores the player in the
    connection's own object, does not register that object, and
    broadcasts exactly what a broadcast before the join would have sent:
    no message lists the new player. *)
Theorem ws_join_into_unregistered_session (ready : string -> bool)
    (o : oracle) (c : Ws.conn) (msg_name : string) (w : Ws.world) (g : Ws.game) :
  Ws.store w !! Ws.conn_g c = Some g ->
  obj_get (Ws.conn_gameId c) (Ws.games w) <> Some (Ws.conn_g c) ->
  let r := Ws.on_join ready o c msg_name w in
  Ws.games r.1 = Ws.games w /\
  r.2 = Ws.ConsoleLog LogJoin :: Ws.broadcastState ready (Ws.conn_gameId c) w /\
  exists g',
    Ws.store r.1 !! Ws.conn_g c = Some g' /\
    obj_get (Ws.conn_playerId c) (Ws.players g')
    = Some (Ws.mkPlayer msg_name (CNum (inject_Z 500)) (CNum (inject_Z 500))
                        (Ws.conn_ws c) 0).
Proof.
  intros Hg Hreg r. unfold r, Ws.on_join. rewrite Hg. cbn [fst snd Ws.games].
  split; [done|]. split.
  - f_equal. apply ws_broadcast_frame; [done|]. intros l Hl. cbn [Ws.store].
    apply list_lookup_insert_ne. intros <-. by apply Hreg.
  - eexists. cbn [Ws.store]. split.
    + apply list_lookup_insert_eq. by eapply lookup_lt_Some.
    + cbn [Ws.players]. apply obj_get_set_eq.
Qed.

Lemma ws_join_into_unregistered_session_witness :
  (Ws.on_join all_open (later_oracle "f") lobby_first.1 "ann" lobby).2
  = [Ws.ConsoleLog LogJoin].
Proof.
  destruct (ws_join_into_unregistered_session all_open (later_oracle "f")
              lobby_first.1 "ann" lobby Ws.empty_game eq_refl)
    as (_ & Heff & _); [discriminate|].
  exact Heff.
Defined.

(** X26: a [join] on a connection whose game object is the registered
    one sends the new state to open sockets only, and, when the joiner's
    socket is open, to the joiner, with the joiner listed at (500, 500)
    with score 0. *)
Theorem ws_join_reaches_the_joiner (ready : string -> bool)
    (o : oracle) (c : Ws.conn) (msg_name : string) (w : Ws.world) (g : Ws.game) :
  Ws.store w !! Ws.conn_g c = Some g ->
  obj_get (Ws.conn_gameId c) (Ws.games w) = Some (Ws.conn_g c) ->
  let r := Ws.on_join ready o c msg_name w in
  (forall s ps fs, In (Ws.Send s ps fs) r.2 -> ready s = true) /\
  (ready (Ws.conn_ws c) = true ->
   exists ps fs,
     In (Ws.Send (Ws.conn_ws c) ps fs) r.2 /\
     In (Ws.mkView (Ws.conn_playerId c) msg_name (CNum (inject_Z 500))
                   (CNum (inject_Z 500)) 0) ps).
Proof.
  intros Hg Hreg r. unfold r, Ws.on_join. rewrite Hg. cbn [fst snd].
  unfold Ws.broadcastState. cbn [Ws.games Ws.store]. rewrite Hreg.
  rewrite list_lookup_insert_eq by (by eapply lookup_lt_Some).
  cbn [Ws.players Ws.food].
  set (newp := Ws.mkPlayer _ _ _ _ _). set (ps := obj_set _ newp _).
  set (fd := if (length _ =? 0)%nat then _ else _). clearbody fd.
  assert (In (Ws.conn_playerId c, newp) ps) as Hin.
  { apply (obj_get_Some_In _ _ _ (obj_get_set_eq _ _ _)). }
  split.
  - intros s vs fs [Hlog|Hsend]; [done|].
    apply in_map_iff in Hsend as (p & [= <- _ _] & Hp).
    by apply filter_In in Hp as [_ Hp].
  - intros Hopen. do 2 eexists. split.
    + right. apply in_map_iff. exists newp. split; [reflexivity|].
      apply filter_In. split; [|done]. unfold obj_values.
      apply in_map_iff. by exists (Ws.conn_playerId c, newp).
    + unfold obj_entries. apply in_map_iff.
      by exists (Ws.conn_playerId c, newp).
Qed.

Lemma ws_join_reaches_the_joiner_witness :
  exists ps fs,
    In (Ws.Send "sA" ps fs)
       (Ws.on_join all_open (later_oracle "f") lobby_first.1 "ann"
                   lobby_second.2).2 /\
    In (Ws.mkView "a" "ann" (CNum (inject_Z 500)) (CNum (inject_Z 500)) 0) ps.
Proof.
  exact (proj2 (ws_join_reaches_the_joiner all_open (later_oracle "f")
                  lobby_first.1 "ann" lobby_second.2 Ws.empty_game
                  eq_refl eq_refl) eq_refl).
Defined.

(** X27: the [join] branch has no guard either: a second [join] message
    on a connection that already has its player replaces the player
    object by a fresh one at (500, 500) with score 0, whatever score the
    player had, under the same id and at the same place of the
    dictionary; the other players of the game object are kept. *)
Theorem ws_second_join_resets_the_player (ready : string -> bool)
    (o : oracle) (c : Ws.conn) (msg_name : string) (w : Ws.world)
    (g : Ws.game) (p0 : Ws.player) :
  Ws.store w !! Ws.conn_g c = Some g ->
  obj_get (Ws.conn_playerId c) (Ws.players g) = Some p0 ->
  exists g',
    Ws.store (Ws.on_join ready o c msg_name w).1 !! Ws.conn_g c = Some g' /\
    obj_keys (Ws.players g') = obj_keys (Ws.players g) /\
    obj_get (Ws.conn_playerId c) (Ws.players g')
    = Some (Ws.mkPlayer msg_name (CNum (inject_Z 500)) (CNum (inject_Z 500))
                        (Ws.conn_ws c) 0) /\
    (forall k, k <> Ws.conn_playerId c ->
               obj_get k (Ws.players g') = obj_get k (Ws.players g)).
Proof.
  intros Hg Hp. unfold Ws.on_join. rewrite Hg. cbn [fst Ws.store].
  eexists. split; [apply list_lookup_insert_eq; by eapply lookup_lt_Some|].
  cbn [Ws.players]. split; [by apply obj_keys_set_present with p0|].
  split; [apply obj_get_set_eq|]. intros k Hk. by apply obj_get_set_ne.
Qed.

Lemma ws_second_join_resets_the_player_witness :
  exists g',
    Ws.store (Ws.on_join all_open (later_oracle "f") lobby_first.1 "bob"
                         lobby_joined).1 !! 0%nat = Some g' /\
    obj_keys (Ws.players g') = ["a"%string] /\
    obj_get "a" (Ws.players g')
    = Some (Ws.mkPlayer "bob" (CNum (inject_Z 500)) (CNum (inject_Z 500)) "sA" 0).
Proof.
  destruct (ws_second_join_resets_the_player all_open (later_oracle "f")
              lobby_first.1 "bob" lobby_joined lobby_game
              (Ws.mkPlayer "ann" (CNum (inject_Z 500)) (CNum (inject_Z 500)) "sA" 0)
              eq_refl eq_refl)
    as (g' & Hg' & Hkeys & Hp & _).
  exists g'. split; [exact Hg'|]. split; [exact Hkeys|exact Hp].
Defined.

(* ===================================================================== *)
(** * Part V: spawning, the collision test, payloads and the frame of a move *)
(* ===================================================================== *)

(** ** The food batch of a [join] *)

(** What the spawning loop leaves: no more entries than it had plus one
    per draw, every drawn id present, and nothing but what was there or
    was drawn. *)
Lemma spawn_food_fold (o : oracle) (l : list nat) (fd : obj Food.t) :
  (length (fold_left (spawn_food o) l fd) <= length fd + length l)%nat /\
  (forall i, In i l ->
             obj_get (genId o (S i)) (fold_left (spawn_food o) l fd) <> None) /\
  (forall k, obj_get k fd <> None ->
             obj_get k (fold_left (spawn_food o) l fd) <> None) /\
  (forall k f, In (k, f) (fold_left (spawn_food o) l fd) ->
               In (k, f) fd \/
               exists i, In i l /\ k = genId o (S i) /\ f = new_food o i).
Proof.
  revert fd. induction l as [|i l IH]; intros fd.
  - simpl. split; [lia|]. split; [intros i []|]. split; [done|]. by left.
  - cbn [fold_left]. destruct (IH (spawn_food o fd i)) as (Hlen & Hids & Hkeep & Hin).
    assert (forall k, obj_get k fd <> None -> obj_get k (spawn_food o fd i) <> None)
      as Hstep.
    { intros k Hk. unfold spawn_food. cbv zeta.
      destruct (decide (Food.id (new_food o i) = k)) as [<-|Hne].
      - by rewrite obj_get_set_eq.
      - by rewrite obj_get_set_ne. }
    split; [|split; [|split]].
    + pose proof (length_obj_set_le (Food.id (new_food o i)) (new_food o i) fd)
        as Hle.
      change (obj_set (Food.id (new_food o i)) (new_food o i) fd)
        with (spawn_food o fd i) in Hle.
      simpl length. lia.
    + intros j [<-|Hj]; [|by apply Hids].
      apply Hkeep. unfold spawn_food. cbv zeta.
      change (Food.id (new_food o i)) with (genId o (S i)).
      by rewrite obj_get_set_eq.
    + intros k Hk. by apply Hkeep, Hstep.
    + intros k f Hkf. destruct (Hin k f Hkf) as [Hold|(j & Hj & -> & ->)].
      * unfold spawn_food in Hold. cbv zeta in Hold.
        apply obj_set_In in Hold as [[= -> ->]|Hold]; [|by left].
        right. exists i. split; [by left|]. done.
      * right. exists j. split; [by right|]. done.
Qed.

(** C6, as the code has it: a [join] with a non-empty wallet address,
    whose session id reads a game object or nothing in [games], leaves
    the session in [games].  If its food dictionary was empty (also when
    the session did not exist yet), the join draws 20 food objects, each
    with a score between 1 and 10, and stores each under its drawn id:
    afterwards every drawn id is present, nothing else is, there are at
    most 20 food objects, and exactly 20 when the 20 drawn ids are
    pairwise distinct.  If the dictionary was not empty, it is the same
    as before.  [Math.random] returns values in [0, 1). *)
Theorem join_respawns_twenty_food (o : oracle) (c : conn) (msg : join_msg)
    (w : world) (wallet : string) :
  join_walletAddress msg = Some wallet ->
  truthy wallet = true ->
  reads_inherited (join_gameId msg) w = false ->
  (forall n, (0 <= random o n)%Q /\ (random o n < 1)%Q) ->
  let g := default empty_game (obj_get (join_gameId msg) (games w)) in
  exists g',
    obj_get (join_gameId msg) (games (on_join o c msg w).1.2) = Some g' /\
    (obj_keys (food g) = [] ->
     (length (obj_keys (food g')) <= 20)%nat /\
     (forall i, (i < 20)%nat -> obj_get (genId o (S i)) (food g') <> None) /\
     (forall k f, In (k, f) (food g') ->
        exists i, (i < 20)%nat /\ k = genId o (S i) /\ f = new_food o i) /\
     Forall (fun f => 1 <= Food.score f <= 10) (obj_values (food g')) /\
     (NoDup (map (fun i => genId o (S i)) (seq 0 20)) ->
      length (obj_keys (food g')) = 20%nat)) /\
    (obj_keys (food g) <> [] -> food g' = food g).
Proof.
  intros Hw Ht Hown Hrnd g. unfold on_join. rewrite Hw, Ht, Hown.
  cbn [fst snd games]. rewrite obj_get_set_eq. eexists. split; [reflexivity|].
  cbn [food]. fold g.
  destruct (food g) as [|e fd]; cbn [obj_keys map length Nat.eqb].
  - split; [intros _|intros Hne; by destruct Hne].
    destruct (spawn_food_fold o (seq 0 20) []) as (Hlen & Hids & _ & Hin).
    assert (NoDup (map (fun i => genId o (S i)) (seq 0 20)) ->
            length (fold_left (spawn_food o) (seq 0 20) []) = 20%nat) as Hexact.
    { intros Hnd.
      pose proof (spawn_food_perm o (seq 0 20) [] Hnd (fun _ _ => eq_refl)) as Hp.
      rewrite app_nil_r in Hp. rewrite (Permutation_length Hp), length_map.
      apply length_seq. }
    set (fd' := fold_left (spawn_food o) (seq 0 20) []) in *. clearbody fd'.
    rewrite length_seq in Hlen. cbn [length Nat.add] in Hlen.
    assert (forall k f, In (k, f) fd' ->
              exists i, (i < 20)%nat /\ k = genId o (S i) /\ f = new_food o i)
      as Hdrawn.
    { intros k f Hkf. destruct (Hin k f Hkf) as [[]|(i & Hi & -> & ->)].
      exists i. split; [|done]. apply in_seq in Hi. lia. }
    split; [by rewrite length_map|]. split.
    { intros i Hi. apply Hids, in_seq. lia. }
    split; [exact Hdrawn|]. split.
    + unfold obj_values. apply Forall_map, Forall_forall.
      intros [k f] Hkf. apply list_elem_of_In in Hkf.
      destruct (Hdrawn k f Hkf) as (i & _ & _ & ->). cbn [snd].
      unfold new_food. cbn [Food.score]. apply randScore_range; apply Hrnd.
    + intros Hnd. rewrite length_map. by apply Hexact.
  - split; [discriminate|reflexivity].
Qed.

Lemma join_respawns_twenty_food_witness :
  let o := mkOracle (fun n => String (ascii_of_nat (97 + n)) EmptyString)
                    (fun _ => (1 # 2)%Q) in
  exists g',
    obj_get "g1" (games (on_join o (mkConn None None "s1")
                                 (mkJoin "g1" "ann" (Some "0xA"%string))
                                 (mkWorld [] [])).1.2) = Some g' /\
    length (obj_keys (food g')) = 20%nat /\
    Forall (fun f => 1 <= Food.score f <= 10) (obj_values (food g')).
Proof.
  intros o.
  destruct (join_respawns_twenty_food o (mkConn None None "s1")
              (mkJoin "g1" "ann" (Some "0xA"%string)) (mkWorld [] []) "0xA"
              eq_refl eq_refl eq_refl)
    as (g' & Hg' & Hempty & _).
  - intros n. split; [discriminate|reflexivity].
  - destruct (Hempty eq_refl) as (_ & _ & _ & Hscore & Hexact).
    exists g'. split; [exact Hg'|]. split; [|exact Hscore].
    apply Hexact. apply (bool_decide_unpack _). vm_compute. reflexivity.
Defined.

(** C6 as stated fails: the ids of the food objects are drawn without any
    check, and when two of the 20 draws coincide (here the first two, both
    [i], the id that [genId] makes of the random number 0.5) the second
    object replaces the first: the join leaves 19 food objects, not 20. *)
Lemma join_with_repeated_food_id_spawns_fewer :
  let o := mkOracle (fun n => if (n <=? 2)%nat then "i"%string
                              else String "f" (String (ascii_of_nat (97 + n))
                                                      EmptyString))
                    (fun _ => (1 # 2)%Q) in
  let w' := (on_join o (mkConn None None "s1")
                     (mkJoin "g1" "ann" (Some "0xA"%string))
                     (mkWorld [] [])).1.2 in
  obj_keys (food (default empty_game (obj_get "g1" (games (mkWorld [] []))))) = [] /\
  length (obj_keys (food (default empty_game (obj_get "g1" (games w'))))) = 19%nat.
Proof. split; reflexivity. Qed.

(** ** The frame of a [move] *)











(** ** Radii and the collision test *)






(** ** A session id that names an inherited property *)


